(** * NewJobs backend: scoring engine and job-board scrapers

    A shallow embedding of [backend/matcher.py], [backend/bot.py],
    [backend/kariyer_bot.py] and the ranking loop of [backend/main.py],
    together with the properties the specification states about them.

    Conventions of the embedding
    - A Python [str] is a [list ascii].  Character classes are those of
      Python on the ASCII range ([str.isspace], [str.lower], the regular
      expression classes [\s], [\S], [a-zA-Z0-9]); a byte above 127 is a
      character that is neither white space nor alphanumeric and that
      [lower] leaves alone.
    - A Python [float] score is a rational in [Q]; [round(x, 1)] rounds
      the exact value half-to-even.  Scores are compared with [==].
    - External collaborators (scikit-learn, BeautifulSoup, the HTTP
      session, [urllib.parse.quote]) are interfaces: type classes whose
      operations the embedded code calls.
    - A function that makes requests is a state-passing computation over
      the list of the URLs requested so far; the answer of the network may
      depend on that list.
    - Console output and the pacing delays ([time.sleep]) do not bear on
      what the functions return and are left out. *)

From Stdlib Require Import Ascii String ZArith QArith Qround Qminmax Lia Lqa Sorted.
From stdpp Require Import base list gmap pretty.

(** ** Python strings *)

Definition str := list ascii.

Definition py (s : string) : str := list_ascii_of_string s.
Global Arguments py : simpl never.

(** [str.isspace] on the ASCII range: TAB, LF, VT, FF, CR, the four
    separators 0x1c-0x1f and the space. *)
Definition is_space (c : ascii) : bool :=
  let n := N_of_ascii c in
  ((9 <=? n) && (n <=? 13) || (28 <=? n) && (n <=? 32))%N.

Definition is_upper (c : ascii) : bool :=
  let n := N_of_ascii c in ((65 <=? n) && (n <=? 90))%N.

Definition is_lower (c : ascii) : bool :=
  let n := N_of_ascii c in ((97 <=? n) && (n <=? 122))%N.

Definition is_digit (c : ascii) : bool :=
  let n := N_of_ascii c in ((48 <=? n) && (n <=? 57))%N.

(** The class [a-zA-Z0-9]. *)
Definition is_alnum (c : ascii) : bool :=
  is_lower c || is_upper c || is_digit c.

(** A character of a normalized word: a lower-case letter or a digit. *)
Definition is_word_char (c : ascii) : bool := is_lower c || is_digit c.

Definition lower_char (c : ascii) : ascii :=
  if is_upper c then ascii_of_N (N_of_ascii c + 32) else c.

(** [s.lower()] *)
Definition lower (s : str) : str := map lower_char s.

Definition ascii_eqb (a b : ascii) : bool := Ascii.eqb a b.

(** [s == t] *)
Definition str_eqb (s t : str) : bool := bool_decide (s = t).

(** [s.startswith(p)] *)
Fixpoint startswith (p s : str) : bool :=
  match p, s with
  | [], _ => true
  | a :: p', b :: s' => ascii_eqb a b && startswith p' s'
  | _ :: _, [] => false
  end.

(** [sub in s] for strings: [sub] occurs as a contiguous substring. *)
Fixpoint contains (sub s : str) : bool :=
  startswith sub s ||
  match s with
  | [] => false
  | _ :: s' => contains sub s'
  end.

(** [c in s] for a single character. *)
Definition has_char (c : ascii) (s : str) : bool := existsb (ascii_eqb c) s.

(** [s.count(c)] for a single character. *)
Definition count_char (c : ascii) (s : str) : nat :=
  length (filter (λ x, ascii_eqb c x = true) s).

(** The longest prefix without white space (what [\S*] matches). *)
Fixpoint run (s : str) : str :=
  match s with
  | [] => []
  | c :: r => if is_space c then [] else c :: run r
  end.

(** The length of the longest white-space prefix (what [\s*] matches). *)
Fixpoint ws_run (s : str) : nat :=
  match s with
  | [] => 0
  | c :: r => if is_space c then S (ws_run r) else 0
  end.

Fixpoint lstrip (s : str) : str :=
  match s with
  | [] => []
  | c :: r => if is_space c then lstrip r else s
  end.

Fixpoint rstrip (s : str) : str :=
  match s with
  | [] => []
  | c :: r =>
      match rstrip r with
      | [] => if is_space c then [] else [c]
      | r' => c :: r'
      end
  end.

(** [s.strip()] *)
Definition strip (s : str) : str := rstrip (lstrip s).

(** [s.split()]: the maximal runs of characters that are not white space,
    in order; [w] is the word read so far. *)
Fixpoint split_go (w : str) (s : str) : list str :=
  match s with
  | [] => match w with [] => [] | _ => [w] end
  | c :: r =>
      if is_space c
      then match w with [] => split_go [] r | _ => w :: split_go [] r end
      else split_go (w ++ [c]) r
  end.

Definition split (s : str) : list str := split_go [] s.

(** [s[:n]] *)
Definition slice_to (n : nat) (s : str) : str := take n s.

(** ** Python numbers *)

(** Round half to even, as [round] does on the exact value. *)
Definition round_half_even (x : Q) : Z :=
  let f := Qfloor x in
  match ((x - inject_Z f) ?= (1 # 2))%Q with
  | Lt => f
  | Gt => (f + 1)%Z
  | Eq => if Z.even f then f else (f + 1)%Z
  end.

(** [round(x, 1)] *)
Definition round1 (x : Q) : Q := (inject_Z (round_half_even (x * 10)) / 10)%Q.

(** ** Regular-expression substitution

    [re.sub(pattern, repl, text)] scans [text] from the left; where the
    pattern matches (a non-empty match) the match is replaced by [repl]
    and the scan resumes after it, elsewhere the character is copied.
    A pattern is given by its matcher: [m s = Some n] when the pattern
    matches a prefix of [s], [n] being the length of the match the regex
    engine selects.  [skip] counts the characters of the current match
    still to be consumed. *)
Fixpoint re_sub (m : str → option nat) (repl : str) (skip : nat) (s : str) : str :=
  match s with
  | [] => []
  | c :: r =>
      match skip with
      | S k => re_sub m repl k r
      | O =>
          match m (c :: r) with
          | Some (S k) => repl ++ re_sub m repl k r
          | _ => c :: re_sub m repl 0 r
          end
      end
  end.

(** [lit\S+] at the start of [s]: the literal, then at least one character
    that is not white space, greedily up to the end of the run. *)
Definition match_lit_run (lit : str) (s : str) : option nat :=
  if startswith lit s then
    match run (drop (length lit) s) with
    | [] => None
    | w => Some (length lit + length w)
    end
  else None.

(** [http\S+|www\S+] *)
Definition match_url (s : str) : option nat :=
  match match_lit_run (py "http") s with
  | Some n => Some n
  | None => match_lit_run (py "www") s
  end.

(** [\S+@\S+]: the first [\S+] is greedy and gives characters back until an
    [@] followed by at least one more character of the run is found; the
    second [\S+] then runs to the end of the run.  There is a match when some
    [@] of the run is neither its first nor its last character, and the
    match is the whole run. *)
Definition match_email (s : str) : option nat :=
  match run s with
  | [] => None
  | _ :: w => if has_char "@"%char (removelast w) then Some (S (length w)) else None
  end.

(** [[^a-zA-Z0-9\s]] *)
Definition match_special (s : str) : option nat :=
  match s with
  | c :: _ => if is_alnum c || is_space c then None else Some 1
  | [] => None
  end.

(** [\s+] *)
Definition match_spaces (s : str) : option nat :=
  match ws_run s with
  | O => None
  | n => Some n
  end.

(** ** matcher.py *)

(** What [TfidfVectorizer.fit_transform] followed by [cosine_similarity]
    yields for the two documents: the similarity, or [None] when
    scikit-learn raises (for instance on an empty vocabulary). *)
Class Tfidf := tfidf_cosine : str → str → option Q.

(** [JobMatcher._preprocess_text] *)
Definition _preprocess_text (text : str) : str :=
  match text with
  | [] => []
  | _ =>
      let text := lower text in
      let text := re_sub match_url [] 0 text in
      let text := re_sub match_email [] 0 text in
      let text := re_sub match_special (py " ") 0 text in
      strip (re_sub match_spaces (py " ") 0 text)
  end.

(** Python truthiness of a string. *)
Definition nonempty (s : str) : bool :=
  match s with [] => false | _ => true end.

(** [JobMatcher.calculate_match_score] *)
Definition calculate_match_score {vectorizer : Tfidf} (cv_text job_text : str) : Q :=
  let cv_clean := _preprocess_text cv_text in
  let job_clean := _preprocess_text job_text in
  if negb (nonempty cv_clean) || negb (nonempty job_clean) then 0%Q
  else
    match tfidf_cosine cv_clean job_clean with
    | Some similarity =>
        let score := round1 (similarity * 100)%Q in
        Qmax 0 (Qmin 100 score)
    | None => 0%Q
    end.

(** [{w for w in set(clean.split()) if len(w) > 2}] *)
Definition long_words (clean : str) : gset str :=
  filter (λ w : str, 2 < length w) (list_to_set (C := gset str) (split clean)).

(** [JobMatcher.calculate_keyword_overlap] *)
Definition calculate_keyword_overlap (cv_text job_text : str) : Q :=
  let cv_clean := _preprocess_text cv_text in
  let job_clean := _preprocess_text job_text in
  if negb (nonempty cv_clean) || negb (nonempty job_clean) then 0%Q
  else
    let cv_words := long_words cv_clean in
    let job_words := long_words job_clean in
    if decide (job_words = ∅) then 0%Q
    else
      let overlap := size (cv_words ∩ job_words) in
      let score :=
        (inject_Z (Z.of_nat overlap) / inject_Z (Z.of_nat (size job_words)) * 100)%Q in
      round1 (Qmin 100 score).

(** [JobMatcher.get_combined_score] *)
Definition get_combined_score {vectorizer : Tfidf} (cv_text job_text : str) : Q :=
  let tfidf_score := calculate_match_score cv_text job_text in
  let keyword_score := calculate_keyword_overlap cv_text job_text in
  let combined := (tfidf_score * (6 # 10) + keyword_score * (4 # 10))%Q in
  round1 combined.

(** ** The markup parser (BeautifulSoup)

    The queries the scrapers make on a parsed document.  An attribute
    filter is one of the forms of the keyword arguments the code passes to
    [find] and [find_all]. *)
Inductive attr_filter :=
| AnyAttrs                    (* no keyword argument *)
| ClassIs (c : str)           (* class_='c' *)
| ClassHas (c : str)          (* class_=lambda x: x and 'c' in str(x) *)
| ClassHasLower (c : str)     (* class_=lambda x: x and 'c' in str(x).lower() *)
| HasAttr (a : str).          (* a=True *)

Class Soup (elem : Type) := {
  (** [e.find_all(tags, filter)], in document order *)
  find_all : elem → list str → attr_filter → list elem;
  (** [e.select(css)] *)
  select : elem → str → list elem;
  (** [e.get_text(strip=True, separator=sep)] *)
  get_text : elem → str → str;
  (** [e.get(a)], [None] when the attribute is absent *)
  get_attr : elem → str → option str;
  (** [str(e.get('class', []))] *)
  class_repr : elem → str;
}.

(** [e.find(tags, filter)] is the first element of [find_all], if any. *)
Definition find {elem} {parser : Soup elem} (e : elem) (tags : list str) (f : attr_filter)
  : option elem := head (find_all e tags f).

(** ** The transport (requests.Session)

    [session.get(url)] either raises a [RequestException] or returns a
    response; the body is given as the document [BeautifulSoup] parses
    from it.  The answer may depend on the requests made before. *)
Inductive response (elem : Type) :=
| RequestException
| Response (status_code : nat) (soup : elem).
Arguments RequestException {elem}.
Arguments Response {elem} status_code soup.

Class Http (elem : Type) := http_get : list str → str → response elem.

(** [urllib.parse.quote] *)
Class UrlQuote := quote : str → str.

(** A computation that makes requests: the state is the list of the URLs
    requested so far, oldest first. *)
Definition io (A : Type) : Type := list str → A * list str.

Global Instance io_ret : MRet io := λ A (a : A) log, (a, log).
Global Instance io_bind : MBind io := λ A B (f : A → io B) (m : io A) log,
  let '(a, log') := m log in f a log'.

Definition session_get {elem} {session : Http elem} (url : str) : io (response elem) :=
  λ log, (http_get log url, log ++ [url]).

(** How a Python call ends: it returns a value or raises an exception, the
    [InputError] of the specification or another one. *)
Inductive exn := InputError | OtherError (msg : str).
Inductive outcome (A : Type) := Returned (a : A) | Raised (e : exn).
Arguments Returned {A} a.
Arguments Raised {A} e.

(** ** Job records *)

(** The dictionary both scrapers build for a posting. *)
Record job := Job {
  title : str;
  company : str;
  link : str;
  image_url : option str;
  description : str;
}.

Definition set_title (t : str) (j : job) : job :=
  Job t (company j) (link j) (image_url j) (description j).
Definition set_company (c : str) (j : job) : job :=
  Job (title j) c (link j) (image_url j) (description j).
Definition set_description (d : str) (j : job) : job :=
  Job (title j) (company j) (link j) (image_url j) d.

(** [a or b] on optional strings: [a] when it is a non-empty string. *)
Definition py_or (a b : option str) : option str :=
  match a with
  | Some (_ :: _) => a
  | _ => b
  end.

(** Python truthiness of an optional string: neither [None] nor empty. *)
Definition truthy (o : option str) : bool :=
  match o with Some (_ :: _) => true | _ => false end.

(** [len(jobs) >= max_jobs] *)
Definition budget_reached (max_jobs : Z) (jobs : list job) : bool :=
  (max_jobs <=? Z.of_nat (length jobs))%Z.

(** [any(j['title'] == title and j['company'] == company for j in jobs)] *)
Definition is_duplicate (t c : str) (jobs : list job) : bool :=
  existsb (λ j, str_eqb (title j) t && str_eqb (company j) c) jobs.

(** The link of a card: [origin] joined with an [href] that starts with a
    slash, an [href] that starts with [http] as it is, and ["#"] otherwise. *)
Definition resolve_link (origin href : str) : str :=
  if startswith (py "/") href then origin ++ href
  else if startswith (py "http") href then href
  else py "#".

Definition str_of_nat (n : nat) : str := py (pretty n).

(** ** bot.py *)
Module LinkedInBot.
Section bot.
Context {elem : Type} {parser : Soup elem} {session : Http elem} {urllib : UrlQuote}.

Definition origin : str := py "https://www.linkedin.com".

Definition title_selectors : list (str * str) :=
  [ (py "h3", py "base-search-card__title");
    (py "h3", py "job-card-list__title");
    (py "a", py "base-card__full-link");
    (py "span", py "sr-only") ].

Definition company_selectors : list (str * str) :=
  [ (py "h4", py "base-search-card__subtitle");
    (py "a", py "hidden-nested-link");
    (py "span", py "job-card-container__company-name") ].

(** The loop over [title_selectors]; [title] is the value of the variable
    on entry, [None] at first. *)
Fixpoint title_loop (card : elem) (sels : list (str * str)) (title : option str)
  : option str :=
  match sels with
  | [] => title
  | (tag, class_name) :: rest =>
      match find card [tag] (ClassHas class_name) with
      | Some e =>
          let t := get_text e [] in
          if nonempty t && (5 <? length t) then Some t
          else title_loop card rest (Some t)
      | None => title_loop card rest title
      end
  end.

(** The loop over [company_selectors]. *)
Fixpoint company_loop (card : elem) (sels : list (str * str)) (company : str) : str :=
  match sels with
  | [] => company
  | (tag, class_name) :: rest =>
      match find card [tag] (ClassHas class_name) with
      | Some e =>
          let c := get_text e [] in
          if nonempty c then c else company_loop card rest c
      | None => company_loop card rest company
      end
  end.

Definition extract_link (card : elem) : str :=
  match find card [py "a"] (HasAttr (py "href")) with
  | Some link_elem => resolve_link origin (default [] (get_attr link_elem (py "href")))
  | None => py "#"
  end.

(** The title the selectors recover: the loop, then the fallback on the
    first [h3]. *)
Definition recovered_title (card : elem) : option str :=
  let title := title_loop card title_selectors None in
  if truthy title then title
  else match find card [py "h3"] AnyAttrs with
       | Some h3 => Some (get_text h3 [])
       | None => title
       end.

(** [LinkedInBot._extract_job_data] *)
Definition _extract_job_data (card : elem) : option job :=
  match recovered_title card with
  | Some (c :: t) =>
      let title := c :: t in
      let company := company_loop card company_selectors (py "Unknown") in
      let company :=
        if str_eqb company (py "Unknown") then
          match find card [py "h4"] AnyAttrs with
          | Some h4 => get_text h4 []
          | None => company
          end
        else company in
      let link := extract_link card in
      let image_url :=
        match find card [py "img"] (HasAttr (py "src")) with
        | Some img => py_or (get_attr img (py "src")) (get_attr img (py "data-delayed-url"))
        | None => None
        end in
      Some (Job title company link image_url [])
  | _ => None
  end.

(** The body of the loop over the cards of a page, for one card: the list
    of accepted jobs after the card. *)
Definition process_card (role : str) (card : elem) (jobs : list job) : list job :=
  match _extract_job_data card with
  | Some job_data =>
      if nonempty (title job_data) then
        let title0 := title job_data in
        let company0 := company job_data in
        let '(job_data, title0) :=
          if has_char "*"%char title0 then (set_title role job_data, role)
          else (job_data, title0) in
        let '(job_data, company0) :=
          if has_char "*"%char company0
          then (set_company (py "Şirket") job_data, py "Şirket")
          else (job_data, company0) in
        if (length title0 <? 3) || (10 <? count_char " "%char title0) then jobs
        else if is_duplicate title0 company0 jobs then jobs
        else jobs ++ [job_data]
      else jobs
  | None => jobs
  end.

(** [for card in job_cards], with its [break]. *)
Fixpoint cards_loop (role : str) (max_jobs : Z) (cards : list elem) (jobs : list job)
  : list job :=
  match cards with
  | [] => jobs
  | card :: rest =>
      if budget_reached max_jobs jobs then jobs
      else cards_loop role max_jobs rest (process_card role card jobs)
  end.

(** The cascade of container selectors. *)
Definition find_job_cards (soup : elem) : list elem :=
  let job_cards := find_all soup [py "div"] (ClassIs (py "base-card")) in
  let job_cards :=
    match job_cards with
    | [] => find_all soup [py "li"] (ClassIs (py "jobs-search-results__list-item"))
    | _ => job_cards
    end in
  let job_cards :=
    match job_cards with
    | [] => find_all soup [py "div"] (ClassHas (py "job-search-card"))
    | _ => job_cards
    end in
  match job_cards with
  | [] => find_all soup [py "div"] (HasAttr (py "data-entity-urn"))
  | _ => job_cards
  end.

Definition search_url (encoded_role encoded_location : str) (page_start : nat) : str :=
  py "https://www.linkedin.com/jobs/search?keywords=" ++ encoded_role
  ++ py "&location=" ++ encoded_location ++ py "&start=" ++ str_of_nat page_start.

(** [range(0, 200, 25)] *)
Definition page_starts : list nat := [0; 25; 50; 75; 100; 125; 150; 175].

(** [response.raise_for_status()] raises on 4xx and 5xx. *)
Definition raises_for_status (status_code : nat) : bool :=
  (400 <=? status_code) && (status_code <? 600).

(** [for page_start in page_starts], with its [break]. *)
Fixpoint pages_loop (role : str) (max_jobs : Z) (encoded_role encoded_location : str)
    (pages : list nat) (jobs : list job) : io (list job) :=
  match pages with
  | [] => mret jobs
  | page_start :: rest =>
      if budget_reached max_jobs jobs then mret jobs
      else
        r ← session_get (search_url encoded_role encoded_location page_start);
        match r with
        | RequestException =>
            pages_loop role max_jobs encoded_role encoded_location rest jobs
        | Response status_code soup =>
            if raises_for_status status_code
            then pages_loop role max_jobs encoded_role encoded_location rest jobs
            else
              pages_loop role max_jobs encoded_role encoded_location rest
                (cards_loop role max_jobs (find_job_cards soup) jobs)
        end
  end.

Definition description_selectors : list (str * str) :=
  [ (py "div", py "description__text");
    (py "div", py "show-more-less-html__markup");
    (py "div", py "job-description");
    (py "section", py "description") ].

(** The first selector whose element has more than 50 characters of text. *)
Fixpoint description_loop (soup : elem) (sels : list (str * str)) : option str :=
  match sels with
  | [] => None
  | (tag, class_name) :: rest =>
      match find soup [tag] (ClassHas class_name) with
      | Some e =>
          let text := get_text e (py " ") in
          if 50 <? length text then Some (slice_to 2000 text)
          else description_loop soup rest
      | None => description_loop soup rest
      end
  end.

(** The fallback: the first [div] with a class whose text is of medium
    size and whose classes mention a description. *)
Fixpoint description_fallback (divs : list elem) : str :=
  match divs with
  | [] => []
  | div :: rest =>
      let text := get_text div [] in
      if (100 <? length text) && (length text <? 5000)
         && contains (py "description") (lower (class_repr div))
      then slice_to 2000 text
      else description_fallback rest
  end.

(** [LinkedInBot._fetch_job_description] *)
Definition _fetch_job_description (job_url : str) : io str :=
  r ← session_get job_url;
  match r with
  | RequestException => mret []
  | Response status_code soup =>
      if negb (status_code =? 200) then mret []
      else
        match description_loop soup description_selectors with
        | Some text => mret text
        | None =>
            mret (description_fallback
                    (find_all soup [py "div"] (HasAttr (py "class"))))
        end
  end.

(** The loop that fetches the descriptions.  Every dictionary of [jobs] is
    a distinct object, so updating one in place is updating its entry. *)
Fixpoint descriptions_loop (jobs : list job) : io (list job) :=
  match jobs with
  | [] => mret []
  | job :: rest =>
      job' ←
        (if nonempty (link job) && negb (str_eqb (link job) (py "#")) then
           desc ← _fetch_job_description (link job);
           mret (if nonempty desc then set_description desc job else job)
         else mret job);
      rest' ← descriptions_loop rest;
      mret (job' :: rest')
  end.

(** [LinkedInBot.search_jobs].  The function checks none of its arguments,
    and its page loop catches the [RequestException] a session of [Http]
    raises, so on such a session it ends by returning [jobs]. *)
Definition search_jobs (role location : str) (max_jobs : Z)
  : io (outcome (list job)) :=
  let encoded_role := quote role in
  let encoded_location := quote location in
  jobs ← pages_loop role max_jobs encoded_role encoded_location page_starts [];
  jobs ← descriptions_loop jobs;
  mret (Returned jobs).
End bot.
End LinkedInBot.

(** ** kariyer_bot.py *)
Module KariyerNetBot.
Section bot.
Context {elem : Type} {parser : Soup elem} {session : Http elem} {urllib : UrlQuote}.

Definition origin : str := py "https://www.kariyer.net".

(** The title the selectors recover: the element whose class mentions a
    title, then the fallback on the first link. *)
Definition recovered_title (card : elem) : option str :=
  let title : option str :=
    match find card [py "h2"; py "h3"; py "a"] (ClassHasLower (py "title")) with
    | Some title_elem => Some (get_text title_elem [])
    | None => None
    end in
  if truthy title then title
  else match find card [py "a"] (HasAttr (py "href")) with
       | Some a_tag => Some (get_text a_tag [])
       | None => title
       end.

Definition extract_title (card : elem) (search_role : str) : str :=
  match recovered_title card with
  | Some (c :: t) =>
      let title := c :: t in
      if (length title <? 3) || has_char "*"%char title then search_role else title
  | _ => search_role
  end.

Definition extract_company (card : elem) : str :=
  let company :=
    match find card [py "span"; py "div"; py "a"] (ClassHasLower (py "company")) with
    | Some company_elem => get_text company_elem []
    | None => py "Şirket"
    end in
  if negb (nonempty company) || has_char "*"%char company then py "Şirket" else company.

Definition extract_link (card : elem) : str :=
  match find card [py "a"] (HasAttr (py "href")) with
  | Some link_elem => resolve_link origin (default [] (get_attr link_elem (py "href")))
  | None => py "#"
  end.

Definition extract_location (card : elem) : str :=
  match find card [py "span"; py "div"] (ClassHasLower (py "location")) with
  | Some loc_elem => get_text loc_elem []
  | None => []
  end.

(** [KariyerNetBot._extract_job_data]: none of the queries raises, so the
    record is always built. *)
Definition _extract_job_data (card : elem) (search_role : str) : option job :=
  Some (Job (extract_title card search_role) (extract_company card)
            (extract_link card) None (extract_location card)).

(** The body of the loop over the cards of a page, for one card. *)
Definition process_card (role : str) (card : elem) (jobs : list job) : list job :=
  match _extract_job_data card role with
  | Some job_data =>
      if negb (is_duplicate (title job_data) (company job_data) jobs)
      then jobs ++ [job_data]
      else jobs
  | None => jobs
  end.

(** [for card in job_cards], with its [break]. *)
Fixpoint cards_loop (role : str) (max_jobs : Z) (cards : list elem) (jobs : list job)
  : list job :=
  match cards with
  | [] => jobs
  | card :: rest =>
      if budget_reached max_jobs jobs then jobs
      else cards_loop role max_jobs rest (process_card role card jobs)
  end.

(** The cascade of container selectors. *)
Definition find_job_cards (soup : elem) : list elem :=
  let job_cards := find_all soup [py "div"] (ClassIs (py "list-items")) in
  let job_cards :=
    match job_cards with
    | [] => find_all soup [py "div"] (ClassHas (py "job-item"))
    | _ => job_cards
    end in
  let job_cards :=
    match job_cards with
    | [] => find_all soup [py "a"] (ClassHas (py "k-ad-card"))
    | _ => job_cards
    end in
  match job_cards with
  | [] => select soup (py ".listing-list .list-items, .job-list-item, .job-card")
  | _ => job_cards
  end.

Definition search_url (encoded_role encoded_location : str) (page : nat) : str :=
  py "https://www.kariyer.net/is-ilanlari?kw=" ++ encoded_role
  ++ py "&loc=" ++ encoded_location ++ py "&cp=" ++ str_of_nat page.

(** [range(1, 9)] *)
Definition pages : list nat := [1; 2; 3; 4; 5; 6; 7; 8].

(** [for page in range(1, 9)], with its [break]. *)
Fixpoint pages_loop (role : str) (max_jobs : Z) (encoded_role encoded_location : str)
    (ps : list nat) (jobs : list job) : io (list job) :=
  match ps with
  | [] => mret jobs
  | page :: rest =>
      if budget_reached max_jobs jobs then mret jobs
      else
        r ← session_get (search_url encoded_role encoded_location page);
        match r with
        | RequestException =>
            pages_loop role max_jobs encoded_role encoded_location rest jobs
        | Response status_code soup =>
            if negb (status_code =? 200)
            then pages_loop role max_jobs encoded_role encoded_location rest jobs
            else
              pages_loop role max_jobs encoded_role encoded_location rest
                (cards_loop role max_jobs (find_job_cards soup) jobs)
        end
  end.

(** [KariyerNetBot.search_jobs].  The function checks none of its arguments
    and catches what the requests raise, so it ends by returning [jobs]. *)
Definition search_jobs (role location : str) (max_jobs : Z)
  : io (outcome (list job)) :=
  let encoded_role := quote (lower role) in
  let encoded_location := quote (lower location) in
  jobs ← pages_loop role max_jobs encoded_role encoded_location pages [];
  mret (Returned jobs).
End bot.
End KariyerNetBot.

(** ** main.py: the score the search endpoint ranks by *)
Module Main.

(** [sum(1 for kw in cv_keywords_lower if kw in job_text)] *)
Fixpoint keyword_matches (cv_keywords_lower : list str) (job_text : str) : nat :=
  match cv_keywords_lower with
  | [] => 0
  | kw :: rest =>
      (if contains kw job_text then 1 else 0) + keyword_matches rest job_text
  end.

(** [sum(15 for word in role_words if word in job_title and len(word) > 3)] *)
Fixpoint role_match_bonus (role_words : list str) (job_title : str) : nat :=
  match role_words with
  | [] => 0
  | word :: rest =>
      (if contains word job_title && (3 <? length word) then 15 else 0)
      + role_match_bonus rest job_title
  end.

(** The body of the loop over [raw_jobs] up to the rounded [score]. *)
Definition match_score (cv_keywords : list str) (search_title : str) (j : job) : Q :=
  let cv_keywords_lower := map lower cv_keywords in
  let job_title := lower (title j) in
  let job_company := lower (company j) in
  let job_desc := lower (description j) in
  let job_text := job_title ++ py " " ++ job_company ++ py " " ++ job_desc in
  let matches := keyword_matches cv_keywords_lower job_text in
  let keyword_score : Q :=
    match cv_keywords with
    | [] => 0
    | _ => inject_Z (Z.of_nat matches) / inject_Z (Z.of_nat (length cv_keywords)) * 100
    end%Q in
  let search_role := lower search_title in
  let role_words := split search_role in
  let bonus := role_match_bonus role_words job_title in
  let desc_bonus := if nonempty job_desc && (0 <? matches) then 10%nat else 0%nat in
  let score :=
    Qmin 100 (keyword_score + inject_Z (Z.of_nat bonus) + inject_Z (Z.of_nat desc_bonus))%Q in
  round1 score.
End Main.

(** ** A document tree

    An implementation of the parser interface on a plain tree of tags and
    text, as BeautifulSoup builds it, to run the scrapers on given pages. *)
Module Dom.

#[warnings="-register-all"]
Inductive node :=
| Text (s : str)
| Tag (name : str) (attrs : list (str * str)) (kids : list node).

Fixpoint lookup_attr (a : str) (attrs : list (str * str)) : option str :=
  match attrs with
  | [] => None
  | (k, v) :: rest => if str_eqb k a then Some v else lookup_attr a rest
  end.

Definition attr (a : str) (n : node) : option str :=
  match n with
  | Text _ => None
  | Tag _ attrs _ => lookup_attr a attrs
  end.

Definition is_tag (n : node) : bool :=
  match n with Tag _ _ _ => true | Text _ => false end.

Definition tag_name (n : node) : str :=
  match n with Tag name _ _ => name | Text _ => [] end.

(** The tags below [n], in document order. *)
Fixpoint descendants (n : node) : list node :=
  match n with
  | Text _ => []
  | Tag _ _ kids =>
      (fix go (ks : list node) : list node :=
         match ks with
         | [] => []
         | k :: ks' => (if is_tag k then [k] else []) ++ descendants k ++ go ks'
         end) kids
  end.

(** The text strings below [n], in document order. *)
Fixpoint strings (n : node) : list str :=
  match n with
  | Text s => [s]
  | Tag _ _ kids =>
      (fix go (ks : list node) : list str :=
         match ks with
         | [] => []
         | k :: ks' => strings k ++ go ks'
         end) kids
  end.

Fixpoint join (sep : str) (l : list str) : str :=
  match l with
  | [] => []
  | [s] => s
  | s :: rest => s ++ sep ++ join sep rest
  end.

(** The values of the multi-valued attribute [class]. *)
Definition classes (n : node) : option (list str) := split <$> attr (py "class") n.

(** A filter on [class] holds of one of the values, or of the values
    joined by a space. *)
Definition class_matches (p : str → bool) (n : node) : bool :=
  match classes n with
  | None => false
  | Some cs => existsb p cs || p (join (py " ") cs)
  end.

Definition matches (f : attr_filter) (n : node) : bool :=
  match f with
  | AnyAttrs => true
  | ClassIs c => class_matches (str_eqb c) n
  | ClassHas c => class_matches (λ x, nonempty x && contains c x) n
  | ClassHasLower c => class_matches (λ x, nonempty x && contains c (lower x)) n
  | HasAttr a => bool_decide (is_Some (attr a n))
  end.

Definition node_find_all (n : node) (tags : list str) (f : attr_filter) : list node :=
  filter (λ d, existsb (str_eqb (tag_name d)) tags && matches f d = true) (descendants n).

Definition node_get_text (n : node) (sep : str) : str :=
  join sep (filter (λ s, s ≠ []) (strip <$> strings n)).

Definition has_class (c : str) (n : node) : bool :=
  match classes n with
  | None => false
  | Some cs => existsb (str_eqb c) cs
  end.

(** The tags below [n] that the selector list of the Kariyer scraper
    selects: a [.list-items] below a [.listing-list], a [.job-list-item]
    or a [.job-card]; [inside] tells whether [n] is, or is below, a
    [.listing-list]. *)
Fixpoint select_cards (inside : bool) (n : node) : list node :=
  match n with
  | Text _ => []
  | Tag _ _ kids =>
      (fix go (ks : list node) : list node :=
         match ks with
         | [] => []
         | k :: ks' =>
             (if is_tag k &&
                 (inside && has_class (py "list-items") k
                  || has_class (py "job-list-item") k
                  || has_class (py "job-card") k)
              then [k] else [])
             ++ select_cards (inside || has_class (py "listing-list") k) k
             ++ go ks'
         end) kids
  end.

Definition node_select (n : node) (css : str) : list node :=
  if str_eqb css (py ".listing-list .list-items, .job-list-item, .job-card")
  then select_cards false n
  else [].

(** [str] of a list of strings, as Python prints it. *)
Definition node_class_repr (n : node) : str :=
  py "[" ++ join (py ", ") ((λ c, py "'" ++ c ++ py "'") <$> default [] (classes n)) ++ py "]".

Global Instance node_soup : Soup node := {|
  find_all := node_find_all;
  select := node_select;
  get_text := node_get_text;
  get_attr n a := attr a n;
  class_repr := node_class_repr;
|}.

(** A network that answers every request with the same page. *)
Definition serve (page : node) : Http node := λ _ _, Response 200 page.

(** A network that is down. *)
Definition offline : Http node := λ _ _, RequestException.

(** Percent-encoding left out: the URLs are only logged. *)
Definition plain_quote : UrlQuote := λ s, s.

(** A tag with a class and a text. *)
Definition leaf (name cls text : str) : node :=
  Tag name [(py "class", cls)] [Text text].
End Dom.

(** ** Patterns that match within a run

    A pattern such as [http\S+] or [\S+@\S+] only reads the run of
    characters it starts in, matches that run to its end, and matches a
    run whenever it matches a prefix of it. *)
Class RunMatcher (m : str → option nat) := {
  rm_local s : m s = m (run s);
  rm_length s n : m s = Some n → n = length (run s) ∧ 0 < n;
  rm_prefix w' w : w' `prefix_of` w → m w = None → m w' = None;
}.

(** No match of the pattern starts anywhere in [s]. *)
Definition match_free (m : str → option nat) (s : str) : Prop :=
  ∀ u, u `suffix_of` s → m u = None.

(** What [[^a-zA-Z0-9\s]] -> [" "] does to one character. *)
Definition blank (c : ascii) : ascii :=
  if is_alnum c || is_space c then c else " "%char.

(** The text of [_preprocess_text] before white space is collapsed. *)
Definition scrub (text : str) : str :=
  re_sub match_special (py " ") 0
    (re_sub match_email [] 0 (re_sub match_url [] 0 (lower text))).

(** A pattern with two alternatives, the first one tried first. *)
Definition match_alt (m1 m2 : str → option nat) (s : str) : option nat :=
  match m1 s with
  | Some n => Some n
  | None => m2 s
  end.

(** The dedup key of a job. *)
Definition job_key (j : job) : str * str := (title j, company j).

(** ** What the specification says, for comparison *)

(** A URI scheme at the start of [s]: a letter, then letters, digits, [+],
    [-] or [.], then a colon. *)
Definition is_scheme_char (c : ascii) : bool :=
  is_lower c || is_upper c || is_digit c
  || ascii_eqb "+" c || ascii_eqb "-" c || ascii_eqb "." c.

Fixpoint scheme_rest (s : str) : bool :=
  match s with
  | [] => false
  | c :: r => ascii_eqb ":" c || (is_scheme_char c && scheme_rest r)
  end.

Definition begins_with_scheme (s : str) : bool :=
  match s with
  | c :: r => (is_lower c || is_upper c) && scheme_rest r
  | [] => false
  end.

(** The ranking score as the specification words it: the keyword coverage,
    plus 15 for each word of the role longer than three characters that the
    title holds, plus 10 when there is a description and a keyword matched,
    capped at 100; texts compared in lower case. *)
Definition claimed_score (cv_keywords : list str) (search_title : str) (j : job) : Q :=
  let job_text :=
    lower (title j) ++ py " " ++ lower (company j) ++ py " " ++ lower (description j) in
  let found := filter (λ kw, contains kw job_text = true) (map lower cv_keywords) in
  let coverage : Q :=
    match cv_keywords with
    | [] => 0
    | _ => inject_Z (Z.of_nat (length found))
           / inject_Z (Z.of_nat (length cv_keywords)) * 100
    end%Q in
  let role_words :=
    filter (λ w, contains w (lower (title j)) && (3 <? length w) = true)
      (split (lower search_title)) in
  let desc_bonus : Q :=
    if nonempty (description j) && negb (bool_decide (found = [])) then 10%Q else 0%Q in
  Qmin 100 (coverage + 15 * inject_Z (Z.of_nat (length role_words)) + desc_bonus)%Q.

(** ** Sample pages *)
Module Samples.
Import Dom.

(** A LinkedIn card with a title, a company and a relative link. *)
Definition card_python : node :=
  Tag (py "div") [(py "class", py "base-card")]
    [ leaf (py "h3") (py "base-search-card__title") (py "  Python Developer ");
      leaf (py "h4") (py "base-search-card__subtitle") (py "Acme");
      Tag (py "a") [(py "href", py "/jobs/view/1")] [Text (py "view")] ].

(** A LinkedIn card whose title and company are masked. *)
Definition card_masked : node :=
  Tag (py "div") [(py "class", py "base-card")]
    [ leaf (py "h3") (py "base-search-card__title") (py "S***** E*******");
      leaf (py "h4") (py "base-search-card__subtitle") (py "A***") ].

(** A card with a company and a location, and no title or link. *)
Definition card_untitled : node :=
  Tag (py "div") [(py "class", py "list-items")]
    [ leaf (py "span") (py "company-name") (py "Acme");
      leaf (py "span") (py "location") (py "Ankara") ].

(** A Kariyer card with a masked title and an absolute link. *)
Definition card_kariyer_masked : node :=
  Tag (py "div") [(py "class", py "list-items")]
    [ Tag (py "a") [(py "class", py "job-title"); (py "href", py "https://www.kariyer.net/is-ilani/1")]
        [Text (py "Y***** M*******")];
      leaf (py "span") (py "company-name") (py "Acme");
      leaf (py "span") (py "location") (py "Izmir") ].

(** A card whose link is an e-mail address. *)
Definition card_mailto : node :=
  Tag (py "div") [(py "class", py "base-card")]
    [ leaf (py "h3") (py "base-search-card__title") (py "Data Engineer");
      Tag (py "a") [(py "href", py "mailto:jobs@acme.example")] [Text (py "apply")] ].

Definition page (cards : list node) : node :=
  Tag (py "html") [] [Tag (py "body") [] cards].
End Samples.

(** ** Further definitions *)

(** [" ".join(words)] *)
Fixpoint unwords (words : list str) : str :=
  match words with
  | [] => []
  | [w] => w
  | w :: rest => w ++ " "%char :: unwords rest
  end.

(** What the page loop of the LinkedIn scraper accepts: a title of at least three characters and at
    most ten blanks, a company without asterisk, a link that is ["#"] or
    starts with [http], and no description yet. *)
Definition linkedin_accepted (j : job) : Prop :=
  3 ≤ length (title j) ∧ count_char " " (title j) ≤ 10
  ∧ has_char "*" (company j) = false
  ∧ (link j = py "#" ∨ startswith (py "http") (link j) = true)
  ∧ description j = [].


(** ** Sorting

    [sorted(l, key=..., reverse=True)] and [l.sort(key=..., reverse=True)]:
    the elements in the order of decreasing key, elements of equal key in
    their original order.  [ltb x y] tells that the key of [x] is below the key
    of [y]. *)
Fixpoint insert_desc {A} (ltb : A → A → bool) (x : A) (l : list A) : list A :=
  match l with
  | [] => [x]
  | y :: l' => if ltb x y then y :: insert_desc ltb x l' else x :: y :: l'
  end.

Definition sorted_desc {A} (ltb : A → A → bool) (l : list A) : list A :=
  foldr (insert_desc ltb) [] l.

(** ** main.py: keywords and job titles of a CV *)
Module MainPy.

Definition tech_keywords : list str :=
  map py
    [ "python"; "javascript"; "react"; "node"; "java"; "c++"; "c#";
      "sql"; "mongodb"; "postgresql"; "mysql"; "redis";
      "aws"; "azure"; "gcp"; "docker"; "kubernetes";
      "machine learning"; "data science"; "deep learning"; "ai";
      "frontend"; "backend"; "fullstack"; "full-stack"; "devops";
      "agile"; "scrum"; "git"; "ci/cd"; "rest api"; "graphql";
      "typescript"; "vue"; "angular"; "django"; "flask"; "fastapi";
      "html"; "css"; "tailwind"; "bootstrap"; "sass";
      "tensorflow"; "pytorch"; "pandas"; "numpy"; "scikit-learn";
      "selenium"; "playwright"; "cypress"; "testing";
      "project manager"; "product manager"; "data analyst"; "data engineer";
      "software engineer"; "developer"; "architect"; "designer" ]%string.

(** [extract_keywords] *)
Definition extract_keywords (text : str) : list str :=
  let text_lower := lower text in
  let found_keywords := filter (λ keyword, contains keyword text_lower = true) tech_keywords in
  take 15 found_keywords.

(** The regular expressions of [guess_job_titles] are sequences of literals,
    [\s+], an optional character out of a set ([[- ]?], [-?]) and a group
    of alternative literals. *)
Inductive atom :=
| Lit (s : str)
| Spaces1
| OptChar (cs : list ascii)
| AltLit (alts : list str).

Definition pattern := list atom.

(** The pattern matches a prefix of [s]. *)
Fixpoint matches_at (p : pattern) (s : str) : bool :=
  match p with
  | [] => true
  | Lit l :: p' => startswith l s && matches_at p' (drop (length l) s)
  | Spaces1 :: p' => existsb (λ k, matches_at p' (drop k s)) (seq 1 (ws_run s))
  | OptChar cs :: p' =>
      match s with
      | c :: r => existsb (ascii_eqb c) cs && matches_at p' r
      | [] => false
      end || matches_at p' s
  | AltLit alts :: p' =>
      existsb (λ l, startswith l s && matches_at p' (drop (length l) s)) alts
  end.

(** [re.search(pattern, s)] as a truth value: the pattern matches somewhere. *)
Fixpoint re_search (p : pattern) (s : str) : bool :=
  matches_at p s ||
  match s with
  | [] => false
  | _ :: r => re_search p r
  end.

(** [word1\s+word2] *)
Definition two_words (a b : string) : pattern := [Lit (py a); Spaces1; Lit (py b)].

(** [job_criteria], in the order of the dictionary: the title, its keywords
    and its patterns. *)
Definition job_criteria : list (str * (list str * list pattern)) :=
  [ (py "Growth Engineer",
     (map py ["growth"; "seo"; "meta ads"; "google ads"; "analytics"; "a/b test"; "cro"]%string,
      [ [Lit (py "growth"); Spaces1;
         AltLit (map py ["engineer"; "hacking"; "marketing"]%string)];
        two_words "dijital" "pazarlama" ]));
    (py "Full Stack Developer",
     (map py ["fullstack"; "full-stack"; "react"; "python"; "javascript"; "flask";
              "django"; "html"; "css"]%string,
      [ [Lit (py "full"); OptChar ["-"; " "]%char; Lit (py "stack")] ]));
    (py "Backend Developer",
     (map py ["python"; "flask"; "django"; "fastapi"; "sql"; "postgresql"; "api";
              "backend"]%string,
      [ two_words "backend" "developer" ]));
    (py "Frontend Developer",
     (map py ["react"; "javascript"; "html"; "css"; "vue"; "angular"; "frontend";
              "typescript"]%string,
      [ two_words "frontend" "developer" ]));
    (py "Automation Engineer",
     (map py ["selenium"; "automation"; "playwright"; "testing"; "bot"; "scraping";
              "api"]%string,
      [ [Lit (py "otomasyon")]; [Lit (py "automation")] ]));
    (py "Data Analyst",
     (map py ["data"; "analytics"; "pandas"; "excel"; "sql"; "visualization";
              "reporting"; "veri"]%string,
      [ two_words "data" "analyst"; two_words "veri" "analiz" ]));
    (py "Data Engineer",
     (map py ["data"; "pipeline"; "etl"; "sql"; "python"; "spark"; "airflow"]%string,
      [ two_words "data" "engineer" ]));
    (py "Python Developer",
     (map py ["python"; "django"; "flask"; "fastapi"; "pandas"]%string,
      [ two_words "python" "developer" ]));
    (py "Software Engineer",
     (map py ["software"; "engineer"; "developer"; "programming"; "coding"]%string,
      [ two_words "software" "engineer"; [Lit (py "yazılım")] ]));
    (py "DevOps Engineer",
     (map py ["docker"; "kubernetes"; "aws"; "azure"; "ci/cd"; "devops"; "jenkins"]%string,
      [ [Lit (py "devops")] ]));
    (py "Machine Learning Engineer",
     (map py ["machine learning"; "deep learning"; "tensorflow"; "pytorch"; "ai";
              "ml"]%string,
      [ two_words "machine" "learning"; two_words "yapay" "zeka" ]));
    (py "Product Manager",
     (map py ["product"; "roadmap"; "agile"; "scrum"; "stakeholder"]%string,
      [ two_words "product" "manager"; two_words "ürün" "yönetici" ]));
    (py "Digital Marketing Specialist",
     (map py ["marketing"; "seo"; "sem"; "google ads"; "meta ads"; "social media";
              "content"]%string,
      [ two_words "dijital" "pazarlama"; two_words "digital" "marketing" ]));
    (py "E-commerce Specialist",
     (map py ["e-commerce"; "ticimax"; "shopify"; "woocommerce"; "erp"]%string,
      [ [Lit (py "e"); OptChar ["-"]%char; Lit (py "ticaret")];
        [Lit (py "e"); OptChar ["-"]%char; Lit (py "commerce")] ])) ].

(** The score of one entry of [job_criteria]: 10 for each of its keywords
    found in the joined keywords or in the text, 25 for each of its patterns
    found in the text. *)
Definition criteria_score (keywords_text text_lower : str)
    (criteria : list str * list pattern) : nat :=
  list_sum (map (λ keyword,
                   if contains keyword keywords_text || contains keyword text_lower
                   then 10 else 0) criteria.1)
  + list_sum (map (λ p, if re_search p text_lower then 25 else 0) criteria.2).

(** [job_scores.items()]: the titles with a positive score, in the order of
    [job_criteria]. *)
Definition job_scores (keywords : list str) (text : str) : list (str * nat) :=
  let text_lower := lower text in
  let keywords_text := unwords (map lower keywords) in
  filter (λ e, 0 < e.2)
    (map (λ c, (c.1, criteria_score keywords_text text_lower c.2)) job_criteria).

(** The loop over the default titles, with its [break]. *)
Fixpoint add_defaults (defaults : list str) (top_jobs : list str) : list str :=
  match defaults with
  | [] => top_jobs
  | default :: rest =>
      let top_jobs :=
        if bool_decide (default ∈ top_jobs) then top_jobs else top_jobs ++ [default] in
      if 2 <=? length top_jobs then top_jobs else add_defaults rest top_jobs
  end.

(** [guess_job_titles] *)
Definition guess_job_titles (keywords : list str) (text : str) : list str :=
  let sorted_jobs := sorted_desc (λ x y, x.2 <? y.2) (job_scores keywords text) in
  let top_jobs := map fst (take 4 sorted_jobs) in
  if length top_jobs <? 2
  then add_defaults [py "Software Developer"; py "Full Stack Developer"] top_jobs
  else top_jobs.

(** [guess_job_title] *)
Definition guess_job_title (keywords : list str) (text : str) : str :=
  match guess_job_titles keywords text with
  | first :: _ => first
  | [] => py "Software Developer"
  end.

(** The score [guess_job_titles] gives a title: that of its entry in
    [job_criteria], and 0 for a title without entry. *)
Definition title_score (keywords : list str) (text : str) (t : str) : nat :=
  match list_find (λ c, c.1 = t) job_criteria with
  | Some (_, c) => criteria_score (unwords (map lower keywords)) (lower text) c.2
  | None => 0
  end.
End MainPy.

(** ** Exceptions the scrapers do not expect

    [session.get], [raise_for_status], [BeautifulSoup] and [find_all] run
    inside a [try].  A session of [Http] raises [requests.RequestException]
    only.  [page_error log url] is the text of an exception of another class
    raised while the page at [url] is requested and parsed after the requests
    of [log], if there is one. *)
Class PageErrors := page_error : list str → str → option str.

(** The session as a handler for [Exception] sees it: an exception of
    another class is a request that failed. *)
Definition caught {elem : Type} {session : Http elem} {errors : PageErrors} : Http elem :=
  λ log url,
    match page_error log url with
    | Some _ => RequestException
    | None => http_get log url
    end.

(** [LinkedInBot.search_jobs] with these exceptions.  The handler of the page
    loop names [requests.RequestException]: an exception of another class
    leaves the loop and the function.  The handler of
    [_fetch_job_description] names [Exception]. *)
Module LinkedInBotRaising.
Section bot.
Context {elem : Type} {parser : Soup elem} {session : Http elem} {urllib : UrlQuote}
        {errors : PageErrors}.

(** [for page_start in page_starts], with its [break]. *)
Fixpoint pages_loop (role : str) (max_jobs : Z) (encoded_role encoded_location : str)
    (pages : list nat) (jobs : list job) : io (outcome (list job)) :=
  match pages with
  | [] => mret (Returned jobs)
  | page_start :: rest =>
      if budget_reached max_jobs jobs then mret (Returned jobs)
      else
        λ log,
          let url := LinkedInBot.search_url encoded_role encoded_location page_start in
          match page_error log url with
          | Some msg => (Raised (OtherError msg), log ++ [url])
          | None =>
              match http_get log url with
              | RequestException =>
                  pages_loop role max_jobs encoded_role encoded_location rest jobs
                    (log ++ [url])
              | Response status_code soup =>
                  if LinkedInBot.raises_for_status status_code
                  then pages_loop role max_jobs encoded_role encoded_location rest jobs
                         (log ++ [url])
                  else
                    pages_loop role max_jobs encoded_role encoded_location rest
                      (LinkedInBot.cards_loop role max_jobs
                         (LinkedInBot.find_job_cards soup) jobs)
                      (log ++ [url])
              end
          end
  end.

(** [LinkedInBot.search_jobs] *)
Definition search_jobs (role location : str) (max_jobs : Z)
  : io (outcome (list job)) :=
  λ log,
    match pages_loop role max_jobs (quote role) (quote location)
            LinkedInBot.page_starts [] log with
    | (Raised e, log) => (Raised e, log)
    | (Returned jobs, log) =>
        let '(jobs, log) := LinkedInBot.descriptions_loop (session := caught) jobs log in
        (Returned jobs, log)
    end.
End bot.
End LinkedInBotRaising.

(** ** main.py: the endpoints *)

(** [s.endswith(suffix)] *)
Definition endswith (suffix s : str) : bool := startswith (rev suffix) (rev s).

(** What reading the pages of [PyPDF2.PdfReader(BytesIO(file_content))]
    gives: the value of [extract_text()] for each page ([None] when it
    returns [None]), or, on the right, the text of the exception the reader
    or a page raises. *)
Class PdfReader := pdf_pages : list Byte.byte → list (option str) + str.

(** [open(os.path.join(UPLOADS_DIR, filename), "wb")]: the text of the
    exception it raises for a file name, after the writes made so far, if it
    raises: a name with a directory part that does not exist, for one. *)
Class UploadsDir := open_error : list (str * list Byte.byte) → str → option str.

Module MainApi.

(** How an endpoint ends: with a response, or with an [HTTPException]. *)
Inductive http_result (A : Type) :=
| Ok (a : A)
| HTTPException (status_code : nat) (detail : str).
Arguments Ok {A} a.
Arguments HTTPException {A} status_code detail.

(** The dictionary [cv_data]. *)
Record cv_data := CvData {
  cv_text : str;
  cv_keywords : list str;
  cv_job_title : str;
  cv_job_titles : list str;
  cv_location : str;
}.

(** [cv_data] when the module is loaded. *)
Definition no_cv : cv_data := CvData [] [] [] [] (py "Istanbul").

Record CVResponse := {
  cv_success : bool;
  job_title : str;
  job_titles : list str;
  location : str;
  keywords : list str;
  cv_message : str;
}.

Record JobResponse := {
  r_title : str;
  r_company : str;
  r_link : str;
  r_image_url : option str;
  match_score : Q;
  r_description : option str;
}.

Record SearchResponse := {
  success : bool;
  jobs : list JobResponse;
  message : str;
}.

(** The state the endpoints work on: [cv_data], the requests made so far,
    the list stored in [jobs.json] if the file exists ([json.load] gives back
    what [json.dump] was given, and writing [jobs.json] succeeds), and the
    writes to the uploads directory, each with the name of the file, oldest
    first. *)
Record world := World {
  cv : cv_data;
  requests : list str;
  jobs_file : option (list JobResponse);
  uploads : list (str * list Byte.byte);
}.

(** [job_text] in the loop over [raw_jobs]. *)
Definition job_text (j : job) : str :=
  lower (title j) ++ py " " ++ lower (company j) ++ py " " ++ lower (description j).

Section api.
Context {elem : Type} {parser : Soup elem} {session : Http elem} {urllib : UrlQuote}
        {errors : PageErrors} {pypdf : PdfReader} {disk : UploadsDir}.

(** [extract_text_from_pdf] *)
Definition extract_text_from_pdf (file_content : list Byte.byte) : http_result str :=
  match pdf_pages file_content with
  | inl pages => Ok (strip (concat (map (default []) pages)))
  | inr e => HTTPException 400 (py "Failed to parse PDF: " ++ e)
  end.

(** [upload_cv].  No handler of the endpoint catches what [open] raises:
    the call ends with that exception, [Raised], and the server answers with
    status 500. *)
Definition upload_cv (filename : str) (content : list Byte.byte) (w : world)
  : outcome (http_result CVResponse) * world :=
  if negb (endswith (py ".pdf") (lower filename))
  then (Returned (HTTPException 400 (py "Only PDF files are accepted")), w)
  else
    match open_error (uploads w) filename with
    | Some msg => (Raised (OtherError msg), w)
    | None =>
        let w :=
          World (cv w) (requests w) (jobs_file w) (uploads w ++ [(filename, content)]) in
        match extract_text_from_pdf content with
        | HTTPException status_code detail =>
            (Returned (HTTPException status_code detail), w)
        | Ok text =>
            if negb (nonempty text)
            then (Returned (HTTPException 400 (py "Could not extract text from PDF")), w)
            else
              let keywords := MainPy.extract_keywords text in
              let job_titles := MainPy.guess_job_titles keywords text in
              let job_title :=
                match job_titles with
                | first :: _ => first
                | [] => py "Software Developer"
                end in
              let cv_data := CvData text keywords job_title job_titles (py "Istanbul") in
              (Returned
                 (Ok {| cv_success := true; job_title := job_title;
                        job_titles := job_titles;
                        location := py "Istanbul"; keywords := keywords;
                        cv_message := py "Successfully extracted "
                                      ++ str_of_nat (length keywords)
                                      ++ py " keywords from your CV" |}),
               World cv_data (requests w) (jobs_file w) (uploads w))
        end
    end.

(** The [JobResponse] built for a scraped job. *)
Definition job_response (cv_keywords : list str) (search_title : str) (j : job)
  : JobResponse :=
  {| r_title := title j; r_company := company j; r_link := link j;
     r_image_url := image_url j;
     match_score := Main.match_score cv_keywords search_title j;
     r_description := Some (description j) |}.

(** [str(e)] *)
Definition exn_str (e : exn) : str :=
  match e with
  | InputError => []
  | OtherError msg => msg
  end.

(** The scraper the search endpoint runs for [platform]: Kariyer.net for
    ["kariyer"], LinkedIn for anything else, both with [max_jobs=200].  The
    handler of the page loop of Kariyer.net names [Exception]. *)
Definition run_bot (platform : option str) (search_title search_location : str)
  : io (outcome (list job)) :=
  if bool_decide (platform = Some (py "kariyer"))
  then KariyerNetBot.search_jobs (session := caught) search_title search_location 200
  else LinkedInBotRaising.search_jobs search_title search_location 200.

(** [x or y] for an optional and a plain string. *)
Definition or_else (x : option str) (y : str) : str :=
  match x with
  | Some (c :: s) => c :: s
  | _ => y
  end.

(** [search_jobs], the endpoint.  An exception raised between [try] and
    [except] becomes an [HTTPException] with status 500. *)
Definition search_jobs (job_title location platform : option str) (w : world)
  : http_result SearchResponse * world :=
  let search_title := or_else job_title (cv_job_title (cv w)) in
  let search_location := or_else location (cv_location (cv w)) in
  if negb (nonempty (cv_text (cv w)))
  then (HTTPException 400 (py "Please upload a CV first before searching for jobs"), w)
  else
    let '(raw, log) := run_bot platform search_title search_location (requests w) in
    let w := World (cv w) log (jobs_file w) (uploads w) in
    match raw with
    | Raised e => (HTTPException 500 (py "Bot error: " ++ exn_str e), w)
    | Returned [] =>
        (Ok {| success := true; jobs := [];
               message := py "No jobs found. Try different keywords." |}, w)
    | Returned raw_jobs =>
        let matched_jobs :=
          map (job_response (cv_keywords (cv w)) search_title) raw_jobs in
        let matched_jobs :=
          sorted_desc (λ x y, negb (Qle_bool (match_score y) (match_score x)))
            matched_jobs in
        (Ok {| success := true; jobs := matched_jobs;
               message := py "Found " ++ str_of_nat (length matched_jobs)
                          ++ py " jobs matching your profile" |},
         World (cv w) log (Some matched_jobs) (uploads w))
    end.

(** [get_cached_jobs] *)
Definition get_cached_jobs (w : world) : SearchResponse :=
  let jobs := default [] (jobs_file w) in
  {| success := true; jobs := jobs;
     message := py "Loaded " ++ str_of_nat (length jobs) ++ py " cached jobs" |}.
End api.
End MainApi.

(** ** A CV, a reader and two environments to run the endpoints on *)
Module SampleApi.

Definition cv_python : MainApi.cv_data :=
  MainApi.CvData (py "python developer") [py "python"; py "developer"]
    (py "Python Developer") [py "Python Developer"; py "Backend Developer"]
    (py "Istanbul").

Definition world_python : MainApi.world := MainApi.World cv_python [] None [].

Definition world_empty : MainApi.world := MainApi.World MainApi.no_cv [] None [].

(** A reader that finds one page of text in every file. *)
Definition one_page : PdfReader :=
  λ _, inl [Some (py "  Python and Django developer, Docker and SQL  ")].

Definition two_cards : Dom.node := Samples.page [Samples.card_mailto; Samples.card_python].

(** No exception of another class. *)
Definition no_errors : PageErrors := λ _ _, None.

(** The first request of a run raises a [ValueError]; the later ones do
    not. *)
Definition first_page_error : PageErrors :=
  λ log _, match log with [] => Some (py "invalid literal") | _ => None end.

(** An uploads directory without subdirectory: a name with a slash cannot
    be opened. *)
Definition flat_dir : UploadsDir :=
  λ _ filename,
    if has_char "/"%char filename then Some (py "No such file or directory") else None.
End SampleApi.

(** * Properties *)

(** ** Rounding *)

Lemma round_half_even_near (x : Q) :
  (inject_Z (round_half_even x) - (1 # 2) <= x
   ∧ x <= inject_Z (round_half_even x) + (1 # 2))%Q.
Proof.
  unfold round_half_even.
  pose proof (Qfloor_le x) as Hlo.
  pose proof (Qlt_floor x) as Hhi.
  rewrite inject_Z_plus in Hhi.
  change (inject_Z 1) with 1%Q in Hhi.
  destruct (Qcompare_spec (x - inject_Z (Qfloor x)) (1 # 2)) as [He|Hl|Hg].
  - destruct (Z.even (Qfloor x)).
    + split; lra.
    + rewrite inject_Z_plus. change (inject_Z 1) with 1%Q. split; lra.
  - split; lra.
  - rewrite inject_Z_plus. change (inject_Z 1) with 1%Q. split; lra.
Qed.

Lemma round_half_even_comp (x y : Q) :
  (x == y)%Q → round_half_even x = round_half_even y.
Proof.
  intros Hxy. unfold round_half_even.
  rewrite (Qfloor_comp _ _ Hxy).
  assert (Hc : ((x - inject_Z (Qfloor y)) ?= (1 # 2))%Q
               = ((y - inject_Z (Qfloor y)) ?= (1 # 2))%Q).
  { apply Qcompare_comp; [rewrite Hxy|]; reflexivity. }
  rewrite Hc. reflexivity.
Qed.

Lemma round_half_even_mono (x y : Q) :
  (x <= y)%Q → (round_half_even x <= round_half_even y)%Z.
Proof.
  intros Hxy.
  destruct (Z_le_gt_dec (round_half_even x) (round_half_even y)) as [|Hgt]; [done|].
  exfalso.
  destruct (round_half_even_near x) as [Hx _].
  destruct (round_half_even_near y) as [_ Hy].
  assert (Hz : (inject_Z (round_half_even y) + 1 <= inject_Z (round_half_even x))%Q).
  { change 1%Q with (inject_Z 1). rewrite <- inject_Z_plus.
    rewrite <- Zle_Qle. lia. }
  assert (Heq : (x == y)%Q) by lra.
  apply round_half_even_comp in Heq. lia.
Qed.

Lemma round_half_even_inject (n : Z) : round_half_even (inject_Z n) = n.
Proof.
  unfold round_half_even. rewrite Qfloor_Z.
  assert (H : ((inject_Z n - inject_Z n) ?= (1 # 2))%Q = Lt).
  { rewrite <- Qlt_alt. lra. }
  rewrite H. reflexivity.
Qed.

Lemma round1_mono (x y : Q) : (x <= y)%Q → (round1 x <= round1 y)%Q.
Proof.
  intros Hxy. unfold round1.
  assert (H : (round_half_even (x * 10) <= round_half_even (y * 10))%Z).
  { apply round_half_even_mono. lra. }
  rewrite Zle_Qle in H. 
  apply Qmult_le_compat_r; [exact H|]. vm_compute. discriminate.
Qed.

Lemma round1_0 : (round1 0 == 0)%Q.
Proof. vm_compute. reflexivity. Qed.

Lemma round1_100 : (round1 100 == 100)%Q.
Proof. vm_compute. reflexivity. Qed.

Lemma round1_bounds (x : Q) :
  (0 <= x <= 100)%Q → (0 <= round1 x <= 100)%Q.
Proof.
  intros [H0 H100]. split.
  - rewrite <- round1_0. by apply round1_mono.
  - rewrite <- round1_100. by apply round1_mono.
Qed.

(** ** The scores of matcher.py are percentages *)

Lemma preprocess_empty : _preprocess_text [] = [].
Proof. reflexivity. Qed.

Lemma calculate_match_score_bounds {vectorizer : Tfidf} (a b : str) :
  (0 <= calculate_match_score a b <= 100)%Q.
Proof.
  unfold calculate_match_score.
  destruct (negb _ || negb _); [lra|].
  destruct (tfidf_cosine _ _) as [sim|]; [|lra].
  split.
  - apply Q.le_max_l.
  - apply Q.max_lub; [lra|]. apply Q.le_min_l.
Qed.

Lemma overlap_ratio_nonneg (o n : nat) :
  (0 <= inject_Z (Z.of_nat o) / inject_Z (Z.of_nat n) * 100)%Q.
Proof.
  apply Qmult_le_0_compat; [|lra].
  unfold Qdiv. apply Qmult_le_0_compat.
  - change 0%Q with (inject_Z 0). rewrite <- Zle_Qle. lia.
  - apply Qinv_le_0_compat. change 0%Q with (inject_Z 0). rewrite <- Zle_Qle. lia.
Qed.

Lemma calculate_keyword_overlap_bounds (a b : str) :
  (0 <= calculate_keyword_overlap a b <= 100)%Q.
Proof.
  unfold calculate_keyword_overlap.
  destruct (negb _ || negb _); [lra|].
  destruct (decide _); [lra|].
  apply round1_bounds. split.
  - apply Q.min_glb; [lra|]. apply overlap_ratio_nonneg.
  - apply Q.le_min_l.
Qed.

Lemma get_combined_score_bounds {vectorizer : Tfidf} (a b : str) :
  (0 <= get_combined_score a b <= 100)%Q.
Proof.
  unfold get_combined_score.
  pose proof (calculate_match_score_bounds a b).
  pose proof (calculate_keyword_overlap_bounds a b).
  apply round1_bounds. lra.
Qed.

Lemma empty_side_scores {vectorizer : Tfidf} (a b : str) :
  _preprocess_text a = [] ∨ _preprocess_text b = [] →
  calculate_match_score a b = 0%Q ∧ calculate_keyword_overlap a b = 0%Q.
Proof.
  intros Hab. unfold calculate_match_score, calculate_keyword_overlap.
  destruct Hab as [-> | ->]; simpl.
  - done.
  - by rewrite orb_true_r.
Qed.

(** C1. For all texts [a] and [b] the TF-IDF score, the keyword-overlap score
    and the combined score lie between 0 and 100; the empty text normalizes
    to the empty text; and when either text normalizes to the empty text the
    three scores are 0. *)
Theorem scores_are_percentages {vectorizer : Tfidf} (a b : str) :
  ((0 <= calculate_match_score a b <= 100)
   ∧ (0 <= calculate_keyword_overlap a b <= 100)
   ∧ (0 <= get_combined_score a b <= 100))%Q
  ∧ _preprocess_text [] = []
  ∧ (_preprocess_text a = [] ∨ _preprocess_text b = [] →
     (calculate_match_score a b == 0
      ∧ calculate_keyword_overlap a b == 0
      ∧ get_combined_score a b == 0)%Q).
Proof.
  split; [|split].
  - auto using calculate_match_score_bounds, calculate_keyword_overlap_bounds,
      get_combined_score_bounds.
  - reflexivity.
  - intros Hab. destruct (empty_side_scores a b Hab) as [Hm Hk].
    unfold get_combined_score. rewrite Hm, Hk.
    repeat split; vm_compute; reflexivity.
Qed.

(** C1 at a profile of punctuation only, which normalizes to the empty text,
    with a vectorizer that finds every pair of documents identical. *)
Lemma scores_are_percentages_witness :
  let vectorizer : Tfidf := λ _ _, Some 1%Q in
  (calculate_match_score (py " ?!... ") (py "Python Developer") == 0
   ∧ calculate_keyword_overlap (py " ?!... ") (py "Python Developer") == 0
   ∧ get_combined_score (py " ?!... ") (py "Python Developer") == 0)%Q.
Proof.
  intros vectorizer.
  apply (proj2 (proj2 (scores_are_percentages (py " ?!... ") (py "Python Developer")))).
  left. reflexivity.
Defined.

(** ** The scoring engine on the texts of the specification *)

Example preprocess_text_example :
  _preprocess_text (py "  Visit http://x.y/z or mail Me@Corp.com: C++ & Python3!  ")
  = py "visit or mail c python3".
Proof. vm_compute. reflexivity. Qed.

Example keyword_overlap_python :
  (calculate_keyword_overlap
     (py "Senior Python Developer with Docker and FastAPI experience")
     (py "Python Developer Docker FastAPI microservices") == 80)%Q.
Proof. vm_compute. reflexivity. Qed.

Example keyword_overlap_java :
  (calculate_keyword_overlap
     (py "Senior Python Developer with Docker and FastAPI experience")
     (py "Java Spring Boot Oracle enterprise") == 0)%Q.
Proof. vm_compute. reflexivity. Qed.

(** ** Characters *)

Ltac by_cases_on_char c :=
  destruct c as [[] [] [] [] [] [] [] []]; vm_compute; try tauto; try congruence; auto.

Lemma is_space_lower_char c : is_space (lower_char c) = is_space c.
Proof. by_cases_on_char c. Qed.

Lemma is_upper_lower_char c : is_upper (lower_char c) = false.
Proof. by_cases_on_char c. Qed.

Lemma lower_char_word_char c : is_word_char c = true → lower_char c = c.
Proof. by_cases_on_char c. Qed.

Lemma word_char_not_space c : is_word_char c = true → is_space c = false.
Proof. by_cases_on_char c. Qed.

Lemma word_char_alnum c : is_word_char c = true → is_alnum c = true.
Proof. by_cases_on_char c. Qed.

Lemma word_char_not_at c : is_word_char c = true → ascii_eqb "@" c = false.
Proof. by_cases_on_char c. Qed.

Lemma alnum_not_upper_word_char c :
  is_alnum c = true → is_upper c = false → is_word_char c = true.
Proof. by_cases_on_char c. Qed.

Lemma ascii_eqb_eq a b : ascii_eqb a b = true ↔ a = b.
Proof. apply Ascii.eqb_eq. Qed.

(** ** Runs and words *)

Lemma run_app_space x c y : is_space c = true → run (x ++ c :: y) = run x.
Proof.
  intros Hc. induction x as [|a x IH]; simpl.
  - by rewrite Hc.
  - destruct (is_space a); [done|]. by rewrite IH.
Qed.

Lemma run_no_space s : Forall (λ c, is_space c = false) (run s).
Proof.
  induction s as [|c s IH]; simpl; [constructor|].
  destruct (is_space c) eqn:Hc; [constructor|]. by constructor.
Qed.

Lemma run_id s : Forall (λ c, is_space c = false) s → run s = s.
Proof.
  induction 1 as [|c s Hc _ IH]; simpl; [done|]. by rewrite Hc, IH.
Qed.

Lemma run_prefix s : run s `prefix_of` s.
Proof.
  induction s as [|c s IH]; simpl; [done|].
  destruct (is_space c); [apply prefix_nil|]. by apply prefix_cons.
Qed.

Lemma run_idem s : run (run s) = run s.
Proof. apply run_id, run_no_space. Qed.

Lemma run_mono_prefix (w' w : str) : w' `prefix_of` w → run w' `prefix_of` run w.
Proof.
  intros [k ->]. induction w' as [|c w' IH]; simpl; [apply prefix_nil|].
  destruct (is_space c); [done|]. by apply prefix_cons.
Qed.

Lemma run_drop_length s :
  run (drop (length (run s)) s) = [].
Proof.
  induction s as [|c s IH]; simpl; [done|].
  destruct (is_space c) eqn:Hc; simpl; [by rewrite Hc|done].
Qed.

Lemma run_app_no_space (u post : str) :
  Forall (λ c, is_space c = false) u → run (u ++ post) = u ++ run post.
Proof.
  induction 1 as [|c u Hc _ IH]; simpl; [done|]. by rewrite Hc, IH.
Qed.

(** [split] *)

Lemma split_go_app_space w x c y :
  is_space c = true →
  split_go w (x ++ c :: y) = split_go w x ++ split_go [] y.
Proof.
  intros Hc. revert w. induction x as [|a x IH]; intros w; simpl.
  - rewrite Hc. by destruct w.
  - destruct (is_space a).
    + destruct w; simpl; by rewrite IH.
    + apply IH.
Qed.

Lemma split_go_spaces ws y :
  Forall (λ c, is_space c = true) ws → split_go [] (ws ++ y) = split_go [] y.
Proof.
  induction 1 as [|c ws Hc _ IH]; simpl; [done|]. by rewrite Hc.
Qed.

Lemma split_app_spaces x ws y :
  ws ≠ [] → Forall (λ c, is_space c = true) ws →
  split (x ++ ws ++ y) = split x ++ split y.
Proof.
  intros Hne Hws. destruct Hws as [|c ws Hc Hws]; [done|].
  unfold split. simpl. rewrite split_go_app_space by done.
  by rewrite split_go_spaces.
Qed.

Lemma split_go_no_space w s :
  Forall (λ c, is_space c = false) s → w ++ s ≠ [] → split_go w s = [w ++ s].
Proof.
  intros Hs. revert w. induction Hs as [|c s Hc _ IH]; intros w Hne; simpl.
  - rewrite app_nil_r in *. by destruct w.
  - rewrite Hc. rewrite IH; rewrite <- app_assoc; simpl; done.
Qed.

Lemma split_word t :
  t ≠ [] → Forall (λ c, is_space c = false) t → split t = [t].
Proof. intros Hne Ht. unfold split. by rewrite split_go_no_space. Qed.

(** A word of [split_go w s] is a run of [w ++ s] that a space or the end
    follows. *)
Lemma split_go_elem w s t :
  Forall (λ c, is_space c = false) w →
  t ∈ split_go w s →
  t ≠ [] ∧ ∃ pre post, w ++ s = pre ++ t ++ post ∧ run (t ++ post) = t.
Proof.
  revert w. induction s as [|c s IH]; intros w Hw Ht; simpl in Ht.
  - destruct w as [|a w]; [by apply elem_of_nil in Ht|].
    apply list_elem_of_singleton in Ht as ->. split; [done|].
    exists [], []. rewrite !app_nil_r. split; [done|]. by apply run_id.
  - destruct (is_space c) eqn:Hc.
    + assert (Hrest : t ∈ split_go [] s →
        t ≠ [] ∧ ∃ pre post, w ++ c :: s = pre ++ t ++ post ∧ run (t ++ post) = t).
      { intros Hin. destruct (IH [] ltac:(constructor) Hin) as (Hne & pre & post & Heq & Hrun).
        split; [done|]. exists (w ++ c :: pre), post. simpl in Heq.
        rewrite Heq. by rewrite <- app_assoc. }
      destruct w as [|a w]; [by apply Hrest|].
      apply elem_of_cons in Ht as [-> | Hin]; [|by apply Hrest].
      split; [done|]. exists [], (c :: s). split; [done|].
      rewrite run_app_space by done. by apply run_id.
    + destruct (IH (w ++ [c])) as (Hne & pre & post & Heq & Hrun); [|done|].
      { apply Forall_app. split; [done|]. by constructor. }
      split; [done|]. exists pre, post. rewrite <- app_assoc in Heq. done.
Qed.

Lemma split_elem s t :
  t ∈ split s →
  t ≠ [] ∧ ∃ pre post, s = pre ++ t ++ post ∧ run (t ++ post) = t.
Proof. intros Ht. by apply (split_go_elem [] s t). Qed.

Lemma split_elem_no_space s t :
  t ∈ split s → Forall (λ c, is_space c = false) t.
Proof.
  intros (_ & pre & post & _ & Hrun)%split_elem.
  rewrite <- Hrun. apply run_no_space.
Qed.

(** Stripping and collapsing white space do not change the words. *)

Lemma split_go_lstrip s : split_go [] (lstrip s) = split_go [] s.
Proof.
  induction s as [|c s IH]; simpl; [done|].
  destruct (is_space c) eqn:Hc; simpl; [done|]. by rewrite Hc.
Qed.

Lemma split_go_rstrip w s : split_go w (rstrip s) = split_go w s.
Proof.
  revert w. induction s as [|c s IH]; intros w; simpl; [done|].
  destruct (rstrip s) as [|a r] eqn:Hr.
  - destruct (is_space c) eqn:Hc; simpl.
    + rewrite <- (IH []). simpl. by destruct w.
    + rewrite Hc. by rewrite <- IH.
  - simpl. destruct (is_space c); [|by rewrite <- IH].
    destruct w; by rewrite <- IH.
Qed.

Lemma split_strip s : split (strip s) = split s.
Proof. unfold split, strip. by rewrite split_go_rstrip, split_go_lstrip. Qed.

Lemma split_go_drop_spaces k s :
  k ≤ ws_run s → split_go [] (drop k s) = split_go [] s.
Proof.
  revert k. induction s as [|c s IH]; intros k Hk; [by rewrite drop_nil|].
  destruct k as [|k]; [done|]. simpl in *.
  destruct (is_space c); [|lia]. apply IH. lia.
Qed.

Lemma ws_run_drop k s : k ≤ ws_run s → ws_run (drop k s) = ws_run s - k.
Proof.
  revert k. induction s as [|c s IH]; intros k Hk; [by rewrite drop_nil|].
  destruct k as [|k]; [simpl; lia|]. simpl in *.
  destruct (is_space c); [|lia]. apply IH. lia.
Qed.

Lemma re_sub_cons_0 m repl c r :
  re_sub m repl 0 (c :: r) =
  match m (c :: r) with
  | Some (S k) => repl ++ re_sub m repl k r
  | _ => c :: re_sub m repl 0 r
  end.
Proof. reflexivity. Qed.

Lemma re_sub_cons_S m repl k c r :
  re_sub m repl (S k) (c :: r) = re_sub m repl k r.
Proof. reflexivity. Qed.

Lemma split_go_cons_space w c r :
  is_space c = true →
  split_go w (c :: r) = match w with [] => split_go [] r | _ => w :: split_go [] r end.
Proof. intros Hc. simpl. by rewrite Hc. Qed.

Lemma split_go_cons_word w c r :
  is_space c = false → split_go w (c :: r) = split_go (w ++ [c]) r.
Proof. intros Hc. simpl. by rewrite Hc. Qed.

Lemma match_spaces_cons c s :
  match_spaces (c :: s) = if is_space c then Some (S (ws_run s)) else None.
Proof. unfold match_spaces. simpl. by destruct (is_space c). Qed.

Lemma split_go_collapse w k s :
  k ≤ ws_run s →
  split_go w (re_sub match_spaces (py " ") k s) = split_go w (drop k s).
Proof.
  revert w k. induction s as [|c s IH]; intros w k Hk; [by destruct k|].
  destruct k as [|k]; [rewrite re_sub_cons_0|rewrite re_sub_cons_S].
  - rewrite match_spaces_cons. simpl drop. destruct (is_space c) eqn:Hc.
    + change (py " " ++ ?x) with (" "%char :: x).
      rewrite !split_go_cons_space by done.
      rewrite (IH [] (ws_run s)) by done.
      by rewrite split_go_drop_spaces.
    + rewrite !split_go_cons_word by done. rewrite IH by lia. done.
  - simpl in Hk. destruct (is_space c); [|lia]. apply IH. lia.
Qed.

Lemma split_collapse s : split (re_sub match_spaces (py " ") 0 s) = split s.
Proof. unfold split. by rewrite split_go_collapse by lia. Qed.

(** ** Substitution of patterns that match within a run *)

Lemma suffix_cons_cases {A} (u : list A) y l :
  u `suffix_of` y :: l → u = y :: l ∨ u `suffix_of` l.
Proof.
  intros [[|a k] Hk]; simpl in Hk; [by left|right].
  injection Hk as -> ->. by exists k.
Qed.

Section run_matcher.
Context (m : str → option nat) `{!RunMatcher m}.

Lemma rm_nil : m [] = None.
Proof.
  destruct (m []) as [n|] eqn:Hm; [|done].
  apply rm_length in Hm. simpl in Hm. lia.
Qed.

Lemma rm_space c s : is_space c = true → m (c :: s) = None.
Proof. intros Hc. rewrite rm_local. simpl. rewrite Hc. apply rm_nil. Qed.

Lemma rm_app_space x c y : is_space c = true → m (x ++ c :: y) = m x.
Proof.
  intros Hc. rewrite rm_local, run_app_space by done. by rewrite <- rm_local.
Qed.

Lemma re_sub_drop k s : re_sub m [] k s = re_sub m [] 0 (drop k s).
Proof.
  revert k. induction s as [|c s IH]; intros [|k]; try done. apply IH.
Qed.

Lemma re_sub_spaces ws y :
  Forall (λ c, is_space c = true) ws →
  re_sub m [] 0 (ws ++ y) = ws ++ re_sub m [] 0 y.
Proof.
  induction 1 as [|c ws Hc _ IH]; [done|].
  simpl app. rewrite re_sub_cons_0, rm_space by done. by rewrite IH.
Qed.

Lemma re_sub_app_space k x c y :
  k ≤ length (run x) → is_space c = true →
  re_sub m [] k (x ++ c :: y) = re_sub m [] k x ++ c :: re_sub m [] 0 y.
Proof.
  intros Hk Hc. revert k Hk. induction x as [|a x IH]; intros k Hk.
  - simpl in Hk. assert (k = 0) as -> by lia.
    simpl app. by rewrite re_sub_cons_0, rm_space.
  - simpl in Hk. destruct k as [|k].
    + simpl app. rewrite !re_sub_cons_0.
      change (a :: x ++ c :: y) with ((a :: x) ++ c :: y).
      rewrite rm_app_space by done.
      destruct (m (a :: x)) as [[|n]|] eqn:Hm.
      * simpl. f_equal. apply IH. lia.
      * apply rm_length in Hm as [Hn _]. simpl in Hn.
        destruct (is_space a); simpl in Hn; [lia|].
        simpl. apply IH. lia.
      * simpl. f_equal. apply IH. lia.
    + simpl app. rewrite !re_sub_cons_S.
      destruct (is_space a); simpl in Hk; [lia|]. apply IH. lia.
Qed.

Lemma re_sub_app_spaces x ws y :
  ws ≠ [] → Forall (λ c, is_space c = true) ws →
  re_sub m [] 0 (x ++ ws ++ y) = re_sub m [] 0 x ++ ws ++ re_sub m [] 0 y.
Proof.
  intros Hne Hws. destruct Hws as [|c ws Hc Hws]; [done|].
  simpl app. rewrite re_sub_app_space by (done || lia).
  by rewrite re_sub_spaces.
Qed.

(** The first run of the result is a prefix of the first run of the text. *)
Lemma run_re_sub_prefix s : run (re_sub m [] 0 s) `prefix_of` run s.
Proof.
  induction s as [|c s IH]; [done|].
  rewrite re_sub_cons_0.
  destruct (m (c :: s)) as [[|n]|] eqn:Hm.
  - simpl. destruct (is_space c); [done|]. by apply prefix_cons.
  - apply rm_length in Hm as [Hn _]. simpl in Hn. simpl app.
    destruct (is_space c) eqn:Hc; simpl in Hn; [lia|].
    assert (n = length (run s)) as -> by lia.
    rewrite re_sub_drop.
    assert (E : run (re_sub m [] 0 (drop (length (run s)) s)) = []).
    { pose proof (run_drop_length s) as Hr.
      destruct (drop (length (run s)) s) as [|a r]; [done|].
      simpl in Hr. destruct (is_space a) eqn:Ha; [|done].
      rewrite re_sub_cons_0, rm_space by done. simpl. by rewrite Ha. }
    rewrite E. apply prefix_nil.
  - simpl. destruct (is_space c); [done|]. by apply prefix_cons.
Qed.

(** Every position of the result comes from a position of the text where
    the pattern does not match, and its run is a prefix of the run there. *)
Lemma re_sub_suffix_origin s k u :
  k ≤ length (run s) →
  u `suffix_of` re_sub m [] k s →
  ∃ v, v `suffix_of` s ∧ run u `prefix_of` run v ∧ m v = None.
Proof.
  revert k. induction s as [|c s IH]; intros k Hk Hu.
  - destruct k; simpl in Hu; apply suffix_nil_inv in Hu as ->;
      exists []; split_and!; try done; apply rm_nil.
  - destruct k as [|k].
    + rewrite re_sub_cons_0 in Hu.
      assert (Hemit : u `suffix_of` c :: re_sub m [] 0 s → m (c :: s) = None →
        ∃ v, v `suffix_of` c :: s ∧ run u `prefix_of` run v ∧ m v = None).
      { intros Hsuf Hm. apply suffix_cons_cases in Hsuf as [-> | Hsuf].
        - exists (c :: s). split_and!; [done| |done].
          simpl. destruct (is_space c); [done|].
          apply prefix_cons, run_re_sub_prefix.
        - destruct (IH 0 ltac:(lia) Hsuf) as (v & Hv & Hp & Hn).
          exists v. split_and!; [by apply suffix_cons_r|done|done]. }
      destruct (m (c :: s)) as [[|n]|] eqn:Hm.
      * (* a match of length 0 is not a match *)
        apply rm_length in Hm. lia.
      * apply rm_length in Hm as [Hn _]. simpl in Hn, Hu.
        destruct (is_space c); simpl in Hn; [lia|].
        destruct (IH n ltac:(lia) Hu) as (v & Hv & Hp & Hnone).
        exists v. split_and!; [by apply suffix_cons_r|done|done].
      * by apply Hemit.
    + rewrite re_sub_cons_S in Hu. simpl in Hk.
      destruct (is_space c); simpl in Hk; [lia|].
      destruct (IH k ltac:(lia) Hu) as (v & Hv & Hp & Hnone).
      exists v. split_and!; [by apply suffix_cons_r|done|done].
Qed.

(** After the substitution the pattern matches nowhere. *)
Lemma re_sub_match_free s : match_free m (re_sub m [] 0 s).
Proof.
  intros u Hu.
  destruct (re_sub_suffix_origin s 0 u ltac:(lia) Hu) as (v & _ & Hp & Hn).
  rewrite rm_local. apply (rm_prefix _ (run v)); [done|]. by rewrite <- rm_local.
Qed.

(** The substitution keeps a text free of any other such pattern. *)
Lemma re_sub_keeps_match_free (m' : str → option nat) `{!RunMatcher m'} s :
  match_free m' s → match_free m' (re_sub m [] 0 s).
Proof.
  intros Hfree u Hu.
  destruct (re_sub_suffix_origin s 0 u ltac:(lia) Hu) as (v & Hv & Hp & _).
  rewrite rm_local. apply (rm_prefix _ (run v)); [done|].
  rewrite <- rm_local. by apply Hfree.
Qed.

(** Where the pattern matches nowhere the substitution changes nothing. *)
Lemma re_sub_id s : match_free m s → re_sub m [] 0 s = s.
Proof.
  induction s as [|c s IH]; intros Hfree; [done|].
  rewrite re_sub_cons_0, (Hfree (c :: s)) by done.
  f_equal. apply IH. intros u Hu. apply Hfree. by apply suffix_cons_r.
Qed.

(** The characters of the result are characters of the text. *)
Lemma re_sub_elem k s c : c ∈ re_sub m [] k s → c ∈ s.
Proof.
  revert k. induction s as [|a s IH]; intros k Hc.
  - by destruct k.
  - destruct k as [|k].
    + rewrite re_sub_cons_0 in Hc.
      destruct (m (a :: s)) as [[|n]|].
      * apply elem_of_cons in Hc as [->|Hc]; [left|right; eauto].
      * right. eapply IH, Hc.
      * apply elem_of_cons in Hc as [->|Hc]; [left|right; eauto].
    + right. eapply IH, Hc.
Qed.
End run_matcher.

(** ** The patterns of [_preprocess_text] *)

Lemma startswith_spec lit s : startswith lit s = true ↔ ∃ s', s = lit ++ s'.
Proof.
  revert s. induction lit as [|a lit IH]; intros s; simpl.
  - split; [by exists s|done].
  - destruct s as [|b s]; [split; [done|by intros [? ?]]|].
    rewrite andb_true_iff, ascii_eqb_eq, IH. split.
    + intros [-> [s' ->]]. by exists s'.
    + intros [s' [= -> ->]]. split; [done|by exists s'].
Qed.

Lemma startswith_prefix lit w' w :
  w' `prefix_of` w → startswith lit w' = true → startswith lit w = true.
Proof.
  intros [k ->]. rewrite !startswith_spec. intros [s' ->].
  exists (s' ++ k). by rewrite app_assoc.
Qed.

Lemma prefix_nil_run (x y : str) : x `prefix_of` y → run y = [] → run x = [].
Proof.
  intros Hp Hy. apply run_mono_prefix in Hp. rewrite Hy in Hp.
  by apply prefix_nil_inv in Hp.
Qed.

Section lit_run.
Context (lit : str) (Hlit : Forall (λ c, is_space c = false) lit).

Lemma match_lit_run_Some s n :
  match_lit_run lit s = Some n ↔
  ∃ s', s = lit ++ s' ∧ run s' ≠ [] ∧ n = length lit + length (run s').
Proof.
  unfold match_lit_run. split.
  - destruct (startswith lit s) eqn:Hs; [|done].
    apply startswith_spec in Hs as [s' ->].
    rewrite drop_app_length. destruct (run s') eqn:Hr; [done|].
    intros [= <-]. exists s'. by rewrite Hr.
  - intros (s' & -> & Hr & ->).
    assert (startswith lit (lit ++ s') = true) as -> by (apply startswith_spec; eauto).
    rewrite drop_app_length. by destruct (run s').
Qed.

Lemma match_lit_run_None s :
  match_lit_run lit s = None ↔ ∀ s', s = lit ++ s' → run s' = [].
Proof.
  split.
  - intros Hn s' ->. destruct (run s') eqn:Hr; [done|].
    assert (match_lit_run lit (lit ++ s') = Some (length lit + length (run s'))) as H.
    { apply match_lit_run_Some. exists s'. by rewrite Hr. }
    congruence.
  - intros H. destruct (match_lit_run lit s) eqn:Hm; [|done].
    apply match_lit_run_Some in Hm as (s' & -> & Hr & _). by rewrite H in Hr.
Qed.

Lemma match_lit_run_matcher : RunMatcher (match_lit_run lit).
Proof using Hlit.
  split.
  - intros s. destruct (match_lit_run lit s) as [n|] eqn:Hm; symmetry.
    + apply match_lit_run_Some in Hm as (s' & -> & Hr & ->).
      apply match_lit_run_Some. exists (run s').
      rewrite run_app_no_space, run_idem by done. done.
    + apply match_lit_run_None. intros s' Hs'.
      destruct (startswith_spec lit s) as [_ Hsw].
      assert (Hp : lit ++ s' `prefix_of` s).
      { rewrite <- Hs'. apply run_prefix. }
      destruct Hp as [k ->].
      rewrite <- app_assoc in Hm, Hs'.
      rewrite run_app_no_space in Hs' by done.
      apply app_inv_head in Hs'.
      rewrite match_lit_run_None in Hm. specialize (Hm _ eq_refl).
      rewrite Hm in Hs'. by rewrite <- Hs'.
  - intros s n (s' & -> & Hr & ->)%match_lit_run_Some.
    rewrite run_app_no_space, length_app by done. split; [done|].
    destruct (run s'); simpl; [done|lia].
  - intros w' w Hp. rewrite !match_lit_run_None. intros Hw s' ->.
    destruct Hp as [k ->]. rewrite <- app_assoc in Hw.
    specialize (Hw _ eq_refl).
    apply (prefix_nil_run s' (s' ++ k)); [by exists k|done].
Qed.
End lit_run.

Global Instance match_alt_matcher m1 m2 `{!RunMatcher m1, !RunMatcher m2} :
  RunMatcher (match_alt m1 m2).
Proof.
  unfold match_alt. split.
  - intros s. by rewrite <- !rm_local.
  - intros s n. destruct (m1 s) eqn:H1.
    + intros [= <-]. by apply (rm_length (m := m1)).
    + apply rm_length.
  - intros w' w Hp. destruct (m1 w) eqn:H1; [done|]. intros H2.
    rewrite (rm_prefix (m := m1) w' w), (rm_prefix (m := m2) w' w); done.
Qed.

Lemma match_url_alt : match_url = match_alt (match_lit_run (py "http")) (match_lit_run (py "www")).
Proof. reflexivity. Qed.

Global Instance match_url_matcher : RunMatcher match_url.
Proof.
  rewrite match_url_alt.
  apply match_alt_matcher; apply match_lit_run_matcher; repeat constructor.
Qed.

Lemma has_char_prefix c (x' x : str) :
  x' `prefix_of` x → has_char c x = false → has_char c x' = false.
Proof.
  intros [k ->]. unfold has_char. rewrite existsb_app, orb_false_iff. tauto.
Qed.

Lemma removelast_prefix (x' x : str) :
  x' `prefix_of` x → removelast x' `prefix_of` removelast x.
Proof.
  intros [k ->]. destruct k as [|a k].
  - by rewrite app_nil_r.
  - rewrite removelast_app by done.
    destruct x' as [|b x' _] using rev_ind; [apply prefix_nil|].
    rewrite removelast_last. exists ([b] ++ removelast (a :: k)). by rewrite <- app_assoc.
Qed.

Global Instance match_email_matcher : RunMatcher match_email.
Proof.
  unfold match_email. split.
  - intros s. by rewrite run_idem.
  - intros s n. destruct (run s) as [|a w]; [done|].
    destruct (has_char _ _); [|done]. intros [= <-]. simpl. split; lia.
  - intros w' w Hp. apply run_mono_prefix in Hp.
    destruct (run w) as [|a x]; [by apply prefix_nil_inv in Hp as ->|].
    destruct (run w') as [|b x']; [done|].
    destruct (has_char "@" (removelast x)) eqn:Hx; [done|]. intros _.
    assert (Hp' : x' `prefix_of` x).
    { destruct Hp as [k Hk]. injection Hk as -> ->. by exists k. }
    by rewrite (has_char_prefix _ _ _ (removelast_prefix _ _ Hp') Hx).
Qed.

Lemma has_char_false c s :
  has_char c s = false ↔ Forall (λ a, ascii_eqb c a = false) s.
Proof.
  unfold has_char. induction s as [|a s IH]; simpl.
  - split; [constructor|done].
  - rewrite orb_false_iff, IH. split.
    + intros [? ?]. by constructor.
    + by inversion 1.
Qed.

(** A text without [@] holds no e-mail address. *)
Lemma no_at_match_free s :
  Forall (λ a, ascii_eqb "@" a = false) s → match_free match_email s.
Proof.
  intros Hs u [k ->]. apply Forall_app in Hs as [_ Hu].
  unfold match_email.
  destruct (run u) as [|a w] eqn:Hr; [done|].
  assert (Hw : Forall (λ a, ascii_eqb "@" a = false) (removelast w)).
  { pose proof (run_prefix u) as Hp. rewrite Hr in Hp.
    destruct Hp as [k' ->]. simpl in Hu. inversion Hu as [|? ? _ Hu']; subst.
    apply Forall_app in Hu' as [Hw _].
    destruct w as [|b w _] using rev_ind; [constructor|].
    rewrite removelast_last. by apply Forall_app in Hw as [? _]. }
  apply has_char_false in Hw. by rewrite Hw.
Qed.

(** The substitution of special characters works character by character. *)
Lemma re_sub_special s : re_sub match_special (py " ") 0 s = map blank s.
Proof.
  induction s as [|c s IH]; [done|].
  rewrite re_sub_cons_0.
  change (match_special (c :: s))
    with (if is_alnum c || is_space c then None else Some 1).
  change (map blank (c :: s)) with (blank c :: map blank s).
  unfold blank at 1. rewrite <- IH.
  by destruct (is_alnum c || is_space c).
Qed.

Lemma blank_space c : is_space c = true → is_space (blank c) = true.
Proof. by_cases_on_char c. Qed.

Lemma blank_keeps c a : blank c = a → is_space a = false → c = a.
Proof. intros <-. by_cases_on_char c. Qed.

Lemma blank_word_char c :
  is_upper c = false → is_space (blank c) = false → is_word_char (blank c) = true.
Proof. by_cases_on_char c. Qed.

Lemma blank_id c : is_word_char c = true → blank c = c.
Proof. by_cases_on_char c. Qed.

Lemma run_map_blank_nil s : run s = [] → run (map blank s) = [].
Proof.
  destruct s as [|c s]; simpl; [done|].
  destruct (is_space c) eqn:Hc; [|done]. by rewrite blank_space.
Qed.

Lemma map_blank_lit lit s' s :
  Forall (λ c, is_space c = false) lit →
  map blank s = lit ++ s' → ∃ r, s = lit ++ r ∧ s' = map blank r.
Proof.
  intros Hlit. revert s. induction Hlit as [|a lit Ha _ IH]; intros s Hs; simpl in *.
  - exists s. done.
  - destruct s as [|c s]; [done|]. simpl in Hs. injection Hs as Hc Hs.
    apply blank_keeps in Hc as ->; [|done].
    destruct (IH _ Hs) as (r & -> & ->). by exists r.
Qed.

Lemma match_lit_run_blank lit s :
  Forall (λ c, is_space c = false) lit →
  match_lit_run lit s = None → match_lit_run lit (map blank s) = None.
Proof.
  intros Hlit. rewrite !match_lit_run_None. intros Hs s' Heq.
  destruct (map_blank_lit _ _ _ Hlit Heq) as (r & -> & ->).
  apply run_map_blank_nil. by apply Hs.
Qed.

Lemma match_url_blank s : match_url s = None → match_url (map blank s) = None.
Proof.
  rewrite match_url_alt. unfold match_alt.
  destruct (match_lit_run (py "http") s) eqn:H1; [done|]. intros H2.
  rewrite !match_lit_run_blank; try done; repeat constructor.
Qed.

Lemma match_free_cons m c s : match_free m (c :: s) → match_free m s.
Proof. intros H u Hu. apply H. by apply suffix_cons_r. Qed.

Lemma map_blank_url_free s :
  match_free match_url s → match_free match_url (map blank s).
Proof.
  induction s as [|c s IH]; intros Hfree u Hu; simpl in Hu.
  - apply suffix_nil_inv in Hu as ->. by apply Hfree.
  - apply suffix_cons_cases in Hu as [-> | Hu].
    + apply (match_url_blank (c :: s)). by apply Hfree.
    + apply IH; [by apply match_free_cons in Hfree|done].
Qed.

(** ** The words of a normalized text *)

Lemma preprocess_text_scrub s :
  _preprocess_text s = strip (re_sub match_spaces (py " ") 0 (scrub s)).
Proof. by destruct s. Qed.

Lemma split_preprocess s : split (_preprocess_text s) = split (scrub s).
Proof. by rewrite preprocess_text_scrub, split_strip, split_collapse. Qed.

Lemma lower_word t : Forall (λ c, is_word_char c = true) t → lower t = t.
Proof.
  unfold lower. induction 1 as [|c t Hc _ IH]; simpl; [done|].
  by rewrite lower_char_word_char, IH.
Qed.

Lemma map_blank_word t : Forall (λ c, is_word_char c = true) t → map blank t = t.
Proof.
  induction 1 as [|c t Hc _ IH]; simpl; [done|]. by rewrite blank_id, IH.
Qed.

Lemma lower_no_upper s : Forall (λ c, is_upper c = false) (lower s).
Proof. apply Forall_fmap, Forall_forall. intros c _. apply is_upper_lower_char. Qed.

(** A word every step of the normalization leaves alone. *)
Lemma scrub_word t :
  Forall (λ c, is_word_char c = true) t → match_free match_url t → scrub t = t.
Proof.
  intros Ht Hfree. unfold scrub.
  rewrite lower_word, (re_sub_id match_url), (re_sub_id match_email),
    re_sub_special, map_blank_word; try done.
  apply no_at_match_free. eapply Forall_impl; [exact Ht|].
  apply word_char_not_at.
Qed.

(** The normalization works run by run. *)
Lemma scrub_app_spaces x ws y :
  ws ≠ [] → Forall (λ c, is_space c = true) ws →
  ∃ ws', ws' ≠ [] ∧ Forall (λ c, is_space c = true) ws' ∧
         scrub (x ++ ws ++ y) = scrub x ++ ws' ++ scrub y.
Proof.
  intros Hne Hws. exists (map blank (lower ws)).
  assert (Hlow : Forall (λ c, is_space c = true) (lower ws)).
  { apply Forall_fmap. eapply Forall_impl; [exact Hws|].
    intros c Hc. simpl. by rewrite is_space_lower_char. }
  split_and!.
  - by destruct ws.
  - apply Forall_fmap. eapply Forall_impl; [exact Hlow|].
    intros c Hc. by apply blank_space.
  - unfold scrub, lower. rewrite !map_app.
    assert (Hne' : map lower_char ws ≠ []) by (by destruct ws).
    rewrite (re_sub_app_spaces match_url), (re_sub_app_spaces match_email) by done.
    by rewrite !re_sub_special, !map_app.
Qed.

Lemma split_preprocess_app x ws y :
  ws ≠ [] → Forall (λ c, is_space c = true) ws →
  split (_preprocess_text (x ++ ws ++ y))
  = split (_preprocess_text x) ++ split (_preprocess_text y).
Proof.
  intros Hne Hws. rewrite !split_preprocess.
  destruct (scrub_app_spaces x ws y Hne Hws) as (ws' & Hne' & Hws' & ->).
  by apply split_app_spaces.
Qed.

Lemma scrub_no_upper s c : c ∈ re_sub match_email [] 0 (re_sub match_url [] 0 (lower s)) →
  is_upper c = false.
Proof.
  intros Hc. apply re_sub_elem, re_sub_elem in Hc.
  pose proof (lower_no_upper s) as Hl. rewrite Forall_forall in Hl. by apply Hl.
Qed.

(** The words of a normalized text are made of lower-case letters and digits
    and hold no match of the URL pattern. *)
Lemma preprocess_words j t :
  t ∈ split (_preprocess_text j) →
  t ≠ [] ∧ Forall (λ c, is_word_char c = true) t ∧ match_free match_url t.
Proof.
  rewrite split_preprocess. intros Ht.
  pose proof (split_elem_no_space _ _ Ht) as Hns.
  destruct (split_elem _ _ Ht) as (Hne & pre & post & Heq & Hrun).
  unfold scrub in Heq. rewrite re_sub_special in Heq.
  set (x := re_sub match_email [] 0 (re_sub match_url [] 0 (lower j))) in *.
  split_and!; [done| |].
  - apply Forall_forall. intros c Hc.
    assert (Hin : c ∈ map blank x).
    { rewrite Heq. rewrite !elem_of_app. auto. }
    apply list_elem_of_fmap in Hin as (c0 & -> & Hc0).
    apply blank_word_char.
    + by apply (scrub_no_upper j).
    + rewrite Forall_forall in Hns. by apply Hns.
  - assert (Hfree : match_free match_url (map blank x)).
    { apply map_blank_url_free.
      apply (re_sub_keeps_match_free match_email match_url).
      apply (re_sub_match_free match_url). }
    intros u [k ->].
    assert (Hu : Forall (λ c, is_space c = false) u).
    { by apply Forall_app in Hns as [_ ?]. }
    assert (Hk : Forall (λ c, is_space c = false) k).
    { by apply Forall_app in Hns as [? _]. }
    rewrite <- app_assoc in Hrun. rewrite run_app_no_space in Hrun by done.
    apply app_inv_head in Hrun.
    specialize (Hfree (u ++ post)).
    rewrite rm_local, Hrun in Hfree. apply Hfree.
    exists (pre ++ k). rewrite Heq. by rewrite <- !app_assoc.
Qed.

Lemma preprocess_word j t :
  t ∈ split (_preprocess_text j) → split (_preprocess_text t) = [t].
Proof.
  intros (Hne & Hw & Hfree)%preprocess_words.
  rewrite split_preprocess, scrub_word by done.
  apply split_word; [done|].
  eapply Forall_impl; [exact Hw|]. apply word_char_not_space.
Qed.

Lemma long_words_elem clean t :
  t ∈ long_words clean ↔ 2 < length t ∧ t ∈ split clean.
Proof. unfold long_words. rewrite elem_of_filter, elem_of_list_to_set. done. Qed.

(** Appending a word of the job text to the profile adds that word to the
    words of the profile and removes none. *)
Lemma long_words_gain p ws t j :
  ws ≠ [] → Forall (λ c, is_space c = true) ws →
  t ∈ split (_preprocess_text j) →
  long_words (_preprocess_text p) ⊆ long_words (_preprocess_text (p ++ ws ++ t))
  ∧ t ∈ split (_preprocess_text (p ++ ws ++ t)).
Proof.
  intros Hne Hws Ht.
  rewrite split_preprocess_app, (preprocess_word j t) by done.
  split.
  - intros w. rewrite !long_words_elem, split_preprocess_app,
      (preprocess_word j t), elem_of_app by done. tauto.
  - rewrite elem_of_app, list_elem_of_singleton. auto.
Qed.

Lemma split_nil_inv s t : t ∈ split s → s ≠ [].
Proof. intros Ht ->. by apply elem_of_nil in Ht. Qed.

Lemma overlap_ratio_mono (o o' n : nat) :
  o ≤ o' →
  (inject_Z (Z.of_nat o) / inject_Z (Z.of_nat n) * 100
   <= inject_Z (Z.of_nat o') / inject_Z (Z.of_nat n) * 100)%Q.
Proof.
  intros Ho. apply Qmult_le_compat_r; [|lra].
  unfold Qdiv. apply Qmult_le_compat_r.
  - rewrite <- Zle_Qle. lia.
  - apply Qinv_le_0_compat. change 0%Q with (inject_Z 0). rewrite <- Zle_Qle. lia.
Qed.

(** C8. For every profile text [p], job text [j] and word [t] of more than
    two characters among the filtered words of [j], the keyword-overlap score
    of [p] extended by white space and [t] is at least that of [p]. *)
Theorem keyword_overlap_monotone (p j ws t : str) :
  ws ≠ [] → Forall (λ c, is_space c = true) ws →
  2 < length t →
  t ∈ long_words (_preprocess_text j) →
  (calculate_keyword_overlap p j <= calculate_keyword_overlap (p ++ ws ++ t) j)%Q.
Proof.
  intros Hne Hws Hlen Ht.
  pose proof Ht as [_ Hsplit]%long_words_elem.
  destruct (long_words_gain p ws t j Hne Hws Hsplit) as [Hsub Hin].
  destruct (_preprocess_text p) as [|c cp] eqn:Hp.
  { apply Qle_trans with 0%Q; [|apply calculate_keyword_overlap_bounds].
    unfold calculate_keyword_overlap. rewrite Hp. simpl. lra. }
  unfold calculate_keyword_overlap. rewrite Hp.
  apply split_nil_inv in Hin. apply split_nil_inv in Hsplit.
  destruct (_preprocess_text (p ++ ws ++ t)) as [|c' cP] eqn:HP; [done|].
  destruct (_preprocess_text j) as [|cj0 cj] eqn:Hj; [done|].
  simpl negb. simpl orb. cbv iota.
  destruct (decide (long_words (cj0 :: cj) = ∅)) as [He|_].
  { rewrite He in Ht. by apply not_elem_of_empty in Ht. }
  apply round1_mono, Q.min_le_compat_l, overlap_ratio_mono.
  apply subseteq_size. intros w [Hw Hj']%elem_of_intersection.
  apply elem_of_intersection. auto.
Qed.

(** The statement of C8 at the profile ["java"], the job text
    ["Python Developer"] and its word ["python"]. *)
Lemma keyword_overlap_monotone_witness :
  (calculate_keyword_overlap (py "java") (py "Python Developer")
   <= calculate_keyword_overlap (py "java" ++ py " " ++ py "python") (py "Python Developer"))%Q.
Proof.
  apply keyword_overlap_monotone.
  - done.
  - repeat constructor.
  - simpl. lia.
  - apply long_words_elem. split; [simpl; lia|].
    vm_compute. apply list_elem_of_here.
Defined.

(** ** The crawl loops *)

Lemma is_duplicate_false t c jobs :
  is_duplicate t c jobs = false ↔ (t, c) ∉ map job_key jobs.
Proof.
  unfold is_duplicate, str_eqb. induction jobs as [|j jobs IH]; simpl.
  - split; [intros _; apply not_elem_of_nil|done].
  - rewrite orb_false_iff, IH, not_elem_of_cons.
    split; intros [Hj ?]; (split; [|done]).
    + intros [= -> ->]. by rewrite !bool_decide_eq_true_2 in Hj.
    + apply not_true_is_false. intros [H1 H2]%andb_true_iff.
      apply bool_decide_eq_true in H1, H2. apply Hj. unfold job_key. congruence.
Qed.

Lemma budget_reached_false max_jobs jobs :
  budget_reached max_jobs jobs = false ↔ (Z.of_nat (length jobs) < max_jobs)%Z.
Proof. unfold budget_reached. rewrite Z.leb_gt. done. Qed.

Lemma NoDup_snoc_keys jobs j :
  NoDup (map job_key jobs) → job_key j ∉ map job_key jobs →
  NoDup (map job_key (jobs ++ [j])).
Proof.
  intros Hnd Hj. rewrite map_app. apply NoDup_app. split_and!; [done| |].
  - intros k Hk Hk'. apply list_elem_of_singleton in Hk' as ->. done.
  - simpl. apply NoDup_singleton.
Qed.

Section linkedin_facts.
Context {elem : Type} {parser : Soup elem} {session : Http elem} {urllib : UrlQuote}.
Import LinkedInBot.

(** What the body of the card loop does to the list: nothing, or one more
    job whose key is new, and whose title is the search role whenever the raw
    title was masked. *)
Lemma linkedin_process_card_cases role card jobs :
  process_card role card jobs = jobs
  ∨ ∃ raw j,
      _extract_job_data card = Some raw
      ∧ process_card role card jobs = jobs ++ [j]
      ∧ (job_key j ∉ map job_key jobs)
      ∧ title j = (if has_char "*" (title raw) then role else title raw)
      ∧ 3 ≤ length (title j).
Proof.
  unfold process_card.
  destruct (_extract_job_data card) as [raw|]; [|by left].
  destruct (nonempty (title raw)); [|by left].
  destruct (has_char "*" (title raw)) eqn:Ht;
    destruct (has_char "*" (company raw)) eqn:Hc; cbn beta iota zeta;
    match goal with
    | |- context [(length ?t <? 3) || ?b] =>
        destruct (length t <? 3) eqn:Hlen; simpl orb;
        [by left|destruct b; [by left|]]
    end;
    match goal with
    | |- context [is_duplicate ?t ?c jobs] =>
        destruct (is_duplicate t c jobs) eqn:Hdup; [by left|]
    end;
    right; apply is_duplicate_false in Hdup; apply Nat.ltb_ge in Hlen;
    eexists raw, _; (split_and!; [reflexivity|reflexivity|exact Hdup|by rewrite ?Ht|exact Hlen]).
Qed.

Lemma linkedin_cards_loop_inv (P : list job → Prop) role max_jobs :
  (∀ card jobs, P jobs → budget_reached max_jobs jobs = false →
                P (process_card role card jobs)) →
  ∀ cards jobs, P jobs → P (cards_loop role max_jobs cards jobs).
Proof.
  intros Hstep cards. induction cards as [|card cards IH]; intros jobs HP; simpl.
  - done.
  - destruct (budget_reached max_jobs jobs) eqn:Hb; [done|]. auto.
Qed.

Lemma linkedin_pages_loop_cons role max_jobs er el page rest jobs log :
  pages_loop role max_jobs er el (page :: rest) jobs log =
  if budget_reached max_jobs jobs then (jobs, log)
  else
    let log' := log ++ [search_url er el page] in
    match http_get log (search_url er el page) with
    | RequestException => pages_loop role max_jobs er el rest jobs log'
    | Response status_code soup =>
        if raises_for_status status_code
        then pages_loop role max_jobs er el rest jobs log'
        else pages_loop role max_jobs er el rest
               (cards_loop role max_jobs (find_job_cards soup) jobs) log'
    end.
Proof.
  simpl. destruct (budget_reached max_jobs jobs); [done|].
  unfold mbind, io_bind, session_get.
  destruct (http_get log _) as [|st soup]; [done|].
  by destruct (raises_for_status st).
Qed.

Lemma linkedin_pages_loop_inv (P : list job → Prop) role max_jobs er el :
  (∀ card jobs, P jobs → budget_reached max_jobs jobs = false →
                P (process_card role card jobs)) →
  ∀ pages jobs log, P jobs → P (pages_loop role max_jobs er el pages jobs log).1.
Proof.
  intros Hstep pages. induction pages as [|page rest IH]; intros jobs log HP.
  - done.
  - rewrite linkedin_pages_loop_cons.
    destruct (budget_reached max_jobs jobs); [done|]. cbv zeta.
    destruct (http_get log _) as [|st soup]; [by apply IH|].
    destruct (raises_for_status st); [by apply IH|].
    apply IH. by apply linkedin_cards_loop_inv.
Qed.

Lemma linkedin_descriptions_loop_cons j rest log :
  descriptions_loop (j :: rest) log =
  let '(j', log1) :=
    if nonempty (link j) && negb (str_eqb (link j) (py "#")) then
      let '(desc, log1) := _fetch_job_description (link j) log in
      (if nonempty desc then set_description desc j else j, log1)
    else (j, log) in
  let '(rest', log2) := descriptions_loop rest log1 in
  (j' :: rest', log2).
Proof.
  simpl. unfold mbind, io_bind, mret, io_ret.
  by destruct (nonempty (link j) && negb (str_eqb (link j) (py "#"))).
Qed.

(** Fetching the descriptions changes the description of a job and nothing
    else. *)
Lemma linkedin_descriptions_loop_spec jobs log :
  Forall2 (λ j j', title j' = title j ∧ company j' = company j
                   ∧ link j' = link j ∧ image_url j' = image_url j)
    jobs (descriptions_loop jobs log).1.
Proof.
  revert log. induction jobs as [|j jobs IH]; intros log; [constructor|].
  rewrite linkedin_descriptions_loop_cons.
  destruct (nonempty (link j) && negb (str_eqb (link j) (py "#"))).
  - destruct (_fetch_job_description (link j) log) as [desc log1].
    specialize (IH log1).
    destruct (descriptions_loop jobs log1) as [rest log2]. simpl in *.
    constructor; [|done]. by destruct (nonempty desc).
  - specialize (IH log).
    destruct (descriptions_loop jobs log) as [rest log2]. simpl in *.
    by constructor.
Qed.

Lemma linkedin_descriptions_loop_keys jobs log :
  map job_key (descriptions_loop jobs log).1 = map job_key jobs.
Proof.
  pose proof (linkedin_descriptions_loop_spec jobs log) as HF.
  induction HF as [|j j' l l' (Ht & Hc & _) _ IH]; simpl; [done|].
  rewrite IH. unfold job_key. by rewrite Ht, Hc.
Qed.

Lemma linkedin_descriptions_loop_titles jobs log :
  map title (descriptions_loop jobs log).1 = map title jobs.
Proof.
  pose proof (linkedin_descriptions_loop_spec jobs log) as HF.
  induction HF as [|j j' l l' (Ht & _) _ IH]; simpl; [done|].
  by rewrite IH, Ht.
Qed.

(** [search_jobs] returns: the jobs the page loop accepted, with their
    descriptions. *)
Lemma linkedin_search_jobs_returns role location max_jobs log :
  ∃ jobs,
    (search_jobs role location max_jobs log).1 = Returned jobs
    ∧ map job_key jobs
      = map job_key (pages_loop role max_jobs (quote role) (quote location)
                       page_starts [] log).1
    ∧ map title jobs
      = map title (pages_loop role max_jobs (quote role) (quote location)
                     page_starts [] log).1.
Proof.
  unfold search_jobs, mbind, io_bind, mret, io_ret.
  destruct (pages_loop _ _ _ _ _ _ _) as [jobs log1].
  pose proof (linkedin_descriptions_loop_keys jobs log1) as Hk.
  pose proof (linkedin_descriptions_loop_titles jobs log1) as Ht.
  destruct (descriptions_loop jobs log1) as [jobs' log2].
  by exists jobs'.
Qed.

Lemma linkedin_budget_invariant role max_jobs er el pages log :
  (0 ≤ max_jobs)%Z →
  (Z.of_nat (length (pages_loop role max_jobs er el pages [] log).1) ≤ max_jobs)%Z.
Proof.
  intros Hmax.
  apply (linkedin_pages_loop_inv (λ jobs, (Z.of_nat (length jobs) ≤ max_jobs)%Z)); [|simpl; lia].
  intros card jobs Hjobs Hb%budget_reached_false.
  destruct (linkedin_process_card_cases role card jobs) as [->|(raw & j & _ & -> & _)]; [done|].
  rewrite length_app. simpl. lia.
Qed.

Lemma linkedin_dedup_invariant role max_jobs er el pages log :
  NoDup (map job_key (pages_loop role max_jobs er el pages [] log).1).
Proof.
  apply (linkedin_pages_loop_inv (λ jobs, NoDup (map job_key jobs))); [|constructor].
  intros card jobs Hjobs _.
  destruct (linkedin_process_card_cases role card jobs) as [->|(raw & j & _ & -> & Hj & _)]; [done|].
  by apply NoDup_snoc_keys.
Qed.

Lemma linkedin_titles_invariant role max_jobs er el pages log :
  Forall (λ j, title j = role ∨ has_char "*" (title j) = false)
    (pages_loop role max_jobs er el pages [] log).1.
Proof.
  apply (linkedin_pages_loop_inv
           (Forall (λ j, title j = role ∨ has_char "*" (title j) = false)));
    [|constructor].
  intros card jobs Hjobs _.
  destruct (linkedin_process_card_cases role card jobs)
    as [->|(raw & j & _ & -> & _ & Ht & _)]; [done|].
  apply Forall_app. split; [done|]. constructor; [|constructor].
  rewrite Ht. destruct (has_char "*" (title raw)) eqn:Hraw; auto.
Qed.

(** With a budget of zero the loops are not entered. *)
Lemma linkedin_search_jobs_zero role location log :
  search_jobs role location 0 log = (Returned [], log).
Proof. reflexivity. Qed.
End linkedin_facts.

Section kariyer_facts.
Context {elem : Type} {parser : Soup elem} {session : Http elem} {urllib : UrlQuote}.
Import KariyerNetBot.

(** The title of a record is the recovered title when that has at least
    three characters and no asterisk, and the search role otherwise. *)
Lemma kariyer_extract_title_cases card role :
  (∃ t, recovered_title card = Some t ∧ 3 ≤ length t
        ∧ has_char "*" t = false ∧ extract_title card role = t)
  ∨ ((∀ t, recovered_title card = Some t →
           t = [] ∨ length t < 3 ∨ has_char "*" t = true)
     ∧ extract_title card role = role).
Proof.
  unfold extract_title.
  destruct (recovered_title card) as [[|c t]|] eqn:Hr; cbv zeta.
  - right. split; [|done]. intros t [= <-]. auto.
  - destruct (length (c :: t) <? 3) eqn:Hlen; cbn [orb].
    + right. split; [|done]. intros ? [= <-]. apply Nat.ltb_lt in Hlen. auto.
    + destruct (has_char "*" (c :: t)) eqn:Hstar.
      * right. split; [|done]. intros ? [= <-]. auto.
      * left. exists (c :: t). apply Nat.ltb_ge in Hlen. done.
  - right. split; [|done]. intros t [=].
Qed.

Lemma kariyer_process_card_cases role card jobs :
  process_card role card jobs = jobs
  ∨ ∃ j, _extract_job_data card role = Some j
         ∧ process_card role card jobs = jobs ++ [j]
         ∧ (job_key j ∉ map job_key jobs).
Proof.
  unfold process_card.
  destruct (_extract_job_data card role) as [j|]; [|by left].
  destruct (is_duplicate (title j) (company j) jobs) eqn:Hdup; [by left|].
  right. exists j. apply is_duplicate_false in Hdup. done.
Qed.

Lemma kariyer_cards_loop_inv (P : list job → Prop) role max_jobs :
  (∀ card jobs, P jobs → budget_reached max_jobs jobs = false →
                P (process_card role card jobs)) →
  ∀ cards jobs, P jobs → P (cards_loop role max_jobs cards jobs).
Proof.
  intros Hstep cards. induction cards as [|card cards IH]; intros jobs HP; simpl.
  - done.
  - destruct (budget_reached max_jobs jobs) eqn:Hb; [done|]. auto.
Qed.

Lemma kariyer_pages_loop_cons role max_jobs er el page rest jobs log :
  pages_loop role max_jobs er el (page :: rest) jobs log =
  if budget_reached max_jobs jobs then (jobs, log)
  else
    let log' := log ++ [search_url er el page] in
    match http_get log (search_url er el page) with
    | RequestException => pages_loop role max_jobs er el rest jobs log'
    | Response status_code soup =>
        if negb (status_code =? 200)
        then pages_loop role max_jobs er el rest jobs log'
        else pages_loop role max_jobs er el rest
               (cards_loop role max_jobs (find_job_cards soup) jobs) log'
    end.
Proof.
  simpl. destruct (budget_reached max_jobs jobs); [done|].
  unfold mbind, io_bind, session_get.
  destruct (http_get log _) as [|st soup]; [done|].
  by destruct (negb (st =? 200)).
Qed.

Lemma kariyer_pages_loop_inv (P : list job → Prop) role max_jobs er el :
  (∀ card jobs, P jobs → budget_reached max_jobs jobs = false →
                P (process_card role card jobs)) →
  ∀ ps jobs log, P jobs → P (pages_loop role max_jobs er el ps jobs log).1.
Proof.
  intros Hstep ps. induction ps as [|page rest IH]; intros jobs log HP.
  - done.
  - rewrite kariyer_pages_loop_cons.
    destruct (budget_reached max_jobs jobs); [done|]. cbv zeta.
    destruct (http_get log _) as [|st soup]; [by apply IH|].
    destruct (negb (st =? 200)); [by apply IH|].
    apply IH. by apply kariyer_cards_loop_inv.
Qed.

(** The requests of the page loop are requests of result pages. *)
Lemma kariyer_pages_loop_log role max_jobs er el ps jobs log :
  ∃ fetched,
    (pages_loop role max_jobs er el ps jobs log).2 = log ++ fetched
    ∧ Forall (λ url, ∃ page, page ∈ ps ∧ url = search_url er el page) fetched.
Proof.
  revert jobs log. induction ps as [|page rest IH]; intros jobs log.
  - exists []. by rewrite app_nil_r.
  - rewrite kariyer_pages_loop_cons.
    destruct (budget_reached max_jobs jobs).
    { exists []. by rewrite app_nil_r. }
    cbv zeta.
    assert (Hrest : ∀ jobs', ∃ fetched,
      (pages_loop role max_jobs er el rest jobs' (log ++ [search_url er el page])).2
        = log ++ fetched
      ∧ Forall (λ url, ∃ p, p ∈ page :: rest ∧ url = search_url er el p) fetched).
    { intros jobs'.
      destruct (IH jobs' (log ++ [search_url er el page])) as (fetched & -> & Hf).
      exists (search_url er el page :: fetched). split.
      - by rewrite <- app_assoc.
      - constructor; [exists page; split; [left|done]|].
        eapply Forall_impl; [exact Hf|]. intros url (p & Hp & ->).
        exists p. split; [by right|done]. }
    destruct (http_get log _) as [|st soup]; [apply Hrest|].
    destruct (negb (st =? 200)); apply Hrest.
Qed.

Lemma kariyer_search_jobs_eq role location max_jobs log :
  search_jobs role location max_jobs log =
  let r := pages_loop role max_jobs (quote (lower role)) (quote (lower location))
             pages [] log in
  (Returned r.1, r.2).
Proof.
  unfold search_jobs, mbind, io_bind, mret, io_ret.
  by destruct (pages_loop _ _ _ _ _ _ _).
Qed.

Lemma kariyer_budget_invariant role max_jobs er el ps log :
  (0 ≤ max_jobs)%Z →
  (Z.of_nat (length (pages_loop role max_jobs er el ps [] log).1) ≤ max_jobs)%Z.
Proof.
  intros Hmax.
  apply (kariyer_pages_loop_inv (λ jobs, (Z.of_nat (length jobs) ≤ max_jobs)%Z)); [|simpl; lia].
  intros card jobs Hjobs Hb%budget_reached_false.
  destruct (kariyer_process_card_cases role card jobs) as [->|(j & _ & -> & _)]; [done|].
  rewrite length_app. simpl. lia.
Qed.

Lemma kariyer_dedup_invariant role max_jobs er el ps log :
  NoDup (map job_key (pages_loop role max_jobs er el ps [] log).1).
Proof.
  apply (kariyer_pages_loop_inv (λ jobs, NoDup (map job_key jobs))); [|constructor].
  intros card jobs Hjobs _.
  destruct (kariyer_process_card_cases role card jobs) as [->|(j & _ & -> & Hj)]; [done|].
  by apply NoDup_snoc_keys.
Qed.

(** Every job of the result is what [_extract_job_data] built from a card. *)
Lemma kariyer_extracted_invariant role max_jobs er el ps log :
  Forall (λ j, ∃ card, _extract_job_data card role = Some j)
    (pages_loop role max_jobs er el ps [] log).1.
Proof.
  apply (kariyer_pages_loop_inv (Forall (λ j, ∃ card, _extract_job_data card role = Some j)));
    [|constructor].
  intros card jobs Hjobs _.
  destruct (kariyer_process_card_cases role card jobs) as [->|(j & Hj & -> & _)]; [done|].
  apply Forall_app. split; [done|]. constructor; [by exists card|constructor].
Qed.

(** With a budget of zero the loop is not entered. *)
Lemma kariyer_search_jobs_zero role location log :
  search_jobs role location 0 log = (Returned [], log).
Proof. reflexivity. Qed.
End kariyer_facts.
(** ** What the loops keep, and the cards behind the jobs *)

Lemma is_duplicate_true t c jobs :
  is_duplicate t c jobs = true → (t, c) ∈ map job_key jobs.
Proof.
  intros Hdup. destruct (decide ((t, c) ∈ map job_key jobs)) as [|Hno]; [done|].
  apply is_duplicate_false in Hno. congruence.
Qed.

Lemma keys_prefix (jobs jobs' : list job) k :
  jobs `prefix_of` jobs' → k ∈ map job_key jobs → k ∈ map job_key jobs'.
Proof.
  intros [rest ->] Hk. rewrite map_app. apply elem_of_app. by left.
Qed.

Lemma key_elem (jobs : list job) t c :
  (t, c) ∈ map job_key jobs → ∃ j, j ∈ jobs ∧ title j = t ∧ company j = c.
Proof.
  intros (j & [= -> ->] & Hj)%list_elem_of_fmap. by exists j.
Qed.

Lemma budget_reached_length max_jobs (jobs jobs' : list job) :
  length jobs = length jobs' → budget_reached max_jobs jobs = budget_reached max_jobs jobs'.
Proof. unfold budget_reached. by intros ->. Qed.

Section linkedin_masked.
Context {elem : Type} {parser : Soup elem} {session : Http elem} {urllib : UrlQuote}.
Import LinkedInBot.

(** The body of the card loop on a card with a masked title. *)
Lemma linkedin_process_card_masked role card raw jobs :
  _extract_job_data card = Some raw →
  has_char "*" (title raw) = true →
  process_card role card jobs =
  if (length role <? 3) || (10 <? count_char " " role)
     || is_duplicate role (if has_char "*" (company raw) then py "Şirket" else company raw)
          jobs
  then jobs
  else jobs ++ [Job role (if has_char "*" (company raw) then py "Şirket" else company raw)
                  (link raw) (image_url raw) (description raw)].
Proof.
  intros Hraw Hstar. unfold process_card. rewrite Hraw.
  assert (nonempty (title raw) = true) as ->.
  { destruct (title raw); [discriminate Hstar|done]. }
  rewrite Hstar.
  destruct (has_char "*" (company raw)); cbn beta iota zeta;
    destruct (length role <? 3); cbn [orb]; try done;
    destruct (10 <? count_char " " role); cbn [orb]; try done;
    match goal with
    | |- context [is_duplicate ?t ?c jobs] => destruct (is_duplicate t c jobs)
    end; done.
Qed.

Lemma linkedin_process_card_prefix role card jobs :
  jobs `prefix_of` process_card role card jobs.
Proof.
  destruct (linkedin_process_card_cases role card jobs) as [->|(raw & j & _ & -> & _)];
    [done|by apply prefix_app_r].
Qed.

Lemma linkedin_cards_loop_prefix role max_jobs cards jobs :
  jobs `prefix_of` cards_loop role max_jobs cards jobs.
Proof.
  apply (linkedin_cards_loop_inv (λ l, jobs `prefix_of` l)); [|done].
  intros card l Hl _. etrans; [exact Hl|apply linkedin_process_card_prefix].
Qed.

Lemma linkedin_pages_loop_prefix role max_jobs er el pages jobs log :
  jobs `prefix_of` (pages_loop role max_jobs er el pages jobs log).1.
Proof.
  apply (linkedin_pages_loop_inv (λ l, jobs `prefix_of` l)); [|done].
  intros card l Hl _. etrans; [exact Hl|apply linkedin_process_card_prefix].
Qed.

Lemma linkedin_cards_loop_full role max_jobs cards jobs :
  budget_reached max_jobs jobs = true → cards_loop role max_jobs cards jobs = jobs.
Proof. intros Hb. destruct cards; simpl; [done|by rewrite Hb]. Qed.

Lemma linkedin_pages_loop_full role max_jobs er el pages jobs log :
  budget_reached max_jobs jobs = true →
  pages_loop role max_jobs er el pages jobs log = (jobs, log).
Proof.
  intros Hb. destruct pages; [done|]. by rewrite linkedin_pages_loop_cons, Hb.
Qed.

(** A masked card of the page is in the list after the page, under the search
    role, unless the list is full. *)
Lemma linkedin_cards_loop_masked role max_jobs cards jobs card raw :
  3 ≤ length role → count_char " " role ≤ 10 →
  card ∈ cards → _extract_job_data card = Some raw → has_char "*" (title raw) = true →
  budget_reached max_jobs (cards_loop role max_jobs cards jobs) = true
  ∨ (role, if has_char "*" (company raw) then py "Şirket" else company raw)
    ∈ map job_key (cards_loop role max_jobs cards jobs).
Proof.
  intros Hlen Hblanks Hcard Hraw Hstar. revert jobs.
  induction cards as [|c cards IH]; intros jobs; [by apply elem_of_nil in Hcard|].
  cbn [cards_loop].
  destruct (budget_reached max_jobs jobs) eqn:Hb; [by left|].
  apply elem_of_cons in Hcard as [<-|Hcard]; [|by apply IH].
  right. apply (keys_prefix (process_card role card jobs));
    [apply linkedin_cards_loop_prefix|].
  rewrite (linkedin_process_card_masked role card raw jobs Hraw Hstar).
  rewrite (proj2 (Nat.ltb_ge (length role) 3)) by lia.
  rewrite (proj2 (Nat.ltb_ge 10 (count_char " " role))) by lia.
  cbn [orb].
  destruct (is_duplicate role _ jobs) eqn:Hdup; [by apply is_duplicate_true|].
  rewrite map_app. apply elem_of_app. right. apply list_elem_of_singleton. done.
Qed.

(** The same for the pages: the [k]-th page is requested after the [k]
    pages before it. *)
Lemma linkedin_pages_loop_masked role max_jobs er el pages jobs log :
  3 ≤ length role → count_char " " role ≤ 10 →
  budget_reached max_jobs (pages_loop role max_jobs er el pages jobs log).1 = true
  ∨ ∀ k page status_code soup card raw,
      pages !! k = Some page →
      http_get (log ++ map (search_url er el) (take k pages)) (search_url er el page)
      = Response status_code soup →
      raises_for_status status_code = false →
      card ∈ find_job_cards soup →
      _extract_job_data card = Some raw → has_char "*" (title raw) = true →
      (role, if has_char "*" (company raw) then py "Şirket" else company raw)
      ∈ map job_key (pages_loop role max_jobs er el pages jobs log).1.
Proof.
  intros Hlen Hblanks. revert jobs log.
  induction pages as [|page0 rest IH]; intros jobs log.
  { right. intros k page st soup card raw Hk. by rewrite lookup_nil in Hk. }
  rewrite linkedin_pages_loop_cons.
  destruct (budget_reached max_jobs jobs) eqn:Hb; [by left|]. cbv zeta.
  assert (Hstep : ∀ jobs1,
    (∀ st soup card raw,
       http_get log (search_url er el page0) = Response st soup →
       raises_for_status st = false → card ∈ find_job_cards soup →
       _extract_job_data card = Some raw → has_char "*" (title raw) = true →
       budget_reached max_jobs jobs1 = true
       ∨ (role, if has_char "*" (company raw) then py "Şirket" else company raw)
         ∈ map job_key jobs1) →
    let res := (pages_loop role max_jobs er el rest jobs1
                  (log ++ [search_url er el page0])).1 in
    budget_reached max_jobs res = true
    ∨ ∀ k page st soup card raw,
        (page0 :: rest) !! k = Some page →
        http_get (log ++ map (search_url er el) (take k (page0 :: rest)))
          (search_url er el page) = Response st soup →
        raises_for_status st = false → card ∈ find_job_cards soup →
        _extract_job_data card = Some raw → has_char "*" (title raw) = true →
        (role, if has_char "*" (company raw) then py "Şirket" else company raw)
        ∈ map job_key res).
  { intros jobs1 Hfirst res.
    destruct (budget_reached max_jobs jobs1) eqn:Hb1.
    { left. unfold res. by rewrite linkedin_pages_loop_full. }
    destruct (IH jobs1 (log ++ [search_url er el page0])) as [Hfull|Hrest]; [by left|].
    right. intros [|k] page st soup card raw Hk Hget Hst Hcard Hraw Hstar.
    - injection Hk as <-. cbn [take map] in Hget. rewrite app_nil_r in Hget.
      destruct (Hfirst st soup card raw Hget Hst Hcard Hraw Hstar) as [Hfull|Hin];
        [congruence|].
      apply (keys_prefix jobs1); [apply linkedin_pages_loop_prefix|done].
    - cbn [lookup list_lookup] in Hk. cbn [take map] in Hget.
      rewrite cons_middle, app_assoc in Hget.
      by apply (Hrest k page st soup card raw). }
  destruct (http_get log (search_url er el page0)) as [|st0 soup0] eqn:Hget0.
  - apply Hstep. intros st soup card raw [=].
  - destruct (raises_for_status st0) eqn:Hst0.
    + apply Hstep. intros st soup card raw [= <- <-]. congruence.
    + apply Hstep. intros st soup card raw [= <- <-] _ Hcard Hraw Hstar.
      by apply (linkedin_cards_loop_masked role max_jobs _ jobs card raw).
Qed.
End linkedin_masked.

Section kariyer_cards.
Context {elem : Type} {parser : Soup elem} {session : Http elem} {urllib : UrlQuote}.
Import KariyerNetBot.

(** The body of the card loop: the record of the card is appended unless a
    job has its title and company. *)
Lemma kariyer_process_card_eq role card jobs :
  process_card role card jobs =
  if is_duplicate (extract_title card role) (extract_company card) jobs then jobs
  else jobs ++ [Job (extract_title card role) (extract_company card)
                  (extract_link card) None (extract_location card)].
Proof.
  unfold process_card, _extract_job_data. cbn [title company].
  by destruct (is_duplicate _ _ jobs).
Qed.

Lemma kariyer_process_card_prefix role card jobs :
  jobs `prefix_of` process_card role card jobs.
Proof.
  destruct (kariyer_process_card_cases role card jobs) as [->|(j & _ & -> & _)];
    [done|by apply prefix_app_r].
Qed.

Lemma kariyer_cards_loop_prefix role max_jobs cards jobs :
  jobs `prefix_of` cards_loop role max_jobs cards jobs.
Proof.
  apply (kariyer_cards_loop_inv (λ l, jobs `prefix_of` l)); [|done].
  intros card l Hl _. etrans; [exact Hl|apply kariyer_process_card_prefix].
Qed.

Lemma kariyer_pages_loop_prefix role max_jobs er el ps jobs log :
  jobs `prefix_of` (pages_loop role max_jobs er el ps jobs log).1.
Proof.
  apply (kariyer_pages_loop_inv (λ l, jobs `prefix_of` l)); [|done].
  intros card l Hl _. etrans; [exact Hl|apply kariyer_process_card_prefix].
Qed.

Lemma kariyer_pages_loop_full role max_jobs er el ps jobs log :
  budget_reached max_jobs jobs = true →
  pages_loop role max_jobs er el ps jobs log = (jobs, log).
Proof.
  intros Hb. destruct ps; [done|]. by rewrite kariyer_pages_loop_cons, Hb.
Qed.

(** A card of the page is in the list after the page, under the title and the
    company of its record, unless the list is full. *)
Lemma kariyer_cards_loop_card role max_jobs cards jobs card :
  card ∈ cards →
  budget_reached max_jobs (cards_loop role max_jobs cards jobs) = true
  ∨ (extract_title card role, extract_company card)
    ∈ map job_key (cards_loop role max_jobs cards jobs).
Proof.
  intros Hcard. revert jobs.
  induction cards as [|c cards IH]; intros jobs; [by apply elem_of_nil in Hcard|].
  cbn [cards_loop].
  destruct (budget_reached max_jobs jobs) eqn:Hb; [by left|].
  apply elem_of_cons in Hcard as [<-|Hcard]; [|by apply IH].
  right. apply (keys_prefix (process_card role card jobs));
    [apply kariyer_cards_loop_prefix|].
  rewrite kariyer_process_card_eq.
  destruct (is_duplicate _ _ jobs) eqn:Hdup; [by apply is_duplicate_true|].
  rewrite map_app. apply elem_of_app. right. apply list_elem_of_singleton. done.
Qed.

Lemma kariyer_pages_loop_card role max_jobs er el ps jobs log :
  budget_reached max_jobs (pages_loop role max_jobs er el ps jobs log).1 = true
  ∨ ∀ k page soup card,
      ps !! k = Some page →
      http_get (log ++ map (search_url er el) (take k ps)) (search_url er el page)
      = Response 200 soup →
      card ∈ find_job_cards soup →
      (extract_title card role, extract_company card)
      ∈ map job_key (pages_loop role max_jobs er el ps jobs log).1.
Proof.
  revert jobs log. induction ps as [|page0 rest IH]; intros jobs log.
  { right. intros k page soup card Hk. by rewrite lookup_nil in Hk. }
  rewrite kariyer_pages_loop_cons.
  destruct (budget_reached max_jobs jobs) eqn:Hb; [by left|]. cbv zeta.
  assert (Hstep : ∀ jobs1,
    (∀ soup card,
       http_get log (search_url er el page0) = Response 200 soup →
       card ∈ find_job_cards soup →
       budget_reached max_jobs jobs1 = true
       ∨ (extract_title card role, extract_company card) ∈ map job_key jobs1) →
    let res := (pages_loop role max_jobs er el rest jobs1
                  (log ++ [search_url er el page0])).1 in
    budget_reached max_jobs res = true
    ∨ ∀ k page soup card,
        (page0 :: rest) !! k = Some page →
        http_get (log ++ map (search_url er el) (take k (page0 :: rest)))
          (search_url er el page) = Response 200 soup →
        card ∈ find_job_cards soup →
        (extract_title card role, extract_company card) ∈ map job_key res).
  { intros jobs1 Hfirst res.
    destruct (budget_reached max_jobs jobs1) eqn:Hb1.
    { left. unfold res. by rewrite kariyer_pages_loop_full. }
    destruct (IH jobs1 (log ++ [search_url er el page0])) as [Hfull|Hrest]; [by left|].
    right. intros [|k] page soup card Hk Hget Hcard.
    - injection Hk as <-. cbn [take map] in Hget. rewrite app_nil_r in Hget.
      destruct (Hfirst soup card Hget Hcard) as [Hfull|Hin]; [congruence|].
      apply (keys_prefix jobs1); [apply kariyer_pages_loop_prefix|done].
    - cbn [lookup list_lookup] in Hk. cbn [take map] in Hget.
      rewrite cons_middle, app_assoc in Hget.
      by apply (Hrest k page soup card). }
  destruct (http_get log (search_url er el page0)) as [|st0 soup0] eqn:Hget0.
  - apply Hstep. intros soup card [=].
  - destruct (st0 =? 200) eqn:Hst0; cbn [negb].
    + apply Nat.eqb_eq in Hst0 as ->.
      apply Hstep. intros soup card [= <-] Hcard.
      by apply kariyer_cards_loop_card.
    + apply Hstep. intros soup card [= -> _]. by rewrite Nat.eqb_refl in Hst0.
Qed.

(** Every job of the page loop is the record of a card of a result page: of
    the answer, with status 200, to one of the requests of the loop. *)
Lemma kariyer_cards_loop_built (P : job → Prop) role max_jobs cards jobs :
  (∀ card j, card ∈ cards → _extract_job_data card role = Some j → P j) →
  Forall P jobs → Forall P (cards_loop role max_jobs cards jobs).
Proof.
  revert jobs. induction cards as [|c cards IH]; intros jobs Hcards Hjobs; [done|].
  cbn [cards_loop]. destruct (budget_reached max_jobs jobs); [done|].
  apply IH; [intros card j Hcard; apply Hcards; by right|].
  destruct (kariyer_process_card_cases role c jobs) as [->|(j & Hj & -> & _)]; [done|].
  apply Forall_app. split; [done|]. constructor; [|constructor].
  apply (Hcards c j); [by left|done].
Qed.

Lemma kariyer_pages_loop_built role max_jobs er el ps jobs log :
  Forall (λ j, j ∈ jobs
               ∨ ∃ pre post page soup card,
                   (pages_loop role max_jobs er el ps jobs log).2
                   = log ++ pre ++ search_url er el page :: post
                   ∧ page ∈ ps
                   ∧ http_get (log ++ pre) (search_url er el page) = Response 200 soup
                   ∧ card ∈ find_job_cards soup
                   ∧ _extract_job_data card role = Some j)
    (pages_loop role max_jobs er el ps jobs log).1.
Proof.
  revert jobs log. induction ps as [|page0 rest IH]; intros jobs log.
  { apply Forall_forall. intros j Hj. by left. }
  rewrite kariyer_pages_loop_cons.
  destruct (budget_reached max_jobs jobs) eqn:Hb.
  { apply Forall_forall. intros j Hj. by left. }
  cbv zeta.
  assert (Hstep : ∀ jobs1,
    Forall (λ j, j ∈ jobs
                 ∨ ∃ soup card,
                     http_get log (search_url er el page0) = Response 200 soup
                     ∧ card ∈ find_job_cards soup
                     ∧ _extract_job_data card role = Some j) jobs1 →
    Forall (λ j, j ∈ jobs
                 ∨ ∃ pre post page soup card,
                     (pages_loop role max_jobs er el rest jobs1
                        (log ++ [search_url er el page0])).2
                     = log ++ pre ++ search_url er el page :: post
                     ∧ page ∈ page0 :: rest
                     ∧ http_get (log ++ pre) (search_url er el page) = Response 200 soup
                     ∧ card ∈ find_job_cards soup
                     ∧ _extract_job_data card role = Some j)
      (pages_loop role max_jobs er el rest jobs1 (log ++ [search_url er el page0])).1).
  { intros jobs1 Hjobs1.
    destruct (kariyer_pages_loop_log role max_jobs er el rest jobs1
                (log ++ [search_url er el page0])) as (fetched & Hlog & _).
    eapply Forall_impl; [apply IH|]. cbv beta.
    intros j [Hj|(pre & post & page & soup & card & Hl & Hpage & Hget & Hcard & Hrec)].
    - rewrite Forall_forall in Hjobs1.
      destruct (Hjobs1 j Hj) as [?|(soup & card & Hget & Hcard & Hrec)]; [by left|].
      right. exists [], fetched, page0, soup, card.
      rewrite app_nil_r. split_and!; try done.
      + rewrite Hlog. by rewrite <- app_assoc.
      + by left.
    - right. exists (search_url er el page0 :: pre), post, page, soup, card.
      split_and!; try done.
      + rewrite Hl. by rewrite <- !app_assoc.
      + by right.
      + by rewrite cons_middle, app_assoc. }
  destruct (http_get log (search_url er el page0)) as [|st0 soup0] eqn:Hget0.
  - apply Hstep. apply Forall_forall. intros j Hj. by left.
  - destruct (st0 =? 200) eqn:Hst0; cbn [negb].
    + apply Nat.eqb_eq in Hst0 as ->. apply Hstep.
      apply kariyer_cards_loop_built.
      * intros card j Hcard Hrec. right. by exists soup0, card.
      * apply Forall_forall. intros j Hj. by left.
    + apply Hstep. apply Forall_forall. intros j Hj. by left.
Qed.
End kariyer_cards.

(** ** The crawl: budget, distinct keys, zero budget *)

Lemma keys_distinct jobs :
  NoDup (map job_key jobs) →
  ∀ i k a b, jobs !! i = Some a → jobs !! k = Some b → i ≠ k →
             ¬ (title a = title b ∧ company a = company b).
Proof.
  intros Hnd i k a b Ha Hb Hik [Ht Hc]. apply Hik.
  apply (NoDup_lookup _ i k (job_key a) Hnd).
  - by rewrite list_lookup_fmap, Ha.
  - rewrite list_lookup_fmap, Hb. unfold job_key. simpl. by rewrite Ht, Hc.
Qed.

(** C2. With a positive [max_jobs], the search of either scraper returns a
    list of at most [max_jobs] jobs. *)
Theorem search_within_budget {elem : Type} {parser : Soup elem} {session : Http elem}
    {urllib : UrlQuote} (role location : str) (max_jobs : Z) (log : list str) :
  (0 < max_jobs)%Z →
  (∃ jobs, (LinkedInBot.search_jobs role location max_jobs log).1 = Returned jobs
           ∧ (Z.of_nat (length jobs) ≤ max_jobs)%Z)
  ∧ (∃ jobs, (KariyerNetBot.search_jobs role location max_jobs log).1 = Returned jobs
             ∧ (Z.of_nat (length jobs) ≤ max_jobs)%Z).
Proof.
  intros Hmax. split.
  - destruct (linkedin_search_jobs_returns role location max_jobs log)
      as (jobs & Hret & Hkeys & _).
    exists jobs. split; [done|].
    apply (f_equal length) in Hkeys. rewrite !length_map in Hkeys. rewrite Hkeys.
    apply linkedin_budget_invariant. lia.
  - rewrite kariyer_search_jobs_eq. eexists. split; [reflexivity|].
    apply kariyer_budget_invariant. lia.
Qed.

(** C2 on a page of two distinct cards with a budget of one job. *)
Lemma search_within_budget_witness :
  let page := Samples.page [Samples.card_python; Samples.card_mailto] in
  (∃ jobs, (LinkedInBot.search_jobs (session := Dom.serve page) (urllib := Dom.plain_quote)
              (py "Python Developer") (py "Istanbul") 1 []).1 = Returned jobs
           ∧ (Z.of_nat (length jobs) ≤ 1)%Z)
  ∧ (∃ jobs, (KariyerNetBot.search_jobs (session := Dom.serve page) (urllib := Dom.plain_quote)
                (py "Python Developer") (py "Istanbul") 1 []).1 = Returned jobs
             ∧ (Z.of_nat (length jobs) ≤ 1)%Z).
Proof.
  apply (search_within_budget (session := Dom.serve _) (urllib := Dom.plain_quote)). lia.
Defined.

(** C3. The search of either scraper returns a list in which no two jobs
    have both the same title and the same company. *)
Theorem search_results_distinct {elem : Type} {parser : Soup elem} {session : Http elem}
    {urllib : UrlQuote} (role location : str) (max_jobs : Z) (log : list str) :
  (∃ jobs, (LinkedInBot.search_jobs role location max_jobs log).1 = Returned jobs
           ∧ ∀ i k a b, jobs !! i = Some a → jobs !! k = Some b → i ≠ k →
                        ¬ (title a = title b ∧ company a = company b))
  ∧ (∃ jobs, (KariyerNetBot.search_jobs role location max_jobs log).1 = Returned jobs
             ∧ ∀ i k a b, jobs !! i = Some a → jobs !! k = Some b → i ≠ k →
                          ¬ (title a = title b ∧ company a = company b)).
Proof.
  split.
  - destruct (linkedin_search_jobs_returns role location max_jobs log)
      as (jobs & Hret & Hkeys & _).
    exists jobs. split; [done|]. apply keys_distinct. rewrite Hkeys.
    apply linkedin_dedup_invariant.
  - rewrite kariyer_search_jobs_eq. eexists. split; [reflexivity|].
    apply keys_distinct, kariyer_dedup_invariant.
Qed.

(** C4, as the code has it. With [max_jobs = 0] the search of either scraper
    returns the empty list, raises nothing and makes no request. *)
Theorem search_zero_budget {elem : Type} {parser : Soup elem} {session : Http elem}
    {urllib : UrlQuote} (role location : str) (log : list str) :
  LinkedInBot.search_jobs role location 0 log = (Returned [], log)
  ∧ KariyerNetBot.search_jobs role location 0 log = (Returned [], log).
Proof. split; reflexivity. Qed.

(** C4 as stated fails: with [max_jobs = 0] neither search ends in an
    [InputError]. *)
Lemma search_zero_budget_not_rejected :
  (LinkedInBot.search_jobs (session := Dom.offline) (urllib := Dom.plain_quote)
     (py "Python Developer") (py "Istanbul") 0 []).1 ≠ Raised InputError
  ∧ (KariyerNetBot.search_jobs (session := Dom.offline) (urllib := Dom.plain_quote)
       (py "Python Developer") (py "istanbul") 0 []).1 ≠ Raised InputError.
Proof. split; discriminate. Qed.

(** ** Extraction: titles *)

Lemma linkedin_extract_title {elem : Type} {parser : Soup elem} (card : elem) (j : job) :
  LinkedInBot._extract_job_data card = Some j →
  LinkedInBot.recovered_title card = Some (title j) ∧ title j ≠ [].
Proof.
  unfold LinkedInBot._extract_job_data.
  destruct (LinkedInBot.recovered_title card) as [[|c t]|]; try done.
  by intros [= <-].
Qed.

(** C5, as the code has it. A record of the LinkedIn extraction has the
    recovered title, which is not empty; a card without a recoverable title
    gives no record, and a card with one gives a record. The Kariyer
    extraction always gives a record: its title is the search role when no
    title is recovered and when the recovered title has fewer than three
    characters or holds an asterisk, and the recovered title otherwise; it is
    not empty when the search role is not. *)
Theorem extraction_titles {elem : Type} {parser : Soup elem} (card : elem) (role : str) :
  ((∀ j, LinkedInBot._extract_job_data card = Some j →
         LinkedInBot.recovered_title card = Some (title j) ∧ title j ≠ [])
   ∧ (truthy (LinkedInBot.recovered_title card) = false →
      LinkedInBot._extract_job_data card = None)
   ∧ (truthy (LinkedInBot.recovered_title card) = true →
      ∃ j, LinkedInBot._extract_job_data card = Some j))
  ∧ (∃ j, KariyerNetBot._extract_job_data card role = Some j
          ∧ (truthy (KariyerNetBot.recovered_title card) = false → title j = role)
          ∧ (∀ t, KariyerNetBot.recovered_title card = Some t →
                  length t < 3 ∨ has_char "*" t = true → title j = role)
          ∧ (∀ t, KariyerNetBot.recovered_title card = Some t →
                  3 ≤ length t → has_char "*" t = false → title j = t)
          ∧ (title j = role ∨ KariyerNetBot.recovered_title card = Some (title j))
          ∧ (role ≠ [] → title j ≠ [])).
Proof.
  split; [split_and!|].
  - apply linkedin_extract_title.
  - unfold LinkedInBot._extract_job_data.
    by destruct (LinkedInBot.recovered_title card) as [[|c t]|].
  - unfold LinkedInBot._extract_job_data.
    destruct (LinkedInBot.recovered_title card) as [[|c t]|]; [done| |done].
    intros _. by eexists.
  - eexists. split; [reflexivity|]. simpl.
    destruct (kariyer_extract_title_cases card role)
      as [(t & Hr & Hlen & Hstar & ->)|[Hno ->]].
    + split_and!.
      * rewrite Hr. destruct t; [simpl in Hlen; lia|done].
      * intros t' Ht' [Hshort|Hmasked]; rewrite Hr in Ht'; injection Ht' as <-;
          [lia|congruence].
      * intros t' Ht' _ _. rewrite Hr in Ht'. by injection Ht' as <-.
      * by right.
      * intros _ ->. simpl in Hlen. lia.
    + split_and!; auto.
      intros t Ht Hlen Hstar. destruct (Hno t Ht) as [->|[?|?]];
        [simpl in Hlen; lia|lia|congruence].
Qed.

(** C5 at the LinkedIn card with a title, at the card without one, and at the
    Kariyer card with a masked title. *)
Lemma extraction_titles_witness :
  (∃ j, LinkedInBot._extract_job_data Samples.card_python = Some j ∧ title j ≠ [])
  ∧ LinkedInBot._extract_job_data Samples.card_untitled = None
  ∧ title <$> KariyerNetBot._extract_job_data Samples.card_kariyer_masked
                (py "Python Developer") = Some (py "Python Developer").
Proof.
  split_and!.
  - eexists. split; [reflexivity|].
    eapply (proj1 (proj1 (extraction_titles Samples.card_python []))). reflexivity.
  - apply (proj1 (proj2 (proj1 (extraction_titles Samples.card_untitled [])))). reflexivity.
  - destruct (proj2 (extraction_titles Samples.card_kariyer_masked (py "Python Developer")))
      as (j & -> & _ & Hmasked & _).
    cbn [fmap option_fmap option_map]. f_equal.
    apply (Hmasked (py "Y***** M*******")); [reflexivity|right; reflexivity].
Defined.

(** C5 as stated fails for the Kariyer scraper: the card without a title is
    not discarded, its record carries the search role as title; with an empty
    search role the title of the record is empty. *)
Lemma kariyer_untitled_card_emitted :
  truthy (KariyerNetBot.recovered_title Samples.card_untitled) = false
  ∧ KariyerNetBot._extract_job_data Samples.card_untitled (py "Python Developer")
    = Some (Job (py "Python Developer") (py "Acme") (py "#") None (py "Ankara"))
  ∧ title <$> KariyerNetBot._extract_job_data Samples.card_untitled [] = Some [].
Proof. split_and!; vm_compute; reflexivity. Qed.

(** ** Masked titles *)

Lemma kariyer_titles {elem : Type} {parser : Soup elem} {session : Http elem}
    (role er el : str) (max_jobs : Z) (ps : list nat) (log : list str) :
  Forall (λ j, title j = role ∨ has_char "*" (title j) = false)
    (KariyerNetBot.pages_loop role max_jobs er el ps [] log).1.
Proof.
  eapply Forall_impl; [apply kariyer_extracted_invariant|].
  intros j [card [= <-]]. simpl.
  destruct (kariyer_extract_title_cases card role)
    as [(t & _ & _ & Hstar & ->)|[_ ->]]; auto.
Qed.

Lemma unmasked_titles role jobs :
  has_char "*" role = false →
  Forall (λ j, title j = role ∨ has_char "*" (title j) = false) jobs →
  Forall (λ j, has_char "*" (title j) = false) jobs.
Proof.
  intros Hrole Hjobs. eapply Forall_impl; [exact Hjobs|].
  intros j [->|]; done.
Qed.

Lemma Forall_titles (P : str → Prop) (jobs jobs' : list job) :
  map title jobs' = map title jobs →
  Forall (λ j, P (title j)) jobs → Forall (λ j, P (title j)) jobs'.
Proof.
  intros Heq HP. change (Forall (P ∘ title) jobs').
  apply Forall_fmap. change (Forall P (map title jobs')). rewrite Heq.
  by apply Forall_fmap.
Qed.

(** C6, as the code has it. The LinkedIn card loop appends a card whose raw
    title holds an asterisk under the search role (and under the company
    ["Şirket"] when the company holds one too) when the role has at least three
    characters and at most ten blanks and no job of the list has that title and
    company, and leaves the list as it is otherwise. The Kariyer extraction
    gives such a card the search role as title, and the card loop appends its
    record unless a job of the list has its title and company. Every job a
    search returns has the search role as title or a title without asterisk, so
    no returned title holds an asterisk when the search role holds none. And
    unless the search has returned [max_jobs] jobs, every such card of a result
    page that was fetched (for LinkedIn: with a role that passes the two tests)
    has a job under the search role and its company in the result. *)
Theorem masked_titles_replaced {elem : Type} {parser : Soup elem} {session : Http elem}
    {urllib : UrlQuote} (role location : str) (max_jobs : Z) (log : list str) :
  ((∀ card raw jobs,
      LinkedInBot._extract_job_data card = Some raw →
      has_char "*" (title raw) = true →
      LinkedInBot.process_card role card jobs
      = if (length role <? 3) || (10 <? count_char " " role)
           || is_duplicate role
                (if has_char "*" (company raw) then py "Şirket" else company raw) jobs
        then jobs
        else jobs ++ [Job role
                        (if has_char "*" (company raw) then py "Şirket" else company raw)
                        (link raw) (image_url raw) (description raw)])
   ∧ ∃ jobs,
       (LinkedInBot.search_jobs role location max_jobs log).1 = Returned jobs
       ∧ Forall (λ j, title j = role ∨ has_char "*" (title j) = false) jobs
       ∧ (has_char "*" role = false →
          Forall (λ j, has_char "*" (title j) = false) jobs)
       ∧ (3 ≤ length role → count_char " " role ≤ 10 →
          (Z.of_nat (length jobs) < max_jobs)%Z →
          ∀ k page status_code soup card raw,
            LinkedInBot.page_starts !! k = Some page →
            http_get (log ++ map (LinkedInBot.search_url (quote role) (quote location))
                               (take k LinkedInBot.page_starts))
              (LinkedInBot.search_url (quote role) (quote location) page)
            = Response status_code soup →
            LinkedInBot.raises_for_status status_code = false →
            card ∈ LinkedInBot.find_job_cards soup →
            LinkedInBot._extract_job_data card = Some raw →
            has_char "*" (title raw) = true →
            ∃ j, j ∈ jobs ∧ title j = role
                 ∧ company j
                   = if has_char "*" (company raw) then py "Şirket" else company raw))
  ∧ ((∀ card t jobs,
        KariyerNetBot.recovered_title card = Some t →
        has_char "*" t = true →
        ∃ j, KariyerNetBot._extract_job_data card role = Some j ∧ title j = role
             ∧ KariyerNetBot.process_card role card jobs
               = if is_duplicate role (company j) jobs then jobs else jobs ++ [j])
     ∧ ∃ jobs,
         (KariyerNetBot.search_jobs role location max_jobs log).1 = Returned jobs
         ∧ Forall (λ j, title j = role ∨ has_char "*" (title j) = false) jobs
         ∧ (has_char "*" role = false →
            Forall (λ j, has_char "*" (title j) = false) jobs)
         ∧ ((Z.of_nat (length jobs) < max_jobs)%Z →
            ∀ k page soup card t,
              KariyerNetBot.pages !! k = Some page →
              http_get (log ++ map (KariyerNetBot.search_url (quote (lower role))
                                      (quote (lower location)))
                                 (take k KariyerNetBot.pages))
                (KariyerNetBot.search_url (quote (lower role)) (quote (lower location)) page)
              = Response 200 soup →
              card ∈ KariyerNetBot.find_job_cards soup →
              KariyerNetBot.recovered_title card = Some t →
              has_char "*" t = true →
              ∃ j, j ∈ jobs ∧ title j = role
                   ∧ company j = KariyerNetBot.extract_company card)).
Proof.
  assert (Hktitle : ∀ card t, KariyerNetBot.recovered_title card = Some t →
                              has_char "*" t = true →
                              KariyerNetBot.extract_title card role = role).
  { intros card t Hr Hstar. unfold KariyerNetBot.extract_title. rewrite Hr.
    destruct t as [|c t]; [done|]. cbv zeta. rewrite Hstar.
    by rewrite orb_true_r. }
  split; split.
  - intros card raw jobs. apply linkedin_process_card_masked.
  - destruct (linkedin_search_jobs_returns role location max_jobs log)
      as (jobs & Hret & Hkeys & Heq).
    exists jobs. split; [done|].
    assert (Hinv : Forall (λ j, title j = role ∨ has_char "*" (title j) = false) jobs).
    { apply (Forall_titles (λ t, t = role ∨ has_char "*" t = false) _ jobs Heq).
      apply linkedin_titles_invariant. }
    split_and!; [done| |].
    + intros Hrole. by apply (unmasked_titles role).
    + intros Hlen Hblanks Hroom k page st soup card raw Hk Hget Hst Hcard Hraw Hstar.
      apply key_elem. rewrite Hkeys.
      destruct (linkedin_pages_loop_masked role max_jobs (quote role) (quote location)
                  LinkedInBot.page_starts [] log Hlen Hblanks) as [Hfull|Hin].
      * apply (f_equal length) in Hkeys. rewrite !length_map in Hkeys.
        rewrite <- (budget_reached_length max_jobs _ _ Hkeys) in Hfull.
        apply budget_reached_false in Hroom. congruence.
      * by apply (Hin k page st soup card raw).
  - intros card t jobs Hr Hstar. eexists. split; [reflexivity|].
    cbn [title company]. split; [by apply (Hktitle card t)|].
    rewrite kariyer_process_card_eq, (Hktitle card t Hr Hstar).
    by destruct (is_duplicate _ _ jobs).
  - rewrite kariyer_search_jobs_eq. eexists. split; [reflexivity|].
    cbn [fst]. split_and!; [apply kariyer_titles| |].
    + intros Hrole. apply (unmasked_titles role); [done|apply kariyer_titles].
    + intros Hroom k page soup card t Hk Hget Hcard Hr Hstar.
      apply key_elem.
      destruct (kariyer_pages_loop_card role max_jobs (quote (lower role))
                  (quote (lower location)) KariyerNetBot.pages [] log) as [Hfull|Hin].
      * apply budget_reached_false in Hroom. congruence.
      * pose proof (Hin k page soup card Hk Hget Hcard) as Hkey.
        by rewrite (Hktitle card t Hr Hstar) in Hkey.
Qed.

(** C6 on a page with a masked card, searched for ["Data Engineer"]: the
    masked card is returned under the role. *)
Lemma masked_titles_replaced_witness :
  let page := Samples.page [Samples.card_python; Samples.card_masked] in
  ∃ jobs,
    (LinkedInBot.search_jobs (session := Dom.serve page) (urllib := Dom.plain_quote)
       (py "Data Engineer") (py "Istanbul") 10 []).1 = Returned jobs
    ∧ Forall (λ j, has_char "*" (title j) = false) jobs
    ∧ ∃ j, j ∈ jobs ∧ title j = py "Data Engineer" ∧ company j = py "Şirket".
Proof.
  intros page.
  destruct (proj1 (masked_titles_replaced (session := Dom.serve page)
                     (urllib := Dom.plain_quote)
                     (py "Data Engineer") (py "Istanbul") 10 []))
    as (_ & jobs & Hret & _ & Hclean & Hmasked).
  exists jobs. split; [exact Hret|]. split; [apply Hclean; reflexivity|].
  assert (Hlen : length jobs = 2).
  { apply (f_equal (λ r, match r with Returned l => length l | Raised _ => 0 end)) in Hret.
    rewrite <- Hret. vm_compute. reflexivity. }
  refine (Hmasked _ _ _ 0 0 200 page Samples.card_masked
            (Job (py "S***** E*******") (py "A***") (py "#") None [])
            eq_refl eq_refl eq_refl _ eq_refl eq_refl).
  - vm_compute. lia.
  - vm_compute. lia.
  - rewrite Hlen. lia.
  - unfold page. apply list_elem_of_In. vm_compute. auto.
Defined.

(** C6 as stated fails when the search role itself holds an asterisk: the
    masked card is returned under the role, asterisk included. *)
Lemma masked_role_survives :
  (LinkedInBot.search_jobs (session := Dom.serve (Samples.page [Samples.card_masked]))
     (urllib := Dom.plain_quote) (py "Python*") (py "Istanbul") 10 []).1
  = Returned [Job (py "Python*") (py "Şirket") (py "#") None []]
  ∧ has_char "*" (py "Python*") = true.
Proof. split; vm_compute; reflexivity. Qed.

(** ** Links *)

(** C7, as the code has it. An [href] that starts with a slash is appended to
    the origin of the source; otherwise an [href] that starts with the
    characters [http] is kept as it is; any other [href] gives ["#"]. The link
    of a record of either scraper is the link so resolved of the first anchor
    with an [href], and ["#"] without such an anchor. *)
Theorem link_resolution {elem : Type} {parser : Soup elem} (card : elem) (role origin href : str) :
  ((startswith (py "/") href = true → resolve_link origin href = origin ++ href)
   ∧ (startswith (py "/") href = false → startswith (py "http") href = true →
      resolve_link origin href = href)
   ∧ (startswith (py "/") href = false → startswith (py "http") href = false →
      resolve_link origin href = py "#"))
  ∧ (∀ j, LinkedInBot._extract_job_data card = Some j →
          link j = match find card [py "a"] (HasAttr (py "href")) with
                   | Some a => resolve_link (py "https://www.linkedin.com")
                                 (default [] (get_attr a (py "href")))
                   | None => py "#"
                   end)
  ∧ (∀ j, KariyerNetBot._extract_job_data card role = Some j →
          link j = match find card [py "a"] (HasAttr (py "href")) with
                   | Some a => resolve_link (py "https://www.kariyer.net")
                                 (default [] (get_attr a (py "href")))
                   | None => py "#"
                   end).
Proof.
  split_and!.
  - intros Hs. unfold resolve_link. by rewrite Hs.
  - intros Hs Hh. unfold resolve_link. by rewrite Hs, Hh.
  - intros Hs Hh. unfold resolve_link. by rewrite Hs, Hh.
  - intros j. unfold LinkedInBot._extract_job_data.
    destruct (LinkedInBot.recovered_title card) as [[|c t]|]; try done.
    by intros [= <-].
  - by intros j [= <-].
Qed.

(** C7 at a relative link, at an absolute link and at the card that links
    to [/jobs/view/1]. *)
Lemma link_resolution_witness :
  resolve_link LinkedInBot.origin (py "/jobs/view/1") = py "https://www.linkedin.com/jobs/view/1"
  ∧ resolve_link KariyerNetBot.origin (py "https://www.kariyer.net/is-ilani/1")
    = py "https://www.kariyer.net/is-ilani/1"
  ∧ resolve_link KariyerNetBot.origin (py "is-ilani/1") = py "#"
  ∧ ∀ j, LinkedInBot._extract_job_data Samples.card_python = Some j →
         link j = py "https://www.linkedin.com/jobs/view/1".
Proof.
  pose proof (link_resolution Samples.card_python [] LinkedInBot.origin (py "/jobs/view/1"))
    as ((H1 & _ & _) & Hcard & _).
  pose proof (link_resolution Samples.card_python [] KariyerNetBot.origin
                (py "https://www.kariyer.net/is-ilani/1")) as ((_ & H2 & _) & _).
  pose proof (link_resolution Samples.card_python [] KariyerNetBot.origin (py "is-ilani/1"))
    as ((_ & _ & H3) & _).
  split_and!.
  - apply H1. reflexivity.
  - apply H2; reflexivity.
  - apply H3; reflexivity.
  - intros j Hj. rewrite (Hcard j Hj). reflexivity.
Defined.

(** C7 as stated fails: an [href] that begins with the scheme [mailto:] is
    not passed through, its link is ["#"]. *)
Lemma scheme_href_not_passed_through :
  begins_with_scheme (py "mailto:jobs@acme.example") = true
  ∧ resolve_link LinkedInBot.origin (py "mailto:jobs@acme.example") = py "#"
  ∧ link <$> LinkedInBot._extract_job_data Samples.card_mailto = Some (py "#").
Proof. split_and!; vm_compute; reflexivity. Qed.

(** ** The ranking score of main.py *)

Lemma keyword_matches_filter kws text :
  Main.keyword_matches kws text = length (filter (λ kw, contains kw text = true) kws).
Proof.
  induction kws as [|kw kws IH]; [done|]. simpl. rewrite IH, filter_cons.
  destruct (contains kw text) eqn:Hc.
  - by rewrite decide_True.
  - by rewrite decide_False by done.
Qed.

Lemma role_match_bonus_filter words t :
  Main.role_match_bonus words t
  = 15 * length (filter (λ w, contains w t && (3 <? length w) = true) words).
Proof.
  induction words as [|w words IH]; [done|].
  cbn [Main.role_match_bonus]. rewrite IH, filter_cons.
  destruct (contains w t && (3 <? length w)) eqn:Hc.
  - rewrite decide_True by done. simpl. lia.
  - rewrite decide_False by done. simpl. lia.
Qed.

(** C9, as the code has it. The ranking score is the score the specification
    describes, rounded to one decimal. *)
Theorem match_score_formula (cv_keywords : list str) (search_title : str) (j : job) :
  (Main.match_score cv_keywords search_title j
   == round1 (claimed_score cv_keywords search_title j))%Q.
Proof.
  unfold Main.match_score, claimed_score.
  rewrite keyword_matches_filter, role_match_bonus_filter.
  set (job_text := lower (title j) ++ _).
  set (found := filter _ (map lower cv_keywords)).
  set (words := filter _ (split (lower search_title))).
  assert (Hdesc : nonempty (lower (description j)) = nonempty (description j)).
  { by destruct (description j). }
  assert (Hfound : (0 <? length found) = negb (bool_decide (found = []))).
  { by destruct found. }
  rewrite Hdesc, Hfound.
  assert (Hq : ∀ x y, (x == y)%Q → (round1 x == round1 y)%Q).
  { intros x y Hxy. unfold round1.
    rewrite (round_half_even_comp (x * 10) (y * 10)); [reflexivity|].
    by rewrite Hxy. }
  apply Hq.
  assert (Hbonus : (inject_Z (Z.of_nat (15 * length words))
                    == 15 * inject_Z (Z.of_nat (length words)))%Q).
  { rewrite Nat2Z.inj_mul, inject_Z_mult. reflexivity. }
  rewrite Hbonus.
  destruct (nonempty (description j) && negb (bool_decide (found = []))); reflexivity.
Qed.

(** C9 as stated fails: with one of three keywords found and two words of
    the role in the title the score is 63.3, and the unrounded sum is 190/3. *)
Lemma match_score_is_rounded :
  let j := Job (py "Senior Python developer") (py "Acme") (py "#") None [] in
  let keywords := [py "python"; py "java"; py "rust"] in
  (Main.match_score keywords (py "Python Developer") j == 633 # 10)%Q
  ∧ (claimed_score keywords (py "Python Developer") j == 190 # 3)%Q
  ∧ ¬ (Main.match_score keywords (py "Python Developer") j
       == claimed_score keywords (py "Python Developer") j)%Q.
Proof. split_and!; vm_compute; congruence. Qed.

(** ** The Kariyer scraper fetches no detail page *)

(** C10. A search of the Kariyer scraper returns; its requests are requests
    of result pages only; and every job it returns is the record of a card of
    a result page, found in the answer to one of these requests: it has no
    image, and its description is the text of the location element of that
    card, or the empty text when the card has none. *)
Theorem kariyer_no_detail_fetch {elem : Type} {parser : Soup elem} {session : Http elem}
    {urllib : UrlQuote} (role location : str) (max_jobs : Z) (log : list str) :
  ∃ jobs fetched,
    KariyerNetBot.search_jobs role location max_jobs log = (Returned jobs, log ++ fetched)
    ∧ Forall (λ url, ∃ page, page ∈ KariyerNetBot.pages
                ∧ url = KariyerNetBot.search_url (quote (lower role))
                          (quote (lower location)) page) fetched
    ∧ Forall (λ j, image_url j = None
                ∧ ∃ pre post page soup card,
                    fetched = pre ++ KariyerNetBot.search_url (quote (lower role))
                                       (quote (lower location)) page :: post
                    ∧ page ∈ KariyerNetBot.pages
                    ∧ http_get (log ++ pre)
                        (KariyerNetBot.search_url (quote (lower role))
                           (quote (lower location)) page) = Response 200 soup
                    ∧ card ∈ KariyerNetBot.find_job_cards soup
                    ∧ KariyerNetBot._extract_job_data card role = Some j
                    ∧ description j =
                        match find card [py "span"; py "div"]
                                (ClassHasLower (py "location")) with
                        | Some loc_elem => get_text loc_elem []
                        | None => []
                        end) jobs.
Proof.
  rewrite kariyer_search_jobs_eq. cbv zeta.
  destruct (kariyer_pages_loop_log role max_jobs (quote (lower role))
              (quote (lower location)) KariyerNetBot.pages [] log) as (fetched & Hlog & Hf).
  eexists _, fetched. split_and!.
  - by rewrite Hlog.
  - done.
  - eapply Forall_impl; [apply kariyer_pages_loop_built|]. cbv beta.
    intros j [Hj|(pre & post & page & soup & card & Hl & Hpage & Hget & Hcard & Hrec)];
      [by apply elem_of_nil in Hj|].
    pose proof Hrec as Hrec'. injection Hrec' as <-.
    split; [done|]. exists pre, post, page, soup, card.
    split_and!; try done.
    rewrite Hlog in Hl. by apply app_inv_head in Hl.
Qed.

(** * Further properties *)

(** ** The normal form of a normalized text *)

Lemma lstrip_idem s : lstrip (lstrip s) = lstrip s.
Proof.
  induction s as [|c s IH]; [done|]. simpl.
  destruct (is_space c) eqn:Hc; [done|]. simpl. by rewrite Hc.
Qed.

Lemma rstrip_no_space w : Forall (λ c, is_space c = false) w → rstrip w = w.
Proof.
  induction 1 as [|c w Hc _ IH]; [done|]. simpl. rewrite IH, Hc. by destruct w.
Qed.

Lemma rstrip_app x y : rstrip y ≠ [] → rstrip (x ++ y) = x ++ rstrip y.
Proof.
  intros Hy. induction x as [|c x IH]; [done|]. simpl. rewrite IH.
  destruct (x ++ rstrip y) eqn:E; [|done].
  apply app_eq_nil in E as [_ ?]. done.
Qed.

Lemma rstrip_app_nil x y : rstrip y = [] → rstrip (x ++ y) = rstrip x.
Proof.
  intros Hy. induction x as [|c x IH]; [done|]. simpl. by rewrite IH.
Qed.

Lemma rstrip_space c : is_space c = true → rstrip [c] = [].
Proof. intros Hc. simpl. by rewrite Hc. Qed.

(** Collapsing white space, one character at a time. *)
Lemma collapse_skip r :
  re_sub match_spaces (py " ") (ws_run r) r
  = lstrip (re_sub match_spaces (py " ") 0 r).
Proof.
  induction r as [|a r IH]; [done|].
  rewrite re_sub_cons_0, match_spaces_cons. simpl ws_run.
  destruct (is_space a) eqn:Ha.
  - rewrite re_sub_cons_S, IH.
    change (py " " ++ ?x) with (" "%char :: x).
    change (lstrip (" "%char :: ?x)) with (lstrip x).
    by rewrite lstrip_idem.
  - rewrite re_sub_cons_0, match_spaces_cons, Ha. cbn [lstrip]. by rewrite Ha.
Qed.

Lemma collapse_cons c r :
  re_sub match_spaces (py " ") 0 (c :: r) =
  if is_space c then " "%char :: lstrip (re_sub match_spaces (py " ") 0 r)
  else c :: re_sub match_spaces (py " ") 0 r.
Proof.
  rewrite re_sub_cons_0, match_spaces_cons.
  destruct (is_space c); [|done]. by rewrite collapse_skip.
Qed.

Lemma split_go_nonempty w s : Forall (λ t, t ≠ []) (split_go w s).
Proof.
  revert w. induction s as [|c s IH]; intros w; simpl.
  - destruct w; repeat constructor. done.
  - destruct (is_space c); [|done].
    destruct w; [done|]. by constructor.
Qed.

Lemma unwords_nil_inv l : Forall (λ t : str, t ≠ []) l → unwords l = [] → l = [].
Proof.
  destruct 1 as [|w l Hw Hl]; [done|]. simpl.
  destruct l; [done|]. by destruct w.
Qed.

Lemma unwords_cons w l :
  l ≠ [] → unwords (w :: l) = w ++ " "%char :: unwords l.
Proof. by destruct l. Qed.

(** The word being read, then the rest of the text with its white space
    collapsed and its end stripped, is the words joined by single spaces. *)
Lemma strip_collapse_go w s :
  Forall (λ c, is_space c = false) w →
  rstrip (w ++ (match w with
                | [] => lstrip (re_sub match_spaces (py " ") 0 s)
                | _ => re_sub match_spaces (py " ") 0 s
                end))
  = unwords (split_go w s).
Proof.
  revert w. induction s as [|c s IH]; intros w Hw.
  - simpl. destruct w; [done|]. rewrite app_nil_r. by apply rstrip_no_space.
  - rewrite collapse_cons. destruct (is_space c) eqn:Hc.
    + rewrite split_go_cons_space by done.
      pose proof (IH [] ltac:(constructor)) as IH0. simpl app in IH0.
      destruct w as [|a w].
      * simpl app. change (lstrip (" "%char :: ?x)) with (lstrip x).
        by rewrite lstrip_idem.
      * set (X := lstrip (re_sub match_spaces (py " ") 0 s)) in *.
        destruct (rstrip X) as [|x0 X'] eqn:HX.
        -- symmetry in IH0.
           apply unwords_nil_inv in IH0; [|apply split_go_nonempty].
           rewrite IH0. simpl unwords.
           change ((a :: w) ++ " "%char :: X) with ((a :: w) ++ [" "%char] ++ X).
           rewrite app_assoc, rstrip_app_nil by done.
           rewrite rstrip_app_nil by (by apply rstrip_space).
           by apply rstrip_no_space.
        -- assert (Hne : split_go [] s ≠ []).
           { intros E. rewrite E in IH0. done. }
           rewrite unwords_cons by done. rewrite <- IH0.
           change ((a :: w) ++ " "%char :: X) with ((a :: w) ++ [" "%char] ++ X).
           rewrite app_assoc, rstrip_app by (by rewrite HX).
           by rewrite <- app_assoc, HX.
    + rewrite split_go_cons_word by done.
      assert (Hw' : Forall (λ c, is_space c = false) (w ++ [c])).
      { apply Forall_app. split; [done|]. by constructor. }
      rewrite <- (IH (w ++ [c]) Hw').
      assert (Hm : ∀ (A B : str),
                 match w ++ [c] with [] => A | _ :: _ => B end = B) by (by destruct w).
      rewrite Hm, <- app_assoc. simpl app.
      destruct w; [|done]. cbn [lstrip]. by rewrite Hc.
Qed.

Lemma strip_collapse s :
  strip (re_sub match_spaces (py " ") 0 s) = unwords (split s).
Proof. apply (strip_collapse_go [] s). constructor. Qed.

Lemma preprocess_text_unwords s : _preprocess_text s = unwords (split (scrub s)).
Proof. by rewrite preprocess_text_scrub, strip_collapse. Qed.

(** X1. The normalized text is its own words joined by single spaces, and
    every word is a non-empty string of lower-case letters and digits. *)
Theorem preprocess_text_normal_form (s : str) :
  _preprocess_text s = unwords (split (_preprocess_text s))
  ∧ Forall (λ w, w ≠ [] ∧ Forall (λ c, is_word_char c = true) w)
      (split (_preprocess_text s)).
Proof.
  split.
  - rewrite split_preprocess. apply preprocess_text_unwords.
  - apply Forall_forall. intros w Hw.
    destruct (preprocess_words s w Hw) as (Hne & Hchars & _). done.
Qed.

(** ** Normalizing twice, case and padding *)

Lemma split_scrub_app x ws y :
  ws ≠ [] → Forall (λ c, is_space c = true) ws →
  split (scrub (x ++ ws ++ y)) = split (scrub x) ++ split (scrub y).
Proof.
  intros Hne Hws.
  destruct (scrub_app_spaces x ws y Hne Hws) as (ws' & Hne' & Hws' & ->).
  by apply split_app_spaces.
Qed.

Lemma split_scrub_unwords (words : list str) :
  Forall (λ w, w ≠ [] ∧ Forall (λ c, is_word_char c = true) w
               ∧ match_free match_url w) words →
  split (scrub (unwords words)) = words.
Proof.
  induction 1 as [|w rest (Hne & Hw & Hfree) _ IH]; [done|].
  assert (Hone : split (scrub w) = [w]).
  { rewrite scrub_word by done. apply split_word; [done|].
    eapply Forall_impl; [exact Hw|]. apply word_char_not_space. }
  destruct rest as [|w2 rest]; [done|].
  rewrite unwords_cons by done.
  change (w ++ " "%char :: ?x) with (w ++ [" "%char] ++ x).
  rewrite split_scrub_app, Hone, IH; [done|done|].
  by repeat constructor.
Qed.

(** X2. Normalizing a normalized text changes nothing. *)
Theorem preprocess_text_idempotent (s : str) :
  _preprocess_text (_preprocess_text s) = _preprocess_text s.
Proof.
  rewrite (preprocess_text_unwords (_preprocess_text s)).
  rewrite (preprocess_text_unwords s) at 1 2.
  rewrite split_scrub_unwords; [done|].
  apply Forall_forall. intros w Hw.
  apply (preprocess_words s). by rewrite split_preprocess.
Qed.

Lemma split_scrub_padding l a r :
  Forall (λ c, is_space c = true) l → Forall (λ c, is_space c = true) r →
  split (scrub (l ++ a ++ r)) = split (scrub a).
Proof.
  intros Hl Hr.
  assert (Hright : split (scrub (a ++ r)) = split (scrub a)).
  { destruct r as [|c r]; [by rewrite app_nil_r|].
    rewrite <- (app_nil_r (c :: r)), split_scrub_app by done.
    by rewrite app_nil_r. }
  destruct l as [|c l]; [done|].
  change ((c :: l) ++ a ++ r) with ([] ++ (c :: l) ++ a ++ r).
  by rewrite (split_scrub_app [] (c :: l) (a ++ r)).
Qed.

Lemma preprocess_text_padding l a a' r :
  Forall (λ c, is_space c = true) l → Forall (λ c, is_space c = true) r →
  lower a = lower a' →
  _preprocess_text (l ++ a ++ r) = _preprocess_text a'.
Proof.
  intros Hl Hr Hlow.
  rewrite !preprocess_text_unwords, split_scrub_padding by done.
  unfold scrub. by rewrite Hlow.
Qed.

(** X3. The three scores do not change when a text is put in another case
    or padded with white space at either end. *)
Theorem scores_ignore_case_and_padding {vectorizer : Tfidf} (a a' b b' l r l' r' : str) :
  Forall (λ c, is_space c = true) l → Forall (λ c, is_space c = true) r →
  Forall (λ c, is_space c = true) l' → Forall (λ c, is_space c = true) r' →
  lower a = lower a' → lower b = lower b' →
  calculate_match_score (l ++ a ++ r) (l' ++ b ++ r') = calculate_match_score a' b'
  ∧ calculate_keyword_overlap (l ++ a ++ r) (l' ++ b ++ r') = calculate_keyword_overlap a' b'
  ∧ get_combined_score (l ++ a ++ r) (l' ++ b ++ r') = get_combined_score a' b'.
Proof.
  intros Hl Hr Hl' Hr' Ha Hb.
  unfold get_combined_score, calculate_match_score, calculate_keyword_overlap.
  by rewrite (preprocess_text_padding l a a' r), (preprocess_text_padding l' b b' r').
Qed.

(** X3 at a profile in capitals between blanks and a job text followed by a
    line break. *)
Lemma scores_ignore_case_and_padding_witness :
  calculate_keyword_overlap (py "  " ++ py "PYTHON Developer" ++ py " ")
    ([] ++ py "Senior python DEVELOPER" ++ [ascii_of_nat 10])
  = calculate_keyword_overlap (py "python developer") (py "senior Python developer").
Proof.
  refine (proj1 (proj2 (scores_ignore_case_and_padding (vectorizer := λ _ _, None)
            (py "PYTHON Developer") (py "python developer")
            (py "Senior python DEVELOPER") (py "senior Python developer")
            (py "  ") (py " ") [] [ascii_of_nat 10] _ _ _ _ _ _)));
    first [vm_compute; reflexivity | repeat constructor].
Defined.

(** ** The keyword overlap in terms of the two sets of words *)

Lemma round1_comp (x y : Q) : (x == y)%Q → (round1 x == round1 y)%Q.
Proof.
  intros Hxy. unfold round1.
  rewrite (round_half_even_comp (x * 10) (y * 10)); [reflexivity|].
  by rewrite Hxy.
Qed.

Lemma long_words_nil : long_words [] = ∅.
Proof. reflexivity. Qed.

Lemma round1_min_0 (n : nat) :
  (round1 (Qmin 100 (inject_Z (Z.of_nat 0) / inject_Z (Z.of_nat n) * 100)) == 0)%Q.
Proof.
  rewrite <- round1_0. apply round1_comp.
  assert (H : (inject_Z (Z.of_nat 0) / inject_Z (Z.of_nat n) * 100 == 0)%Q).
  { change (inject_Z (Z.of_nat 0)) with 0%Q. unfold Qdiv.
    rewrite !Qmult_0_l. reflexivity. }
  rewrite Q.min_r; [done|]. rewrite H. lra.
Qed.

(** The score is a function of the sets of long words of the two texts:
    the tests on empty texts fall under the general case. *)
Lemma keyword_overlap_by_sets (a b : str) :
  (calculate_keyword_overlap a b ==
   if decide (long_words (_preprocess_text b) = ∅) then 0
   else round1 (Qmin 100
          (inject_Z (Z.of_nat (size (long_words (_preprocess_text a)
                                      ∩ long_words (_preprocess_text b))))
           / inject_Z (Z.of_nat (size (long_words (_preprocess_text b)))) * 100)))%Q.
Proof.
  unfold calculate_keyword_overlap.
  destruct (_preprocess_text b) as [|cb b'] eqn:Hb.
  { rewrite orb_true_r. by rewrite decide_True by apply long_words_nil. }
  destruct (_preprocess_text a) as [|ca a'] eqn:Ha; simpl negb; simpl orb; cbv iota.
  - destruct (decide _); [reflexivity|].
    rewrite long_words_nil, intersection_empty_l_L, size_empty.
    symmetry. apply round1_min_0.
  - destruct (decide _); reflexivity.
Qed.

(** X4. When the job text has a word of more than two characters and the
    profile holds every such word of the job text the overlap is 100; when the
    two texts share no such word it is 0. *)
Theorem keyword_overlap_extremes (a b : str) :
  (long_words (_preprocess_text b) ≠ ∅ →
   long_words (_preprocess_text b) ⊆ long_words (_preprocess_text a) →
   (calculate_keyword_overlap a b == 100)%Q)
  ∧ (long_words (_preprocess_text a) ∩ long_words (_preprocess_text b) = ∅ →
     (calculate_keyword_overlap a b == 0)%Q).
Proof.
  split.
  - intros Hne Hsub. rewrite keyword_overlap_by_sets.
    rewrite decide_False by done.
    assert (Hcap : long_words (_preprocess_text a) ∩ long_words (_preprocess_text b)
                   = long_words (_preprocess_text b)).
    { apply set_eq. intros w. rewrite elem_of_intersection. split; [tauto|].
      intros Hw. split; [by apply Hsub|done]. }
    rewrite Hcap. apply Qeq_trans with (round1 100); [|apply round1_100].
    apply round1_comp.
    assert (Hn : size (long_words (_preprocess_text b)) ≠ 0).
    { by intros ?%size_empty_inv%leibniz_equiv. }
    assert (Hq : (inject_Z (Z.of_nat (size (long_words (_preprocess_text b))))
                  / inject_Z (Z.of_nat (size (long_words (_preprocess_text b)))) * 100
                  == 100)%Q).
    { unfold Qdiv. rewrite Qmult_inv_r; [reflexivity|].
      intros H0. unfold Qeq in H0. cbn [Qnum Qden inject_Z] in H0. lia. }
    rewrite Q.min_l; [done|]. rewrite Hq. lra.
  - intros Hcap. rewrite keyword_overlap_by_sets.
    destruct (decide _); [reflexivity|].
    rewrite Hcap, size_empty. apply round1_min_0.
Qed.

(** Tests on the word lists, to compute with. *)
Lemma long_words_subseteq_test ca cb :
  forallb (λ w, negb (2 <? length w) || bool_decide (w ∈ split ca)) (split cb) = true →
  long_words cb ⊆ long_words ca.
Proof.
  rewrite forallb_forall. intros Hall w [Hlen Hw]%long_words_elem.
  apply long_words_elem. split; [done|].
  apply list_elem_of_In, Hall in Hw.
  apply orb_true_iff in Hw as [Hw|Hw].
  - apply negb_true_iff, Nat.ltb_ge in Hw. lia.
  - by apply bool_decide_eq_true in Hw.
Qed.

Lemma long_words_disjoint_test ca cb :
  forallb (λ w, negb (bool_decide (w ∈ split cb))) (split ca) = true →
  long_words ca ∩ long_words cb = ∅.
Proof.
  rewrite forallb_forall. intros Hall. apply elem_of_equiv_empty_L.
  intros w [[_ Ha]%long_words_elem [_ Hb]%long_words_elem]%elem_of_intersection.
  apply list_elem_of_In, Hall, negb_true_iff, bool_decide_eq_false in Ha. done.
Qed.

Lemma long_words_nonempty_test clean :
  existsb (λ w, 2 <? length w) (split clean) = true → long_words clean ≠ ∅.
Proof.
  rewrite existsb_exists. intros (w & Hw & Hlen) E.
  assert (Hin : w ∈ long_words clean).
  { apply long_words_elem. split; [by apply Nat.ltb_lt|by apply list_elem_of_In]. }
  rewrite E in Hin. by apply not_elem_of_empty in Hin.
Qed.

(** X4 at a job text that repeats words of the profile. *)
Lemma keyword_overlap_extremes_witness :
  (calculate_keyword_overlap (py "Senior Python developer, Istanbul")
     (py "python PYTHON developer") == 100)%Q
  ∧ (calculate_keyword_overlap (py "Senior Python developer") (py "Java architect") == 0)%Q.
Proof.
  split.
  - apply (proj1 (keyword_overlap_extremes _ _)).
    + apply long_words_nonempty_test. vm_compute. reflexivity.
    + apply long_words_subseteq_test. vm_compute. reflexivity.
  - apply (proj2 (keyword_overlap_extremes _ _)).
    apply long_words_disjoint_test. vm_compute. reflexivity.
Defined.

(** X5. The keyword overlap depends on the two texts only through their sets
    of words of more than two characters: the order of the words, their
    repetition and the shorter words do not count. *)
Theorem keyword_overlap_depends_on_word_sets (a a' b b' : str) :
  long_words (_preprocess_text a) = long_words (_preprocess_text a') →
  long_words (_preprocess_text b) = long_words (_preprocess_text b') →
  (calculate_keyword_overlap a b == calculate_keyword_overlap a' b')%Q.
Proof.
  intros Ha Hb. rewrite !keyword_overlap_by_sets, Ha, Hb. reflexivity.
Qed.

(** X5 at two profiles with the same words in another order, one with a
    two-letter word more. *)
Lemma keyword_overlap_depends_on_word_sets_witness :
  (calculate_keyword_overlap (py "python docker python") (py "docker engineer")
   == calculate_keyword_overlap (py "docker in python") (py "engineer, docker"))%Q.
Proof.
  apply keyword_overlap_depends_on_word_sets;
    (apply set_eq; intros w; split; revert w;
     apply long_words_subseteq_test; vm_compute; reflexivity).
Defined.

(** ** What the scrapers return and request *)

Lemma resolve_link_cases origin href :
  startswith (py "http") origin = true →
  resolve_link origin href = py "#"
  ∨ startswith (py "http") (resolve_link origin href) = true.
Proof.
  intros Ho. unfold resolve_link.
  destruct (startswith (py "/") href).
  - right. apply startswith_spec in Ho as [rest ->].
    apply startswith_spec. exists (rest ++ href). by rewrite app_assoc.
  - destruct (startswith (py "http") href) eqn:Hh; auto.
Qed.

Lemma take_length_bounds (n m : nat) (s : str) :
  m < length s → m < n → m < length (take n s) ≤ n.
Proof. intros Hs Hn. rewrite length_take. lia. Qed.

Section linkedin_more.
Context {elem : Type} {parser : Soup elem} {session : Http elem} {urllib : UrlQuote}.
Import LinkedInBot.

Lemma linkedin_description_loop_bounds soup sels text :
  description_loop soup sels = Some text → 50 < length text ≤ 2000.
Proof.
  induction sels as [|[tag cls] rest IH]; [done|]. cbn [description_loop].
  destruct (find soup [tag] (ClassHas cls)) as [e|]; [|done].
  destruct (50 <? length (get_text e (py " "))) eqn:Hlen; [|done].
  pose proof (take_length_bounds 2000 50 (get_text e (py " "))) as Hb.
  apply Nat.ltb_lt in Hlen.
  change (take 2000 (get_text e (py " "))) with (slice_to 2000 (get_text e (py " "))) in Hb.
  set (d := slice_to 2000 _) in *. clearbody d.
  intros [= <-]. apply Hb; lia.
Qed.

Lemma linkedin_description_fallback_bounds divs :
  description_fallback divs = [] ∨ 100 < length (description_fallback divs) ≤ 2000.
Proof.
  induction divs as [|div rest IH]; [by left|]. cbn [description_fallback].
  destruct (100 <? length (get_text div [])) eqn:Hlo; [|done].
  destruct (length (get_text div []) <? 5000); [|done].
  destruct (contains _ _); [|done]. cbn [andb].
  right. apply Nat.ltb_lt in Hlo.
  pose proof (take_length_bounds 2000 100 (get_text div [])) as Hb.
  change (take 2000 (get_text div [])) with (slice_to 2000 (get_text div [])) in Hb.
  set (d := slice_to 2000 _) in *. clearbody d. lia.
Qed.

Lemma linkedin_fetch_description_spec (job_url : str) (log : list str) :
  (_fetch_job_description job_url log).2 = log ++ [job_url]
  ∧ ((_fetch_job_description job_url log).1 = []
     ∨ 50 < length (_fetch_job_description job_url log).1 ≤ 2000)
  ∧ ((∀ soup, http_get log job_url ≠ Response 200 soup) →
     (_fetch_job_description job_url log).1 = []).
Proof.
  unfold _fetch_job_description, mbind, io_bind, session_get, mret, io_ret.
  destruct (http_get log job_url) as [|status soup] eqn:Hget.
  { split_and!; auto. }
  destruct (status =? 200) eqn:Hst; cbn [negb].
  2:{ split_and!; auto. }
  apply Nat.eqb_eq in Hst as ->.
  destruct (description_loop soup description_selectors) as [text|] eqn:Hd.
  - apply linkedin_description_loop_bounds in Hd.
    split_and!; [done|by right|]. intros Hne. by destruct (Hne soup).
  - split_and!; [done| |].
    + destruct (linkedin_description_fallback_bounds
                  (find_all soup [py "div"] (HasAttr (py "class")))) as [->|Hb];
        [by left|right; cbn [fst]; lia].
    + intros Hne. by destruct (Hne soup).
Qed.

(** X6. Fetching a job description makes exactly one request, for the given
    URL; the text returned is empty, or has more than 50 and at most 2000
    characters; it is empty when the request fails or the status is not 200. *)
Theorem fetch_job_description_bounds (job_url : str) (log : list str) :
  (_fetch_job_description job_url log).2 = log ++ [job_url]
  ∧ ((_fetch_job_description job_url log).1 = []
     ∨ 50 < length (_fetch_job_description job_url log).1 ≤ 2000)
  ∧ ((∀ soup, http_get log job_url ≠ Response 200 soup) →
     (_fetch_job_description job_url log).1 = []).
Proof. apply linkedin_fetch_description_spec. Qed.

Lemma linkedin_extract_record card raw :
  _extract_job_data card = Some raw →
  (link raw = py "#" ∨ startswith (py "http") (link raw) = true)
  ∧ description raw = [].
Proof.
  unfold _extract_job_data.
  destruct (recovered_title card) as [[|c t]|]; try done.
  intros [= <-]. cbn [link description]. split; [|done].
  unfold extract_link. destruct (find card [py "a"] (HasAttr (py "href"))); [|by left].
  by apply resolve_link_cases.
Qed.

Lemma linkedin_process_card_record role card jobs :
  process_card role card jobs = jobs
  ∨ ∃ j, process_card role card jobs = jobs ++ [j] ∧ linkedin_accepted j.
Proof.
  unfold process_card.
  destruct (_extract_job_data card) as [raw|] eqn:Hraw; [|by left].
  apply linkedin_extract_record in Hraw as [Hlink Hdesc].
  destruct (nonempty (title raw)); [|by left].
  destruct (has_char "*" (title raw)) eqn:Ht;
    destruct (has_char "*" (company raw)) eqn:Hc; cbn beta iota zeta;
    match goal with
    | |- context [(length ?t <? 3) || (10 <? ?n)] =>
        destruct (length t <? 3) eqn:Hlen; cbn [orb];
        [by left|destruct (10 <? n) eqn:Hsp; [by left|]]
    end;
    match goal with
    | |- context [is_duplicate ?t ?c jobs] =>
        destruct (is_duplicate t c jobs); [by left|]
    end;
    right; apply Nat.ltb_ge in Hlen; apply Nat.ltb_ge in Hsp;
    eexists; (split; [reflexivity|]); unfold linkedin_accepted;
    cbn [title company link description set_title set_company]; split_and!; done.
Qed.

Lemma linkedin_accepted_invariant role max_jobs er el pages log :
  Forall linkedin_accepted (pages_loop role max_jobs er el pages [] log).1.
Proof.
  apply (linkedin_pages_loop_inv (Forall linkedin_accepted)); [|constructor].
  intros card jobs Hjobs _.
  destruct (linkedin_process_card_record role card jobs) as [->|(j & -> & Hj)]; [done|].
  apply Forall_app. split; [done|]. constructor; [done|constructor].
Qed.

(** The description loop requests the links that are not ["#"], in order,
    and only changes descriptions, to texts of 51 to 2000 characters. *)
Lemma linkedin_descriptions_loop_full jobs log :
  Forall2 (λ j j', title j' = title j ∧ company j' = company j ∧ link j' = link j
                   ∧ (description j' = description j
                      ∨ 50 < length (description j') ≤ 2000))
    jobs (descriptions_loop jobs log).1
  ∧ (descriptions_loop jobs log).2
    = log ++ map link (filter (λ j, nonempty (link j)
                                    && negb (str_eqb (link j) (py "#")) = true) jobs).
Proof.
  revert log. induction jobs as [|j jobs IH]; intros log.
  { split; [constructor|by rewrite app_nil_r]. }
  rewrite linkedin_descriptions_loop_cons, filter_cons.
  destruct (nonempty (link j) && negb (str_eqb (link j) (py "#"))) eqn:Hcond.
  - rewrite decide_True by done.
    destruct (linkedin_fetch_description_spec (link j) log) as (Hlog & Hd & _).
    destruct (_fetch_job_description (link j) log) as [desc log1].
    cbn [fst snd] in Hlog, Hd. subst log1.
    destruct (IH (log ++ [link j])) as [IH1 IH2].
    destruct (descriptions_loop jobs (log ++ [link j])) as [rest log2].
    cbn [fst snd] in *. split.
    + constructor; [|done]. destruct desc as [|c desc]; cbn [nonempty].
      * auto.
      * split_and!; try done. right. destruct Hd as [Hd|Hd]; [done|exact Hd].
    + rewrite IH2. by rewrite <- app_assoc.
  - rewrite decide_False by done.
    destruct (IH log) as [IH1 IH2].
    destruct (descriptions_loop jobs log) as [rest log2].
    cbn [fst snd] in *. split; [|done]. constructor; auto.
Qed.

(** The page loop requests the first result pages, in order. *)
Lemma linkedin_pages_loop_requests role max_jobs er el pages jobs log :
  ∃ k, (pages_loop role max_jobs er el pages jobs log).2
       = log ++ map (search_url er el) (take k pages).
Proof.
  revert jobs log. induction pages as [|page rest IH]; intros jobs log.
  { exists 0. by rewrite app_nil_r. }
  rewrite linkedin_pages_loop_cons.
  destruct (budget_reached max_jobs jobs).
  { exists 0. by rewrite app_nil_r. }
  cbv zeta.
  assert (Hrest : ∀ jobs', ∃ k,
    (pages_loop role max_jobs er el rest jobs' (log ++ [search_url er el page])).2
    = log ++ map (search_url er el) (take k (page :: rest))).
  { intros jobs'. destruct (IH jobs' (log ++ [search_url er el page])) as [k ->].
    exists (S k). by rewrite <- app_assoc. }
  destruct (http_get log _) as [|st soup]; [apply Hrest|].
  destruct (raises_for_status st); apply Hrest.
Qed.

(** When every request fails the page loop tries every page and accepts
    nothing. *)
Lemma linkedin_pages_loop_failing role max_jobs er el pages log :
  (0 < max_jobs)%Z →
  (∀ log url, match http_get log url with
              | RequestException => True
              | Response status_code _ => 400 ≤ status_code < 600
              end) →
  pages_loop role max_jobs er el pages [] log
  = ([], log ++ map (search_url er el) pages).
Proof.
  intros Hmax Hfail. revert log. induction pages as [|page rest IH]; intros log.
  { by rewrite app_nil_r. }
  rewrite linkedin_pages_loop_cons.
  assert (budget_reached max_jobs [] = false) as -> by (apply budget_reached_false; simpl; lia).
  cbv zeta. specialize (Hfail log (search_url er el page)).
  destruct (http_get log _) as [|st soup].
  - rewrite IH. by rewrite <- app_assoc.
  - assert (raises_for_status st = true) as ->.
    { unfold raises_for_status. apply andb_true_iff.
      split; [apply Nat.leb_le|apply Nat.ltb_lt]; lia. }
    rewrite IH. by rewrite <- app_assoc.
Qed.
End linkedin_more.

Section kariyer_more.
Context {elem : Type} {parser : Soup elem} {session : Http elem} {urllib : UrlQuote}.
Import KariyerNetBot.

Lemma kariyer_extract_company card :
  extract_company card ≠ [] ∧ has_char "*" (extract_company card) = false.
Proof.
  unfold extract_company.
  destruct (find card _ _) as [e|]; [|done].
  destruct (get_text e []) as [|c t] eqn:Ht; [done|]. cbn [nonempty negb orb].
  by destruct (has_char "*" (c :: t)) eqn:Hs.
Qed.

Lemma kariyer_extract_link card :
  extract_link card = py "#" ∨ startswith (py "http") (extract_link card) = true.
Proof.
  unfold extract_link.
  destruct (find card [py "a"] (HasAttr (py "href"))); [|by left].
  by apply resolve_link_cases.
Qed.

(** The page loop requests the first result pages, in order. *)
Lemma kariyer_pages_loop_requests role max_jobs er el ps jobs log :
  ∃ k, (pages_loop role max_jobs er el ps jobs log).2
       = log ++ map (search_url er el) (take k ps).
Proof.
  revert jobs log. induction ps as [|page rest IH]; intros jobs log.
  { exists 0. by rewrite app_nil_r. }
  rewrite kariyer_pages_loop_cons.
  destruct (budget_reached max_jobs jobs).
  { exists 0. by rewrite app_nil_r. }
  cbv zeta.
  assert (Hrest : ∀ jobs', ∃ k,
    (pages_loop role max_jobs er el rest jobs' (log ++ [search_url er el page])).2
    = log ++ map (search_url er el) (take k (page :: rest))).
  { intros jobs'. destruct (IH jobs' (log ++ [search_url er el page])) as [k ->].
    exists (S k). by rewrite <- app_assoc. }
  destruct (http_get log _) as [|st soup]; [apply Hrest|].
  destruct (negb (st =? 200)); apply Hrest.
Qed.

Lemma kariyer_pages_loop_failing role max_jobs er el ps log :
  (0 < max_jobs)%Z →
  (∀ log url soup, http_get log url ≠ Response 200 soup) →
  pages_loop role max_jobs er el ps [] log = ([], log ++ map (search_url er el) ps).
Proof.
  intros Hmax Hfail. revert log. induction ps as [|page rest IH]; intros log.
  { by rewrite app_nil_r. }
  rewrite kariyer_pages_loop_cons.
  assert (budget_reached max_jobs [] = false) as -> by (apply budget_reached_false; simpl; lia).
  cbv zeta. pose proof (Hfail log (search_url er el page)) as Hf.
  destruct (http_get log _) as [|st soup].
  - rewrite IH. by rewrite <- app_assoc.
  - destruct (st =? 200) eqn:Hst.
    + apply Nat.eqb_eq in Hst as ->. by destruct (Hf soup).
    + cbn [negb]. rewrite IH. by rewrite <- app_assoc.
Qed.
End kariyer_more.

Lemma filter_link_not_hash (jobs : list job) :
  Forall (λ j, link j = py "#" ∨ startswith (py "http") (link j) = true) jobs →
  filter (λ j, nonempty (link j) && negb (str_eqb (link j) (py "#")) = true) jobs
  = filter (λ j, link j ≠ py "#") jobs.
Proof.
  induction 1 as [|j jobs Hj _ IH]; [done|].
  rewrite !filter_cons, IH.
  destruct Hj as [Hj|Hj].
  - rewrite Hj. rewrite decide_False by (vm_compute; congruence).
    by rewrite decide_False by (by intros []).
  - assert (Hne : link j ≠ py "#").
    { intros E. rewrite E in Hj. vm_compute in Hj. done. }
    assert (Hnz : nonempty (link j) = true).
    { destruct (link j); [vm_compute in Hj; done|done]. }
    rewrite Hnz. unfold str_eqb. rewrite bool_decide_eq_false_2 by done.
    by rewrite !decide_True.
Qed.

Lemma Forall2_Forall_transfer {A} (P Q : A → Prop) (R : A → A → Prop) l l' :
  (∀ x y, R x y → P x → Q y) → Forall2 R l l' → Forall P l → Forall Q l'.
Proof.
  intros HR. induction 1 as [|x y l l' Hxy _ IH]; [constructor|].
  inversion 1; subst. constructor; eauto.
Qed.

(** X7. Every job the LinkedIn search returns has a title of at least three
    characters with at most ten blanks, a company without asterisk, a link
    that is ["#"] or starts with [http], and a description that is empty or has
    more than 50 and at most 2000 characters. *)
Theorem linkedin_search_records {elem : Type} {parser : Soup elem} {session : Http elem}
    {urllib : UrlQuote} (role location : str) (max_jobs : Z) (log : list str) :
  ∃ jobs,
    (LinkedInBot.search_jobs role location max_jobs log).1 = Returned jobs
    ∧ Forall (λ j, 3 ≤ length (title j) ∧ count_char " " (title j) ≤ 10
                   ∧ has_char "*" (company j) = false
                   ∧ (link j = py "#" ∨ startswith (py "http") (link j) = true)
                   ∧ (description j = [] ∨ 50 < length (description j) ≤ 2000)) jobs.
Proof.
  unfold LinkedInBot.search_jobs, mbind, io_bind, mret, io_ret.
  pose proof (linkedin_accepted_invariant role max_jobs (quote role) (quote location)
                LinkedInBot.page_starts log) as Hacc.
  destruct (LinkedInBot.pages_loop _ _ _ _ _ _ _) as [jobs log1].
  destruct (linkedin_descriptions_loop_full jobs log1) as [Hrel _].
  destruct (LinkedInBot.descriptions_loop jobs log1) as [jobs' log2].
  cbn [fst snd] in *. exists jobs'. split; [done|].
  eapply Forall2_Forall_transfer; [|exact Hrel|exact Hacc].
  intros j j' (Ht & Hc & Hl & Hd) (H1 & H2 & H3 & H4 & H5).
  rewrite Ht, Hc, Hl. split_and!; try done.
  rewrite H5 in Hd. destruct Hd; auto.
Qed.

(** X8. Every job the Kariyer search returns has a company that is neither
    empty nor masked, a link that is ["#"] or starts with [http], and a title
    that is the search role or has at least three characters and no
    asterisk. *)
Theorem kariyer_search_records {elem : Type} {parser : Soup elem} {session : Http elem}
    {urllib : UrlQuote} (role location : str) (max_jobs : Z) (log : list str) :
  ∃ jobs,
    (KariyerNetBot.search_jobs role location max_jobs log).1 = Returned jobs
    ∧ Forall (λ j, company j ≠ [] ∧ has_char "*" (company j) = false
                   ∧ (link j = py "#" ∨ startswith (py "http") (link j) = true)
                   ∧ (title j = role
                      ∨ 3 ≤ length (title j) ∧ has_char "*" (title j) = false)) jobs.
Proof.
  rewrite kariyer_search_jobs_eq. eexists. split; [reflexivity|].
  eapply Forall_impl; [apply kariyer_extracted_invariant|].
  intros j [card [= <-]]. cbn [title company link].
  destruct (kariyer_extract_company card) as [Hc1 Hc2].
  split_and!; [done|done|apply kariyer_extract_link|].
  destruct (kariyer_extract_title_cases card role)
    as [(t & _ & Hlen & Hstar & ->)|[_ ->]]; auto.
Qed.

(** X9. The requests of a LinkedIn search are the first result pages, in
    the order of the page list, followed by one request for the link of each
    returned job whose link is not ["#"], in the order of the result. The
    requests of a Kariyer search are the first result pages only. *)
Theorem search_requests {elem : Type} {parser : Soup elem} {session : Http elem}
    {urllib : UrlQuote} (role location : str) (max_jobs : Z) (log : list str) :
  (∃ jobs k,
     LinkedInBot.search_jobs role location max_jobs log
     = (Returned jobs,
        log ++ map (LinkedInBot.search_url (quote role) (quote location))
                 (take k LinkedInBot.page_starts)
            ++ map link (filter (λ j, link j ≠ py "#") jobs)))
  ∧ (∃ jobs k,
       KariyerNetBot.search_jobs role location max_jobs log
       = (Returned jobs,
          log ++ map (KariyerNetBot.search_url (quote (lower role)) (quote (lower location)))
                   (take k KariyerNetBot.pages))).
Proof.
  split.
  - unfold LinkedInBot.search_jobs, mbind, io_bind, mret, io_ret.
    pose proof (linkedin_accepted_invariant role max_jobs (quote role) (quote location)
                  LinkedInBot.page_starts log) as Hacc.
    destruct (linkedin_pages_loop_requests role max_jobs (quote role) (quote location)
                LinkedInBot.page_starts [] log) as [k Hk].
    destruct (LinkedInBot.pages_loop _ _ _ _ _ _ _) as [jobs log1].
    destruct (linkedin_descriptions_loop_full jobs log1) as [Hrel Hlog].
    destruct (LinkedInBot.descriptions_loop jobs log1) as [jobs' log2].
    cbn [fst snd] in *. exists jobs', k. subst log1 log2.
    rewrite <- app_assoc. do 3 f_equal.
    assert (Hlinks : Forall (λ j, link j = py "#"
                                  ∨ startswith (py "http") (link j) = true) jobs).
    { eapply Forall_impl; [exact Hacc|]. by intros j (_ & _ & _ & ? & _). }
    rewrite filter_link_not_hash by done.
    clear Hacc Hlinks. induction Hrel as [|j j' l l' (_ & _ & Hl & _) _ IH]; [done|].
    rewrite !filter_cons, Hl.
    destruct (decide (link j ≠ py "#")); [|done]. cbn [map]. by rewrite IH, Hl.
  - rewrite kariyer_search_jobs_eq. cbv zeta.
    destruct (kariyer_pages_loop_requests role max_jobs (quote (lower role))
                (quote (lower location)) KariyerNetBot.pages [] log) as [k Hk].
    eexists _, k. by rewrite <- Hk.
Qed.

(** ** Exceptions of another class *)

Section raising_facts.
Context {elem : Type} {parser : Soup elem} {session : Http elem} {urllib : UrlQuote}
        {errors : PageErrors}.

Lemma linkedin_raising_pages_loop_cons role max_jobs er el page rest jobs log :
  LinkedInBotRaising.pages_loop role max_jobs er el (page :: rest) jobs log =
  if budget_reached max_jobs jobs then (Returned jobs, log)
  else
    let url := LinkedInBot.search_url er el page in
    match page_error log url with
    | Some msg => (Raised (OtherError msg), log ++ [url])
    | None =>
        match http_get log url with
        | RequestException =>
            LinkedInBotRaising.pages_loop role max_jobs er el rest jobs (log ++ [url])
        | Response status_code soup =>
            if LinkedInBot.raises_for_status status_code
            then LinkedInBotRaising.pages_loop role max_jobs er el rest jobs (log ++ [url])
            else LinkedInBotRaising.pages_loop role max_jobs er el rest
                   (LinkedInBot.cards_loop role max_jobs (LinkedInBot.find_job_cards soup)
                      jobs)
                   (log ++ [url])
        end
    end.
Proof. cbn [LinkedInBotRaising.pages_loop]. by destruct (budget_reached max_jobs jobs). Qed.

(** The page loop returns what the loop of a session returns on which the
    exceptions of another class are failed requests, or it raises the first
    such exception that a page it requests meets. *)
Lemma linkedin_raising_pages_loop_spec role max_jobs er el pages jobs log :
  match LinkedInBotRaising.pages_loop role max_jobs er el pages jobs log with
  | (Returned jobs', log') =>
      LinkedInBot.pages_loop (session := caught) role max_jobs er el pages jobs log
      = (jobs', log')
  | (Raised e, log') =>
      ∃ k page msg,
        pages !! k = Some page
        ∧ page_error (log ++ map (LinkedInBot.search_url er el) (take k pages))
            (LinkedInBot.search_url er el page) = Some msg
        ∧ (∀ i p, i < k → pages !! i = Some p →
                  page_error (log ++ map (LinkedInBot.search_url er el) (take i pages))
                    (LinkedInBot.search_url er el p) = None)
        ∧ e = OtherError msg
        ∧ log' = log ++ map (LinkedInBot.search_url er el) (take (S k) pages)
  end.
Proof.
  revert jobs log. induction pages as [|page0 rest IH]; intros jobs log; [done|].
  rewrite linkedin_raising_pages_loop_cons, (linkedin_pages_loop_cons (session := caught)).
  destruct (budget_reached max_jobs jobs); [done|]. cbv zeta.
  unfold http_get at 2, caught.
  destruct (page_error log (LinkedInBot.search_url er el page0)) as [msg|] eqn:Herr.
  { exists 0, page0, msg. cbn [take map]. rewrite app_nil_r.
    split_and!; try done. intros i p Hi. lia. }
  assert (Hrest : ∀ jobs1,
    match LinkedInBotRaising.pages_loop role max_jobs er el rest jobs1
            (log ++ [LinkedInBot.search_url er el page0]) with
    | (Returned jobs', log') =>
        LinkedInBot.pages_loop (session := caught) role max_jobs er el rest jobs1
          (log ++ [LinkedInBot.search_url er el page0]) = (jobs', log')
    | (Raised e, log') =>
        ∃ k page msg,
          (page0 :: rest) !! k = Some page
          ∧ page_error (log ++ map (LinkedInBot.search_url er el) (take k (page0 :: rest)))
              (LinkedInBot.search_url er el page) = Some msg
          ∧ (∀ i p, i < k → (page0 :: rest) !! i = Some p →
                    page_error
                      (log ++ map (LinkedInBot.search_url er el) (take i (page0 :: rest)))
                      (LinkedInBot.search_url er el p) = None)
          ∧ e = OtherError msg
          ∧ log' = log ++ map (LinkedInBot.search_url er el) (take (S k) (page0 :: rest))
    end).
  { intros jobs1. specialize (IH jobs1 (log ++ [LinkedInBot.search_url er el page0])).
    destruct (LinkedInBotRaising.pages_loop _ _ _ _ rest jobs1 _) as [[jobs'|e] log'];
      [done|].
    destruct IH as (k & page & msg & Hk & Hmsg & Hbefore & -> & ->).
    exists (S k), page, msg. split_and!; [done| | |done|].
    - cbn [take map]. by rewrite cons_middle, app_assoc.
    - intros [|i] p Hi Hp.
      + injection Hp as <-. cbn [take map]. by rewrite app_nil_r.
      + cbn [take map]. rewrite cons_middle, app_assoc.
        apply Hbefore; [lia|done].
    - cbn [take map]. by rewrite <- !app_assoc. }
  destruct (http_get log (LinkedInBot.search_url er el page0)) as [|st soup];
    [apply Hrest|].
  destruct (LinkedInBot.raises_for_status st); apply Hrest.
Qed.

Lemma linkedin_raising_search_spec role location max_jobs log :
  match LinkedInBotRaising.search_jobs role location max_jobs log with
  | (Returned jobs, log') =>
      LinkedInBot.search_jobs (session := caught) role location max_jobs log
      = (Returned jobs, log')
  | (Raised e, log') =>
      ∃ k page msg,
        LinkedInBot.page_starts !! k = Some page
        ∧ page_error
            (log ++ map (LinkedInBot.search_url (quote role) (quote location))
                      (take k LinkedInBot.page_starts))
            (LinkedInBot.search_url (quote role) (quote location) page) = Some msg
        ∧ (∀ i p, i < k → LinkedInBot.page_starts !! i = Some p →
                  page_error
                    (log ++ map (LinkedInBot.search_url (quote role) (quote location))
                              (take i LinkedInBot.page_starts))
                    (LinkedInBot.search_url (quote role) (quote location) p) = None)
        ∧ e = OtherError msg
        ∧ log' = log ++ map (LinkedInBot.search_url (quote role) (quote location))
                          (take (S k) LinkedInBot.page_starts)
  end.
Proof.
  unfold LinkedInBotRaising.search_jobs, LinkedInBot.search_jobs,
    mbind, io_bind, mret, io_ret.
  pose proof (linkedin_raising_pages_loop_spec role max_jobs (quote role) (quote location)
                LinkedInBot.page_starts [] log) as Hpages.
  destruct (LinkedInBotRaising.pages_loop _ _ _ _ _ _ _) as [[jobs|e] log1]; [|done].
  rewrite Hpages.
  by destruct (LinkedInBot.descriptions_loop jobs log1) as [jobs' log2].
Qed.

(** Without such exceptions the search is the search of the session. *)
Lemma linkedin_raising_pages_loop_plain role max_jobs er el pages jobs log :
  (∀ log url, page_error log url = None) →
  LinkedInBotRaising.pages_loop role max_jobs er el pages jobs log
  = let r := LinkedInBot.pages_loop role max_jobs er el pages jobs log in
    (Returned r.1, r.2).
Proof.
  intros Hnone. revert jobs log. induction pages as [|page0 rest IH]; intros jobs log;
    [done|].
  rewrite linkedin_raising_pages_loop_cons, linkedin_pages_loop_cons.
  destruct (budget_reached max_jobs jobs); [done|]. cbv zeta.
  rewrite Hnone.
  destruct (http_get log _) as [|st soup]; [apply IH|].
  destruct (LinkedInBot.raises_for_status st); apply IH.
Qed.
End raising_facts.

(** X10. With a positive budget, when every request of the LinkedIn search
    raises a [RequestException] or is answered with an error status (4xx or
    5xx), the search requests each of the eight result pages once, in order, and
    returns the empty list. So does the Kariyer search when every request raises
    an exception, of whatever class, or is answered with another status than
    200. When the first request of the LinkedIn search raises an exception of
    another class than [RequestException], the search raises that exception
    after this one request. *)
Theorem search_on_failing_network {elem : Type} {parser : Soup elem} {session : Http elem}
    {urllib : UrlQuote} {errors : PageErrors} (role location : str) (max_jobs : Z)
    (log : list str) :
  (0 < max_jobs)%Z →
  ((∀ log url, page_error log url = None
               ∧ match http_get log url with
                 | RequestException => True
                 | Response status_code _ => 400 ≤ status_code < 600
                 end) →
   LinkedInBotRaising.search_jobs role location max_jobs log
   = (Returned [],
      log ++ map (LinkedInBot.search_url (quote role) (quote location))
               LinkedInBot.page_starts))
  ∧ ((∀ log url, page_error log url ≠ None
                 ∨ ∀ soup, http_get log url ≠ Response 200 soup) →
     KariyerNetBot.search_jobs (session := caught) role location max_jobs log
     = (Returned [],
        log ++ map (KariyerNetBot.search_url (quote (lower role)) (quote (lower location)))
                 KariyerNetBot.pages))
  ∧ (∀ msg,
       page_error log (LinkedInBot.search_url (quote role) (quote location) 0) = Some msg →
       LinkedInBotRaising.search_jobs role location max_jobs log
       = (Raised (OtherError msg),
          log ++ [LinkedInBot.search_url (quote role) (quote location) 0])).
Proof.
  intros Hmax. split_and!.
  - intros Hfail. unfold LinkedInBotRaising.search_jobs.
    rewrite linkedin_raising_pages_loop_plain by (intros; apply Hfail). cbv zeta.
    rewrite linkedin_pages_loop_failing; [done..|].
    intros log0 url. apply Hfail.
  - intros Hfail. rewrite kariyer_search_jobs_eq.
    rewrite kariyer_pages_loop_failing; [done..|].
    intros log0 url soup. unfold http_get, caught.
    destruct (Hfail log0 url) as [Herr|Hget].
    + by destruct (page_error log0 url).
    + destruct (page_error log0 url); [done|apply Hget].
  - intros msg Herr. unfold LinkedInBotRaising.search_jobs.
    change LinkedInBot.page_starts with (0 :: [25; 50; 75; 100; 125; 150; 175]).
    rewrite linkedin_raising_pages_loop_cons.
    assert (budget_reached max_jobs [] = false) as ->
      by (apply budget_reached_false; simpl; lia).
    cbv zeta. by rewrite Herr.
Qed.

(** X10 on the network that is down, and on one whose first request raises
    an exception of another class. *)
Lemma search_on_failing_network_witness :
  (LinkedInBotRaising.search_jobs (elem := Dom.node) (session := Dom.offline)
     (urllib := Dom.plain_quote) (errors := SampleApi.no_errors)
     (py "Python Developer") (py "Istanbul") 10 []).1
  = Returned []
  ∧ length (KariyerNetBot.search_jobs (elem := Dom.node)
              (session := caught (session := Dom.offline)
                            (errors := SampleApi.first_page_error))
              (urllib := Dom.plain_quote) (py "Python Developer") (py "Istanbul") 10 []).2
    = 8
  ∧ LinkedInBotRaising.search_jobs (elem := Dom.node) (session := Dom.offline)
      (urllib := Dom.plain_quote) (errors := SampleApi.first_page_error)
      (py "Python Developer") (py "Istanbul") 10 []
    = (Raised (OtherError (py "invalid literal")),
       [LinkedInBot.search_url (py "Python Developer") (py "Istanbul") 0]).
Proof.
  split_and!.
  - rewrite (proj1 (search_on_failing_network (elem := Dom.node) (session := Dom.offline)
                      (urllib := Dom.plain_quote) (errors := SampleApi.no_errors)
                      (py "Python Developer") (py "Istanbul") 10 [] ltac:(lia)));
      [reflexivity|]. intros log url. split; [reflexivity|exact I].
  - rewrite (proj1 (proj2 (search_on_failing_network (elem := Dom.node)
                             (session := Dom.offline) (urllib := Dom.plain_quote)
                             (errors := SampleApi.first_page_error)
                             (py "Python Developer") (py "Istanbul") 10 [] ltac:(lia))));
      [reflexivity|]. intros log url. right. intros soup. discriminate.
  - apply (proj2 (proj2 (search_on_failing_network (elem := Dom.node)
                           (session := Dom.offline) (urllib := Dom.plain_quote)
                           (errors := SampleApi.first_page_error)
                           (py "Python Developer") (py "Istanbul") 10 [] ltac:(lia)))).
    reflexivity.
Defined.

(** ** Sorting by decreasing key *)

Lemma insert_desc_perm {A} (ltb : A → A → bool) x l : insert_desc ltb x l ≡ₚ x :: l.
Proof.
  induction l as [|y l IH]; [done|]. simpl.
  destruct (ltb x y); [|done]. rewrite IH. apply Permutation_swap.
Qed.

Lemma sorted_desc_perm {A} (ltb : A → A → bool) l : sorted_desc ltb l ≡ₚ l.
Proof.
  induction l as [|x l IH]; [done|]. simpl.
  by rewrite insert_desc_perm, IH.
Qed.

Section sorted_by_key.
Context {A : Type} (key : A → nat).

Lemma insert_desc_sorted x l :
  StronglySorted (λ a b, key b ≤ key a) l →
  StronglySorted (λ a b, key b ≤ key a) (insert_desc (λ a b, key a <? key b) x l).
Proof.
  induction 1 as [|y l Hl IH Hy]; simpl.
  - repeat constructor.
  - destruct (key x <? key y) eqn:Hxy.
    + apply Nat.ltb_lt in Hxy. constructor; [done|].
      rewrite insert_desc_perm. constructor; [lia|done].
    + apply Nat.ltb_ge in Hxy. constructor; [by constructor|].
      constructor; [done|]. eapply Forall_impl; [exact Hy|]. simpl. lia.
Qed.

Lemma sorted_desc_sorted l :
  StronglySorted (λ a b, key b ≤ key a) (sorted_desc (λ a b, key a <? key b) l).
Proof.
  induction l as [|x l IH]; [constructor|]. simpl. by apply insert_desc_sorted.
Qed.

(** The first [k] elements of a sorted list have the largest keys. *)
Lemma sorted_take_drop k l r t :
  StronglySorted (λ a b, key b ≤ key a) l →
  r ∈ take k l → t ∈ drop k l → key t ≤ key r.
Proof.
  intros Hl. revert k. induction Hl as [|y l Hl IH Hy]; intros k Hr Ht.
  - by rewrite take_nil in Hr; apply elem_of_nil in Hr.
  - destruct k as [|k]; [by apply elem_of_nil in Hr|]. simpl in Hr, Ht.
    apply elem_of_cons in Hr as [->|Hr]; [|by eapply IH].
    rewrite Forall_forall in Hy. apply Hy.
    by apply (subseteq_drop k l).
Qed.
End sorted_by_key.

(** ** Keywords and job titles of a CV *)

Example extract_keywords_example :
  MainPy.extract_keywords (py "Senior JavaScript developer; REST API, Docker and CI/CD.")
  = map py ["javascript"; "java"; "docker"; "ci/cd"; "rest api"; "developer"]%string.
Proof. vm_compute. reflexivity. Qed.

Example guess_job_titles_example :
  MainPy.guess_job_titles [py "python"; py "docker"]
    (py "Backend  developer: Python, Django, Docker. Full-stack projects.")
  = map py ["Full Stack Developer"; "Backend Developer"; "Python Developer";
            "Data Engineer"]%string.
Proof. vm_compute. reflexivity. Qed.

Lemma lower_idem s : lower (lower s) = lower s.
Proof.
  unfold lower. rewrite map_map. apply map_ext. intros c.
  unfold lower_char at 1. by rewrite is_upper_lower_char.
Qed.

Lemma tech_keywords_NoDup : NoDup MainPy.tech_keywords.
Proof. apply (bool_decide_unpack _). vm_compute. exact I. Qed.

(** X11. [extract_keywords] returns at most 15 keywords, without
    repetition and in the order of the table; each of them is a keyword of the
    table that occurs in the text put in lower case; a keyword of the table that
    occurs in the text is returned unless 15 keywords were returned; and the
    case of the text does not matter. *)
Theorem extract_keywords_spec (text : str) :
  length (MainPy.extract_keywords text) ≤ 15
  ∧ NoDup (MainPy.extract_keywords text)
  ∧ MainPy.extract_keywords text `sublist_of` MainPy.tech_keywords
  ∧ (∀ k, k ∈ MainPy.extract_keywords text →
          k ∈ MainPy.tech_keywords ∧ contains k (lower text) = true)
  ∧ (∀ k, k ∈ MainPy.tech_keywords → contains k (lower text) = true →
          k ∈ MainPy.extract_keywords text ∨ length (MainPy.extract_keywords text) = 15)
  ∧ MainPy.extract_keywords (lower text) = MainPy.extract_keywords text.
Proof.
  unfold MainPy.extract_keywords. cbv zeta.
  set (found := filter _ MainPy.tech_keywords).
  assert (Hsub : take 15 found `sublist_of` MainPy.tech_keywords).
  { transitivity found; [apply sublist_take|apply sublist_filter]. }
  split_and!.
  - rewrite length_take. lia.
  - eapply sublist_NoDup; [apply tech_keywords_NoDup|exact Hsub].
  - done.
  - intros k Hk. apply (subseteq_take 15) in Hk.
    by apply list_elem_of_filter in Hk as [? ?].
  - intros k Hk Hc.
    assert (Hin : k ∈ found) by (by apply list_elem_of_filter).
    destruct (decide (length found ≤ 15)) as [Hle|Hgt].
    + left. by rewrite take_ge.
    + right. rewrite length_take. lia.
  - by rewrite lower_idem.
Qed.

(** ** The job titles guessed from a CV *)

Lemma criteria_titles_NoDup : NoDup (map fst MainPy.job_criteria).
Proof. apply (bool_decide_unpack _). vm_compute. exact I. Qed.

Lemma software_developer_no_criteria :
  py "Software Developer" ∉ map fst MainPy.job_criteria.
Proof. apply (bool_decide_unpack _). vm_compute. exact I. Qed.

Lemma NoDup_fst_inj {A B} (l : list (A * B)) x y :
  NoDup (map fst l) → x ∈ l → y ∈ l → x.1 = y.1 → x = y.
Proof.
  induction l as [|z l IH]; intros Hnd Hx Hy Heq; [by apply elem_of_nil in Hx|].
  simpl in Hnd. apply NoDup_cons in Hnd as [Hz Hnd].
  apply elem_of_cons in Hx as [->|Hx]; apply elem_of_cons in Hy as [->|Hy]; auto.
  - destruct Hz. rewrite Heq. by apply (list_elem_of_fmap_2 fst).
  - destruct Hz. rewrite <- Heq. by apply (list_elem_of_fmap_2 fst).
Qed.

Lemma StronglySorted_take_own {A} (R : A → A → Prop) k l :
  StronglySorted R l → StronglySorted R (take k l).
Proof.
  intros Hl. revert k. induction Hl as [|x l Hl IH Hx]; intros [|k]; simpl;
    try constructor; [apply IH|].
  eapply Forall_forall. intros y Hy%subseteq_take.
  rewrite Forall_forall in Hx. by apply Hx.
Qed.

Section guess.
Context (keywords : list str) (text : str).

Let score_of (c : str * (list str * list MainPy.pattern)) : str * nat :=
  (c.1, MainPy.criteria_score (unwords (map lower keywords)) (lower text) c.2).

Lemma job_scores_unfold :
  MainPy.job_scores keywords text = filter (λ e, 0 < e.2) (map score_of MainPy.job_criteria).
Proof. reflexivity. Qed.

Lemma title_score_entry c :
  c ∈ MainPy.job_criteria → MainPy.title_score keywords text c.1 = (score_of c).2.
Proof.
  intros Hc. unfold MainPy.title_score.
  destruct (list_find (λ c0, c0.1 = c.1) MainPy.job_criteria) as [[i c']|] eqn:Hf.
  - apply list_find_Some in Hf as (Hi & Hc' & _).
    apply list_elem_of_lookup_2 in Hi.
    assert (c' = c) as ->.
    { by apply (NoDup_fst_inj MainPy.job_criteria); [apply criteria_titles_NoDup|..]. }
    by destruct c as [t cr].
  - apply list_find_None in Hf. rewrite Forall_forall in Hf. by destruct (Hf c Hc).
Qed.

Lemma title_score_no_entry t :
  t ∉ map fst MainPy.job_criteria → MainPy.title_score keywords text t = 0.
Proof.
  intros Ht. unfold MainPy.title_score.
  destruct (list_find (λ c0, c0.1 = t) MainPy.job_criteria) as [[i c']|] eqn:Hf; [|done].
  apply list_find_Some in Hf as (Hi & Hc' & _).
  apply list_elem_of_lookup_2 in Hi. destruct Ht. rewrite <- Hc'.
  by apply (list_elem_of_fmap_2 fst).
Qed.

(** The scored titles are the titles with a positive score, each with its
    score. *)
Lemma job_scores_elem t s :
  (t, s) ∈ MainPy.job_scores keywords text
  ↔ 0 < s ∧ s = MainPy.title_score keywords text t.
Proof.
  rewrite job_scores_unfold, list_elem_of_filter, list_elem_of_fmap. split.
  - intros [Hpos (c & Heq & Hc)]. split; [done|].
    injection Heq as -> ->. by rewrite title_score_entry.
  - intros [Hpos ->]. split; [done|].
    destruct (decide (t ∈ map fst MainPy.job_criteria)) as [Hin|Hout].
    + apply list_elem_of_fmap in Hin as (c & -> & Hc).
      exists c. split; [|done]. rewrite title_score_entry by done. by destruct c.
    + rewrite title_score_no_entry in Hpos by done. simpl in Hpos. lia.
Qed.

Lemma job_scores_NoDup : NoDup (map fst (MainPy.job_scores keywords text)).
Proof.
  rewrite job_scores_unfold.
  eapply sublist_NoDup; [apply criteria_titles_NoDup|].
  assert (Hfst : map fst MainPy.job_criteria = map fst (map score_of MainPy.job_criteria)).
  { rewrite map_map. by apply map_ext. }
  rewrite Hfst. apply (fmap_sublist fst), sublist_filter.
Qed.

Let sorted_jobs : list (str * nat) :=
  sorted_desc (λ x y, x.2 <? y.2) (MainPy.job_scores keywords text).
Let top_jobs : list str := map fst (take 4 sorted_jobs).

Lemma sorted_jobs_elem t s :
  (t, s) ∈ sorted_jobs ↔ 0 < s ∧ s = MainPy.title_score keywords text t.
Proof. unfold sorted_jobs. by rewrite sorted_desc_perm, job_scores_elem. Qed.

Lemma top_jobs_NoDup : NoDup top_jobs.
Proof.
  eapply (sublist_NoDup _ (map fst sorted_jobs)).
  - assert (Hp : map fst sorted_jobs ≡ₚ map fst (MainPy.job_scores keywords text)).
    { apply fmap_Permutation, sorted_desc_perm. }
    rewrite Hp. apply job_scores_NoDup.
  - apply (fmap_sublist fst), sublist_take.
Qed.

Lemma top_jobs_length : length top_jobs ≤ 4.
Proof. unfold top_jobs. rewrite length_map, length_take. lia. Qed.

Lemma top_jobs_elem t :
  t ∈ top_jobs → (t, MainPy.title_score keywords text t) ∈ take 4 sorted_jobs
                 ∧ 0 < MainPy.title_score keywords text t.
Proof.
  intros ([t' s] & -> & Hin)%list_elem_of_fmap. simpl.
  pose proof (subseteq_take _ _ _ Hin) as [Hpos ->]%sorted_jobs_elem. done.
Qed.

(** A title with a positive score that is not among the first four comes
    after them in the sorted list. *)
Lemma scored_outside_top t :
  0 < MainPy.title_score keywords text t → t ∉ top_jobs →
  (t, MainPy.title_score keywords text t) ∈ drop 4 sorted_jobs.
Proof.
  intros Hpos Hout.
  assert (Hin : (t, MainPy.title_score keywords text t) ∈ sorted_jobs).
  { by apply sorted_jobs_elem. }
  rewrite <- (take_drop 4 sorted_jobs) in Hin.
  apply elem_of_app in Hin as [Hin|Hin]; [|done].
  destruct Hout. by apply (list_elem_of_fmap_2 fst) in Hin.
Qed.

Lemma top_jobs_sorted :
  StronglySorted (λ a b, MainPy.title_score keywords text b
                         ≤ MainPy.title_score keywords text a) top_jobs.
Proof.
  unfold top_jobs.
  assert (Hs : StronglySorted (λ a b : str * nat, b.2 ≤ a.2) (take 4 sorted_jobs)).
  { apply StronglySorted_take_own. apply (sorted_desc_sorted snd). }
  assert (Hel : Forall (λ e, e.2 = MainPy.title_score keywords text e.1)
                  (take 4 sorted_jobs)).
  { apply Forall_forall. intros [t s] Hin%subseteq_take.
    by apply sorted_jobs_elem in Hin as [_ ->]. }
  induction Hs as [|e l Hl IH He]; [constructor|].
  inversion Hel as [|? ? He1 Hel']; subst. simpl. constructor; [by apply IH|].
  apply Forall_fmap, Forall_forall. intros e' Hin. simpl.
  rewrite Forall_forall in He, Hel'. rewrite <- He1, <- (Hel' e' Hin). by apply He.
Qed.

Ltac case_enough :=
  match goal with
  | |- context [2 <=? length ?x] => destruct (2 <=? length x)
  | H : context [2 <=? length ?x] |- _ => destruct (2 <=? length x)
  end.

Lemma add_defaults_incl defaults top t :
  t ∈ top → t ∈ MainPy.add_defaults defaults top.
Proof.
  revert top. induction defaults as [|d rest IH]; intros top Ht; [done|]. cbn [MainPy.add_defaults].
  assert (Ht' : t ∈ (if bool_decide (d ∈ top) then top else top ++ [d])).
  { destruct (bool_decide (d ∈ top)); [done|]. apply elem_of_app. by left. }
  case_enough; [done|]. by apply IH.
Qed.

Lemma add_defaults_elem defaults top t :
  t ∈ MainPy.add_defaults defaults top → t ∈ top ∨ t ∈ defaults.
Proof.
  revert top. induction defaults as [|d rest IH]; intros top Ht; [by left|].
  cbn [MainPy.add_defaults] in Ht.
  assert (Hstep : ∀ t', t' ∈ (if bool_decide (d ∈ top) then top else top ++ [d]) →
                        t' ∈ top ∨ t' ∈ d :: rest).
  { intros t'. destruct (bool_decide (d ∈ top)); [by left|].
    intros [?|Hd]%elem_of_app; [by left|].
    apply list_elem_of_singleton in Hd as ->. right; left. }
  case_enough; [by apply Hstep|].
  apply IH in Ht as [Ht|Ht]; [by apply Hstep|]. right. by right.
Qed.

Lemma add_defaults_NoDup defaults top :
  NoDup top → NoDup (MainPy.add_defaults defaults top).
Proof.
  revert top. induction defaults as [|d rest IH]; intros top Hnd; [done|]. cbn [MainPy.add_defaults].
  assert (Hnd' : NoDup (if bool_decide (d ∈ top) then top else top ++ [d])).
  { destruct (bool_decide (d ∈ top)) eqn:Hd; [done|].
    apply bool_decide_eq_false in Hd. apply NoDup_app. split_and!; [done| |].
    - intros x Hx Hx'. apply list_elem_of_singleton in Hx' as ->. done.
    - apply NoDup_singleton. }
  case_enough; [done|]. by apply IH.
Qed.

Lemma add_defaults_length d1 d2 top :
  d1 ≠ d2 → length top < 2 →
  2 ≤ length (MainPy.add_defaults [d1; d2] top) ≤ 3.
Proof.
  intros Hne Hlen.
  assert (H2 : d2 ∉ [d1]).
  { intros Hin. apply list_elem_of_singleton in Hin. done. }
  destruct top as [|x [|y top]]; [| |simpl in Hlen; lia]; cbn [MainPy.add_defaults].
  - rewrite (bool_decide_eq_false_2 (d1 ∈ [])) by apply not_elem_of_nil.
    cbn [app length Nat.leb].
    rewrite (bool_decide_eq_false_2 (d2 ∈ [d1])) by done.
    cbn [app length Nat.leb]. lia.
  - destruct (bool_decide (d1 ∈ [x])) eqn:H1.
    + apply bool_decide_eq_true, list_elem_of_singleton in H1 as ->.
      cbn [length Nat.leb].
      rewrite (bool_decide_eq_false_2 (d2 ∈ [x])) by done.
      cbn [app length Nat.leb]. lia.
    + cbn [app length Nat.leb]. lia.
Qed.

Lemma add_defaults_sorted (score : str → nat) defaults top :
  StronglySorted (λ a b, score b ≤ score a) top →
  (∀ d, d ∈ defaults → d ∉ top → score d = 0) →
  StronglySorted (λ a b, score b ≤ score a) (MainPy.add_defaults defaults top).
Proof.
  revert top. induction defaults as [|d rest IH]; intros top Hs Hd; [done|]. cbn [MainPy.add_defaults].
  assert (Hs' : StronglySorted (λ a b, score b ≤ score a)
                  (if bool_decide (d ∈ top) then top else top ++ [d])).
  { destruct (bool_decide (d ∈ top)) eqn:Hin; [done|].
    apply bool_decide_eq_false in Hin.
    assert (H0 : score d = 0) by (apply Hd; [left|done]).
    clear Hd IH. induction Hs as [|a l Hl IHl Ha]; simpl.
    - repeat constructor.
    - constructor.
      + apply IHl. by intros ?; apply Hin; right.
      + apply Forall_app. split; [done|]. constructor; [lia|constructor]. }
  case_enough; [done|]. apply IH; [done|].
  intros d' Hd' Hout. apply Hd; [by right|].
  intros Hin. apply Hout. destruct (bool_decide (d ∈ top)); [done|].
  apply elem_of_app. by left.
Qed.

Lemma guess_job_titles_unfold :
  MainPy.guess_job_titles keywords text =
  if length top_jobs <? 2
  then MainPy.add_defaults [py "Software Developer"; py "Full Stack Developer"] top_jobs
  else top_jobs.
Proof. reflexivity. Qed.

Lemma guess_job_titles_incl t :
  t ∈ top_jobs → t ∈ MainPy.guess_job_titles keywords text.
Proof.
  intros Ht. rewrite guess_job_titles_unfold.
  destruct (length top_jobs <? 2); [by apply add_defaults_incl|done].
Qed.

Lemma guess_job_titles_shape_aux :
  2 ≤ length (MainPy.guess_job_titles keywords text) ≤ 4
  ∧ NoDup (MainPy.guess_job_titles keywords text).
Proof.
  rewrite guess_job_titles_unfold.
  pose proof top_jobs_length. pose proof top_jobs_NoDup.
  destruct (length top_jobs <? 2) eqn:Hlen.
  - apply Nat.ltb_lt in Hlen. split; [|by apply add_defaults_NoDup].
    pose proof (add_defaults_length (py "Software Developer")
                  (py "Full Stack Developer") top_jobs) as Hd.
    destruct Hd; [done|lia|]. lia.
  - apply Nat.ltb_ge in Hlen. split; [lia|done].
Qed.

Lemma guess_job_titles_ranking_aux r t :
  r ∈ MainPy.guess_job_titles keywords text →
  t ∉ MainPy.guess_job_titles keywords text →
  MainPy.title_score keywords text t ≤ MainPy.title_score keywords text r.
Proof.
  intros Hr Ht.
  destruct (decide (0 < MainPy.title_score keywords text t)) as [Hpos|]; [|lia].
  assert (Hout : t ∉ top_jobs) by (intros Hin; by apply Ht, guess_job_titles_incl).
  pose proof (scored_outside_top t Hpos Hout) as Hdrop.
  assert (Hlen : 4 < length sorted_jobs).
  { destruct (decide (4 < length sorted_jobs)); [done|].
    rewrite drop_ge in Hdrop by lia. by apply elem_of_nil in Hdrop. }
  rewrite guess_job_titles_unfold in Hr.
  assert (length top_jobs = 4) as Hfour.
  { unfold top_jobs. rewrite length_map, length_take. lia. }
  rewrite Hfour in Hr. simpl in Hr.
  apply top_jobs_elem in Hr as [Hr _].
  apply (sorted_take_drop snd 4 sorted_jobs _ _ (sorted_desc_sorted snd _) Hr Hdrop).
Qed.

Lemma guess_job_titles_sorted_aux :
  StronglySorted (λ a b, MainPy.title_score keywords text b
                         ≤ MainPy.title_score keywords text a)
    (MainPy.guess_job_titles keywords text).
Proof.
  rewrite guess_job_titles_unfold.
  destruct (length top_jobs <? 2) eqn:Hlen; [|apply top_jobs_sorted].
  apply Nat.ltb_lt in Hlen.
  apply add_defaults_sorted; [apply top_jobs_sorted|].
  intros d _ Hout.
  destruct (decide (0 < MainPy.title_score keywords text d)) as [Hpos|]; [|lia].
  pose proof (scored_outside_top d Hpos Hout) as Hdrop.
  unfold top_jobs in Hlen. rewrite length_map, length_take in Hlen.
  rewrite drop_ge in Hdrop by lia. by apply elem_of_nil in Hdrop.
Qed.
End guess.

(** X12. [guess_job_titles] returns between two and four titles, all
    different, each a title of the criteria table or the default
    ["Software Developer"]; [guess_job_title] returns the first of them, so its
    own default is never used. *)
Theorem guess_job_titles_shape (keywords : list str) (text : str) :
  2 ≤ length (MainPy.guess_job_titles keywords text) ≤ 4
  ∧ NoDup (MainPy.guess_job_titles keywords text)
  ∧ (∀ t, t ∈ MainPy.guess_job_titles keywords text →
          t ∈ map fst MainPy.job_criteria ∨ t = py "Software Developer")
  ∧ head (MainPy.guess_job_titles keywords text)
    = Some (MainPy.guess_job_title keywords text).
Proof.
  destruct (guess_job_titles_shape_aux keywords text) as [Hlen Hnd].
  split_and!; [lia|lia|done| |].
  - intros t Ht. rewrite guess_job_titles_unfold in Ht.
    assert (Htop : ∀ t', t' ∈ map fst (take 4 (sorted_desc (λ x y, x.2 <? y.2)
                                               (MainPy.job_scores keywords text))) →
                         t' ∈ map fst MainPy.job_criteria).
    { intros t' Ht'. apply top_jobs_elem in Ht' as [_ Hpos].
      destruct (decide (t' ∈ map fst MainPy.job_criteria)); [done|].
      rewrite title_score_no_entry in Hpos by done. lia. }
    destruct (length _ <? 2); [|by left; apply Htop].
    apply add_defaults_elem in Ht as [Ht|Ht]; [by left; apply Htop|].
    apply elem_of_cons in Ht as [->|Ht]; [by right|].
    apply list_elem_of_singleton in Ht as ->. left.
    apply (bool_decide_unpack _). vm_compute. exact I.
  - unfold MainPy.guess_job_title.
    destruct (MainPy.guess_job_titles keywords text); [simpl in Hlen; lia|done].
Qed.

(** X13. The titles [guess_job_titles] returns are in the order of
    decreasing score, and no title it leaves out has a higher score than a title
    it returns; the score of a title is that of its entry in the criteria table,
    0 without entry. *)
Theorem guess_job_titles_ranking (keywords : list str) (text : str) :
  StronglySorted (λ a b, MainPy.title_score keywords text b
                         ≤ MainPy.title_score keywords text a)
    (MainPy.guess_job_titles keywords text)
  ∧ ∀ r t, r ∈ MainPy.guess_job_titles keywords text →
           t ∉ MainPy.guess_job_titles keywords text →
           MainPy.title_score keywords text t ≤ MainPy.title_score keywords text r.
Proof.
  split; [apply guess_job_titles_sorted_aux|apply guess_job_titles_ranking_aux].
Qed.

(** X14. When no keyword and no pattern of the criteria table is found,
    [guess_job_titles] returns the two default titles. *)
Theorem guess_job_titles_default (keywords : list str) (text : str) :
  Forall (λ c, MainPy.criteria_score (unwords (map lower keywords)) (lower text) c.2 = 0)
    MainPy.job_criteria →
  MainPy.guess_job_titles keywords text
  = [py "Software Developer"; py "Full Stack Developer"]
  ∧ MainPy.guess_job_title keywords text = py "Software Developer".
Proof.
  intros Hzero.
  assert (Hnone : MainPy.job_scores keywords text = []).
  { rewrite job_scores_unfold.
    induction Hzero as [|c l Hc _ IH]; [done|].
    cbn [map]. rewrite filter_cons, decide_False; [done|]. simpl. lia. }
  unfold MainPy.guess_job_title, MainPy.guess_job_titles. rewrite Hnone.
  split; reflexivity.
Qed.

(** X14 at the empty CV. *)
Lemma guess_job_titles_default_witness :
  MainPy.guess_job_titles [] []
  = [py "Software Developer"; py "Full Stack Developer"]
  ∧ MainPy.guess_job_title [] [] = py "Software Developer".
Proof.
  apply guess_job_titles_default.
  apply (bool_decide_unpack _). vm_compute. exact I.
Defined.
(** ** The score of the search endpoint *)

Lemma keyword_matches_all kws text :
  Forall (λ kw, contains kw text = true) kws →
  Main.keyword_matches kws text = length kws.
Proof.
  induction 1 as [|kw kws Hkw _ IH]; [done|].
  cbn [Main.keyword_matches length]. by rewrite Hkw, IH.
Qed.

Lemma keyword_matches_none kws text :
  Forall (λ kw, contains kw text = false) kws →
  Main.keyword_matches kws text = 0.
Proof.
  induction 1 as [|kw kws Hkw _ IH]; [done|].
  cbn [Main.keyword_matches]. by rewrite Hkw, IH.
Qed.

Lemma role_match_bonus_none words t :
  Forall (λ word, contains word t = true → length word ≤ 3) words →
  Main.role_match_bonus words t = 0.
Proof.
  induction 1 as [|word words Hword _ IH]; [done|].
  cbn [Main.role_match_bonus]. rewrite IH.
  destruct (contains word t) eqn:Hc; [|done].
  specialize (Hword eq_refl).
  by rewrite (proj2 (Nat.ltb_ge 3 (length word))) by lia.
Qed.

Lemma inject_nat_nonneg (n : nat) : (0 <= inject_Z (Z.of_nat n))%Q.
Proof. change 0%Q with (inject_Z 0). rewrite <- Zle_Qle. lia. Qed.

Lemma ratio_full (n : nat) :
  n ≠ 0 → (inject_Z (Z.of_nat n) / inject_Z (Z.of_nat n) * 100 == 100)%Q.
Proof.
  intros Hn. unfold Qdiv. rewrite Qmult_inv_r; [reflexivity|].
  intros H0. unfold Qeq in H0. cbn [Qnum Qden inject_Z] in H0. lia.
Qed.

Lemma ratio_none (n : nat) :
  (inject_Z (Z.of_nat 0) / inject_Z (Z.of_nat n) * 100 == 0)%Q.
Proof.
  change (inject_Z (Z.of_nat 0)) with 0%Q. unfold Qdiv.
  rewrite !Qmult_0_l. reflexivity.
Qed.

(** X15. The score the search endpoint gives a job lies between 0 and 100.
    It is 100 when the CV has keywords and each of them, in lower case, occurs
    in the lower-cased text of the job (title, company and description).  It is
    0 when no keyword occurs in that text and no word of more than three
    characters of the lower-cased search title occurs in the lower-cased title
    of the job. *)
Theorem match_score_range (cv_keywords : list str) (search_title : str) (j : job) :
  (0 <= Main.match_score cv_keywords search_title j <= 100)%Q
  ∧ (cv_keywords ≠ [] →
     Forall (λ kw, contains (lower kw) (MainApi.job_text j) = true) cv_keywords →
     (Main.match_score cv_keywords search_title j == 100)%Q)
  ∧ (Forall (λ kw, contains (lower kw) (MainApi.job_text j) = false) cv_keywords →
     Forall (λ word, contains word (lower (title j)) = true → length word ≤ 3)
       (split (lower search_title)) →
     (Main.match_score cv_keywords search_title j == 0)%Q).
Proof.
  unfold Main.match_score, MainApi.job_text.
  set (text := lower (title j) ++ _).
  set (m := Main.keyword_matches _ _).
  set (bonus := Main.role_match_bonus _ _).
  set (desc := if _ : bool then 10 else 0).
  pose proof (inject_nat_nonneg bonus) as Hbonus.
  pose proof (inject_nat_nonneg desc) as Hdesc.
  split; [|split].
  - apply round1_bounds. split; [|apply Q.le_min_l].
    apply Q.min_glb; [lra|].
    destruct cv_keywords as [|kw kws]; [lra|].
    pose proof (overlap_ratio_nonneg m (length (kw :: kws))). lra.
  - intros Hne Hall.
    assert (Hm : m = length cv_keywords).
    { unfold m. rewrite keyword_matches_all; [by rewrite length_map|].
      by apply Forall_fmap. }
    rewrite Hm.
    apply Qeq_trans with (round1 100); [|apply round1_100].
    apply round1_comp. apply Q.min_l.
    destruct cv_keywords as [|kw kws]; [done|].
    pose proof (ratio_full (length (kw :: kws)) ltac:(done)). lra.
  - intros Hnone Hrole.
    assert (Hm : m = 0).
    { unfold m. apply keyword_matches_none. by apply Forall_fmap. }
    assert (Hb : bonus = 0) by by apply role_match_bonus_none.
    assert (Hd : desc = 0).
    { unfold desc. rewrite Hm. by rewrite andb_false_r. }
    rewrite Hm, Hb, Hd.
    apply Qeq_trans with (round1 0); [|apply round1_0].
    apply round1_comp.
    change (inject_Z (Z.of_nat 0)) with 0%Q.
    rewrite Q.min_r.
    + destruct cv_keywords; unfold Qdiv; rewrite ?Qmult_0_l; lra.
    + destruct cv_keywords; unfold Qdiv; rewrite ?Qmult_0_l; lra.
Qed.

(** ** Sorting by decreasing score *)

Section sorted_by_score.
Context {A : Type} (key : A → Q).

Lemma insert_desc_sorted_score x l :
  StronglySorted (λ a b, (key b <= key a)%Q) l →
  StronglySorted (λ a b, (key b <= key a)%Q)
    (insert_desc (λ a b, negb (Qle_bool (key b) (key a))) x l).
Proof.
  induction 1 as [|y l Hl IH Hy]; simpl.
  - repeat constructor.
  - destruct (Qle_bool (key y) (key x)) eqn:Hxy; simpl.
    + apply Qle_bool_iff in Hxy. constructor; [by constructor|].
      constructor; [done|]. eapply Forall_impl; [exact Hy|]. simpl.
      intros b Hb. by apply Qle_trans with (key y).
    + assert (Hlt : (key x < key y)%Q).
      { apply Qnot_le_lt. intros Hle. apply Qle_bool_iff in Hle. congruence. }
      constructor; [done|].
      rewrite insert_desc_perm. constructor; [by apply Qlt_le_weak|done].
Qed.

Lemma sorted_desc_sorted_score l :
  StronglySorted (λ a b, (key b <= key a)%Q)
    (sorted_desc (λ a b, negb (Qle_bool (key b) (key a))) l).
Proof.
  induction l as [|x l IH]; [constructor|]. simpl. by apply insert_desc_sorted_score.
Qed.
End sorted_by_score.

(** The sort is stable: elements that are never moved past each other keep
    their order. *)
Lemma insert_desc_filter {A} (ltb : A → A → bool) (P : A → Prop)
    `{∀ x, Decision (P x)} x l :
  (∀ a b, ltb a b = true → P a → P b → False) →
  filter P (insert_desc ltb x l) = filter P (x :: l).
Proof.
  intros Hltb. induction l as [|y l IH]; [done|]. simpl.
  destruct (ltb x y) eqn:Hxy; [|done].
  rewrite (filter_cons _ y), IH, !(filter_cons _ x), (filter_cons _ y).
  destruct (decide (P y)) as [Hy|Hy]; [|done].
  destruct (decide (P x)) as [Hx|Hx]; [|done].
  by destruct (Hltb x y).
Qed.

Lemma sorted_desc_filter {A} (ltb : A → A → bool) (P : A → Prop)
    `{∀ x, Decision (P x)} l :
  (∀ a b, ltb a b = true → P a → P b → False) →
  filter P (sorted_desc ltb l) = filter P l.
Proof.
  intros Hltb. induction l as [|x l IH]; [done|]. simpl.
  rewrite insert_desc_filter by done. by rewrite !filter_cons, IH.
Qed.

Lemma same_score_not_below (s : Q) (a b : MainApi.JobResponse) :
  negb (Qle_bool (MainApi.match_score b) (MainApi.match_score a)) = true →
  Qeq_bool (MainApi.match_score a) s = true →
  Qeq_bool (MainApi.match_score b) s = true → False.
Proof.
  intros Hlt Ha%Qeq_bool_iff Hb%Qeq_bool_iff.
  apply negb_true_iff in Hlt.
  assert (Hle : Qle_bool (MainApi.match_score b) (MainApi.match_score a) = true).
  { apply Qle_bool_iff. rewrite Ha, Hb. apply Qle_refl. }
  congruence.
Qed.

(** ** The endpoints *)

Lemma lstrip_no_space c s : is_space c = false → lstrip (c :: s) = c :: s.
Proof. intros Hc. simpl. by rewrite Hc. Qed.

Lemma rstrip_head c s : is_space c = false → ∃ r, rstrip (c :: s) = c :: r.
Proof.
  intros Hc. simpl. destruct (rstrip s); [|by eexists]. rewrite Hc. by eexists.
Qed.

Lemma rstrip_idem s : rstrip (rstrip s) = rstrip s.
Proof.
  induction s as [|c s IH]; [done|]. simpl.
  destruct (rstrip s) as [|d r] eqn:Hr.
  - destruct (is_space c) eqn:Hc; [done|]. simpl. by rewrite Hc.
  - change (rstrip (c :: d :: r)) with
      (match rstrip (d :: r) with
       | [] => if is_space c then [] else [c]
       | r' => c :: r'
       end).
    by rewrite IH.
Qed.

Lemma lstrip_head s : lstrip s = [] ∨ ∃ c r, lstrip s = c :: r ∧ is_space c = false.
Proof.
  induction s as [|c s IH]; [by left|]. simpl.
  destruct (is_space c) eqn:Hc; [done|]. right. by exists c, s.
Qed.

Lemma strip_idem s : strip (strip s) = strip s.
Proof.
  unfold strip.
  destruct (lstrip_head s) as [->|(c & r & -> & Hc)]; [done|].
  destruct (rstrip_head c r Hc) as [r' Hr].
  rewrite Hr, lstrip_no_space by done. rewrite <- Hr. apply rstrip_idem.
Qed.

Lemma match_nonempty {A B} (l : list A) (x y : B) :
  l ≠ [] → match l with [] => x | _ => y end = y.
Proof. by destruct l. Qed.

Section api_facts.
Context {elem : Type} {parser : Soup elem} {session : Http elem} {urllib : UrlQuote}
        {errors : PageErrors}.

(** The scraper of the endpoint returns no more than 200 jobs, or it is
    the LinkedIn scraper and raises an exception of another class than
    [RequestException]. *)
Lemma run_bot_cases platform search_title search_location log :
  match MainApi.run_bot platform search_title search_location log with
  | (Returned raw, log') => length raw ≤ 200
  | (Raised e, log') =>
      platform ≠ Some (py "kariyer")
      ∧ ∃ k page msg,
          LinkedInBot.page_starts !! k = Some page
          ∧ page_error
              (log ++ map (LinkedInBot.search_url (quote search_title)
                             (quote search_location))
                        (take k LinkedInBot.page_starts))
              (LinkedInBot.search_url (quote search_title) (quote search_location) page)
            = Some msg
          ∧ e = OtherError msg
          ∧ log' = log ++ map (LinkedInBot.search_url (quote search_title)
                                 (quote search_location))
                            (take (S k) LinkedInBot.page_starts)
  end.
Proof.
  unfold MainApi.run_bot. destruct (bool_decide _) eqn:Hpf.
  - rewrite (kariyer_search_jobs_eq (session := caught)). cbv beta iota zeta.
    pose proof (kariyer_budget_invariant (session := caught) search_title 200
                  (quote (lower search_title)) (quote (lower search_location))
                  KariyerNetBot.pages log ltac:(lia)).
    lia.
  - apply bool_decide_eq_false in Hpf.
    pose proof (linkedin_raising_search_spec search_title search_location 200 log) as Hspec.
    destruct (LinkedInBotRaising.search_jobs _ _ _ _) as [[jobs|e] log'].
    2: { split; [done|]. destruct Hspec as (k & page & msg & Hk & Herr & _ & He & Hlog).
         by exists k, page, msg. }
    destruct (linkedin_search_jobs_returns (session := caught) search_title
                search_location 200 log) as (jobs' & Hret & Hkeys & _).
    rewrite Hspec in Hret. injection Hret as <-.
    apply (f_equal length) in Hkeys. rewrite !length_map in Hkeys. rewrite Hkeys.
    pose proof (linkedin_budget_invariant (session := caught) search_title 200
                  (quote search_title) (quote search_location) LinkedInBot.page_starts log
                  ltac:(lia)).
    lia.
Qed.

(** The endpoint, once the scraper has returned. *)
Lemma search_jobs_with_cv job_title location platform w raw log' :
  nonempty (MainApi.cv_text (MainApi.cv w)) = true →
  MainApi.run_bot platform
    (MainApi.or_else job_title (MainApi.cv_job_title (MainApi.cv w)))
    (MainApi.or_else location (MainApi.cv_location (MainApi.cv w)))
    (MainApi.requests w) = (Returned raw, log') →
  ∃ resp,
    MainApi.search_jobs job_title location platform w
    = (MainApi.Ok resp,
       MainApi.World (MainApi.cv w) log'
         (match MainApi.jobs resp with
          | [] => MainApi.jobs_file w
          | _ => Some (MainApi.jobs resp)
          end)
         (MainApi.uploads w))
    ∧ MainApi.success resp = true
    ∧ MainApi.jobs resp
      = sorted_desc (λ x y, negb (Qle_bool (MainApi.match_score y) (MainApi.match_score x)))
          (map (MainApi.job_response (MainApi.cv_keywords (MainApi.cv w))
                  (MainApi.or_else job_title (MainApi.cv_job_title (MainApi.cv w))))
               raw).
Proof.
  intros Hcv Hrun. unfold MainApi.search_jobs. rewrite Hcv, Hrun. cbn [negb].
  destruct raw as [|j raw].
  { eexists (MainApi.Build_SearchResponse true [] _). split_and!; reflexivity. }
  set (scored := sorted_desc _ (map _ (j :: raw))).
  assert (Hne : scored ≠ []).
  { unfold scored. intros Heq. apply (f_equal length) in Heq.
    rewrite sorted_desc_perm, length_map in Heq. done. }
  eexists (MainApi.Build_SearchResponse true scored _).
  split; [|split; reflexivity].
  cbn [MainApi.jobs MainApi.cv]. rewrite (match_nonempty scored) by done. reflexivity.
Qed.

(** The endpoint, once the scraper has raised. *)
Lemma search_jobs_bot_raised job_title location platform w e log' :
  nonempty (MainApi.cv_text (MainApi.cv w)) = true →
  MainApi.run_bot platform
    (MainApi.or_else job_title (MainApi.cv_job_title (MainApi.cv w)))
    (MainApi.or_else location (MainApi.cv_location (MainApi.cv w)))
    (MainApi.requests w) = (Raised e, log') →
  MainApi.search_jobs job_title location platform w
  = (MainApi.HTTPException 500 (py "Bot error: " ++ MainApi.exn_str e),
     MainApi.World (MainApi.cv w) log' (MainApi.jobs_file w) (MainApi.uploads w)).
Proof.
  intros Hcv Hrun. unfold MainApi.search_jobs. by rewrite Hcv, Hrun.
Qed.
End api_facts.

(** X21. The LinkedIn search with the exceptions its page loop does not
    catch. When it returns, its result and its requests are those of the
    search on the session on which an exception of another class than
    [RequestException] is a failed request. When it raises, a result page met
    an exception of another class while it was requested and parsed, no page
    before it did, the search raises that exception, and its requests are the
    pages up to that one. The Kariyer search, whose page loop catches
    [Exception], returns. *)
Theorem linkedin_search_raises {elem : Type} {parser : Soup elem} {session : Http elem}
    {urllib : UrlQuote} {errors : PageErrors} (role location : str) (max_jobs : Z)
    (log : list str) :
  match LinkedInBotRaising.search_jobs role location max_jobs log with
  | (Returned jobs, log') =>
      LinkedInBot.search_jobs (session := caught) role location max_jobs log
      = (Returned jobs, log')
  | (Raised e, log') =>
      ∃ k page msg,
        LinkedInBot.page_starts !! k = Some page
        ∧ page_error
            (log ++ map (LinkedInBot.search_url (quote role) (quote location))
                      (take k LinkedInBot.page_starts))
            (LinkedInBot.search_url (quote role) (quote location) page) = Some msg
        ∧ (∀ i p, i < k → LinkedInBot.page_starts !! i = Some p →
                  page_error
                    (log ++ map (LinkedInBot.search_url (quote role) (quote location))
                              (take i LinkedInBot.page_starts))
                    (LinkedInBot.search_url (quote role) (quote location) p) = None)
        ∧ e = OtherError msg
        ∧ log' = log ++ map (LinkedInBot.search_url (quote role) (quote location))
                          (take (S k) LinkedInBot.page_starts)
  end
  ∧ ∃ jobs, (KariyerNetBot.search_jobs (session := caught) role location max_jobs log).1
            = Returned jobs.
Proof.
  split.
  - pose proof (linkedin_raising_search_spec role location max_jobs log) as Hspec.
    by destruct (LinkedInBotRaising.search_jobs _ _ _ _) as [[jobs|e] log'].
  - rewrite (kariyer_search_jobs_eq (session := caught)). by eexists.
Qed.

(** X16. Without the text of a CV the search endpoint answers 400 and
    leaves the state as it is: no request is made.  With one, it runs the
    scraper of the platform for the given title and location, each replaced by
    the one of the CV when missing or empty.  When the scraper returns, the
    endpoint answers with the scored jobs of the scraper, reordered: at most
    200; the CV and the uploads are left as they are, and [jobs.json] is
    rewritten with the jobs of the answer unless there are none.  When the
    scraper raises, which the Kariyer scraper does not, the endpoint answers 500
    with the text of the exception, and adds the requests to the state and
    nothing else. *)
Theorem search_endpoint_answers {elem : Type} {parser : Soup elem} {session : Http elem}
    {urllib : UrlQuote} {errors : PageErrors} (job_title location platform : option str)
    (w : MainApi.world) :
  if nonempty (MainApi.cv_text (MainApi.cv w)) then
    ∃ res log',
      MainApi.run_bot platform
        (MainApi.or_else job_title (MainApi.cv_job_title (MainApi.cv w)))
        (MainApi.or_else location (MainApi.cv_location (MainApi.cv w)))
        (MainApi.requests w) = (res, log')
      ∧ match res with
        | Returned raw =>
            ∃ resp,
              MainApi.search_jobs job_title location platform w
              = (MainApi.Ok resp,
                 MainApi.World (MainApi.cv w) log'
                   (match MainApi.jobs resp with
                    | [] => MainApi.jobs_file w
                    | _ => Some (MainApi.jobs resp)
                    end)
                   (MainApi.uploads w))
              ∧ MainApi.success resp = true
              ∧ MainApi.jobs resp
                ≡ₚ map (MainApi.job_response (MainApi.cv_keywords (MainApi.cv w))
                          (MainApi.or_else job_title
                             (MainApi.cv_job_title (MainApi.cv w))))
                       raw
              ∧ length (MainApi.jobs resp) ≤ 200
        | Raised e =>
            platform ≠ Some (py "kariyer")
            ∧ MainApi.search_jobs job_title location platform w
              = (MainApi.HTTPException 500 (py "Bot error: " ++ MainApi.exn_str e),
                 MainApi.World (MainApi.cv w) log' (MainApi.jobs_file w)
                   (MainApi.uploads w))
        end
  else
    MainApi.search_jobs job_title location platform w
    = (MainApi.HTTPException 400 (py "Please upload a CV first before searching for jobs"),
       w).
Proof.
  destruct (nonempty _) eqn:Hcv.
  - pose proof (run_bot_cases platform
                  (MainApi.or_else job_title (MainApi.cv_job_title (MainApi.cv w)))
                  (MainApi.or_else location (MainApi.cv_location (MainApi.cv w)))
                  (MainApi.requests w)) as Hcases.
    destruct (MainApi.run_bot _ _ _ _) as [[raw|e] log'] eqn:Hrun.
    + destruct (search_jobs_with_cv job_title location platform w raw log' Hcv Hrun)
        as (resp & Hresp & Hok & Hjobs).
      exists (Returned raw), log'. split; [done|]. exists resp.
      split_and!; [done..| |].
      * rewrite Hjobs. apply sorted_desc_perm.
      * rewrite Hjobs, sorted_desc_perm, length_map. done.
    + exists (Raised e), log'. split; [done|]. split; [apply Hcases|].
      by apply search_jobs_bot_raised.
  - unfold MainApi.search_jobs. by rewrite Hcv.
Qed.

(** The first request of the LinkedIn search raising a [ValueError], the
    endpoint answers 500 after this request; for Kariyer it answers with the
    jobs of the other pages. *)
Example search_endpoint_500 :
  MainApi.search_jobs (session := Dom.serve SampleApi.two_cards)
    (urllib := Dom.plain_quote) (errors := SampleApi.first_page_error)
    None None None SampleApi.world_python
  = (MainApi.HTTPException 500 (py "Bot error: invalid literal"),
     MainApi.World SampleApi.cv_python
       [LinkedInBot.search_url (py "Python Developer") (py "Istanbul") 0] None [])
  ∧ ∃ resp w',
      MainApi.search_jobs (session := Dom.serve SampleApi.two_cards)
        (urllib := Dom.plain_quote) (errors := SampleApi.first_page_error)
        None None (Some (py "kariyer")) SampleApi.world_python
      = (MainApi.Ok resp, w')
      ∧ length (MainApi.requests w') = 8.
Proof.
  split; [vm_compute; reflexivity|].
  eexists _, _. split; vm_compute; reflexivity.
Qed.

(** X17. The jobs of an answer of the search endpoint are in order of
    decreasing score, every score lies between 0 and 100, and the jobs of one
    score are the jobs of the scraper with that score, in the order of the
    scraper. *)
Theorem search_endpoint_ranking {elem : Type} {parser : Soup elem} {session : Http elem}
    {urllib : UrlQuote} {errors : PageErrors} (job_title location platform : option str)
    (w w' : MainApi.world) (resp : MainApi.SearchResponse) :
  MainApi.search_jobs job_title location platform w = (MainApi.Ok resp, w') →
  StronglySorted (λ a b, (MainApi.match_score b <= MainApi.match_score a)%Q)
    (MainApi.jobs resp)
  ∧ Forall (λ r, (0 <= MainApi.match_score r <= 100)%Q) (MainApi.jobs resp)
  ∧ ∃ raw,
      (MainApi.run_bot platform
         (MainApi.or_else job_title (MainApi.cv_job_title (MainApi.cv w)))
         (MainApi.or_else location (MainApi.cv_location (MainApi.cv w)))
         (MainApi.requests w)).1 = Returned raw
      ∧ ∀ s : Q,
          filter (λ r, Qeq_bool (MainApi.match_score r) s = true) (MainApi.jobs resp)
          = filter (λ r, Qeq_bool (MainApi.match_score r) s = true)
              (map (MainApi.job_response (MainApi.cv_keywords (MainApi.cv w))
                      (MainApi.or_else job_title (MainApi.cv_job_title (MainApi.cv w))))
                   raw).
Proof.
  intros Hsearch.
  destruct (nonempty (MainApi.cv_text (MainApi.cv w))) eqn:Hcv.
  2: { unfold MainApi.search_jobs in Hsearch. by rewrite Hcv in Hsearch. }
  destruct (MainApi.run_bot platform
              (MainApi.or_else job_title (MainApi.cv_job_title (MainApi.cv w)))
              (MainApi.or_else location (MainApi.cv_location (MainApi.cv w)))
              (MainApi.requests w)) as [[raw|e] log'] eqn:Hrun.
  2: { by rewrite (search_jobs_bot_raised _ _ _ _ e log' Hcv Hrun) in Hsearch. }
  destruct (search_jobs_with_cv job_title location platform w raw log' Hcv Hrun)
    as (resp' & Hresp & _ & Hjobs).
  rewrite Hresp in Hsearch. injection Hsearch as -> _.
  rewrite Hjobs. split_and!.
  - apply (sorted_desc_sorted_score MainApi.match_score).
  - rewrite sorted_desc_perm. apply Forall_fmap, Forall_true. intros j. simpl.
    apply match_score_range.
  - exists raw. split; [done|]. intros s.
    apply sorted_desc_filter. intros a b. apply same_score_not_below.
Qed.

(** X17 on a page of two cards, searched with a CV of two keywords. *)
Lemma search_endpoint_ranking_witness :
  ∃ resp w',
    MainApi.search_jobs (session := Dom.serve SampleApi.two_cards)
      (urllib := Dom.plain_quote) (errors := SampleApi.no_errors)
      None None None SampleApi.world_python
    = (MainApi.Ok resp, w')
    ∧ map MainApi.r_title (MainApi.jobs resp) = [py "Python Developer"; py "Data Engineer"]
    ∧ StronglySorted (λ a b, (MainApi.match_score b <= MainApi.match_score a)%Q)
        (MainApi.jobs resp).
Proof.
  eexists _, _. split; [vm_compute; reflexivity|]. split; [reflexivity|].
  refine (proj1 (search_endpoint_ranking (session := Dom.serve SampleApi.two_cards)
                   (urllib := Dom.plain_quote) (errors := SampleApi.no_errors)
                   None None None SampleApi.world_python _ _ _)).
  vm_compute. reflexivity.
Defined.

(** X18. The outcomes of [upload_cv].  A name that does not end in [.pdf],
    whatever the case of its letters: 400, and nothing is written.  A file that
    cannot be opened in the uploads directory: the exception of [open] leaves
    the endpoint, and the state is as it was.  Otherwise the file is written;
    when the reader raises or no text is found the answer is 400 and the CV is
    left as it is; when text is found the answer is a success: the stored text
    is not empty and has no white space at either end, the keywords and titles
    of the answer are those of that text, the first of two to four titles is the
    job title, and the location is [Istanbul].  No case makes a request or
    touches [jobs.json]. *)
Theorem upload_cv_outcomes {pypdf : PdfReader} {disk : UploadsDir} (filename : str)
    (content : list Byte.byte) (w : MainApi.world) :
  match MainApi.upload_cv filename content w with
  | (Returned (MainApi.Ok r), w') =>
      endswith (py ".pdf") (lower filename) = true
      ∧ open_error (MainApi.uploads w) filename = None
      ∧ (∃ pages, pdf_pages content = inl pages
                  ∧ MainApi.cv_text (MainApi.cv w') = strip (concat (map (default []) pages)))
      ∧ MainApi.cv_text (MainApi.cv w') ≠ []
      ∧ strip (MainApi.cv_text (MainApi.cv w')) = MainApi.cv_text (MainApi.cv w')
      ∧ MainApi.keywords r = MainPy.extract_keywords (MainApi.cv_text (MainApi.cv w'))
      ∧ MainApi.job_titles r
        = MainPy.guess_job_titles (MainApi.keywords r) (MainApi.cv_text (MainApi.cv w'))
      ∧ 2 ≤ length (MainApi.job_titles r) ≤ 4
      ∧ head (MainApi.job_titles r) = Some (MainApi.job_title r)
      ∧ MainApi.location r = py "Istanbul"
      ∧ MainApi.cv w'
        = MainApi.CvData (MainApi.cv_text (MainApi.cv w')) (MainApi.keywords r)
            (MainApi.job_title r) (MainApi.job_titles r) (py "Istanbul")
      ∧ MainApi.uploads w' = MainApi.uploads w ++ [(filename, content)]
      ∧ MainApi.requests w' = MainApi.requests w
      ∧ MainApi.jobs_file w' = MainApi.jobs_file w
  | (Returned (MainApi.HTTPException status_code detail), w') =>
      status_code = 400
      ∧ MainApi.cv w' = MainApi.cv w
      ∧ MainApi.requests w' = MainApi.requests w
      ∧ MainApi.jobs_file w' = MainApi.jobs_file w
      ∧ (if endswith (py ".pdf") (lower filename)
         then open_error (MainApi.uploads w) filename = None
              ∧ MainApi.uploads w' = MainApi.uploads w ++ [(filename, content)]
              ∧ match pdf_pages content with
                | inl pages => strip (concat (map (default []) pages)) = []
                | inr _ => True
                end
         else w' = w)
  | (Raised e, w') =>
      endswith (py ".pdf") (lower filename) = true
      ∧ open_error (MainApi.uploads w) filename = Some (MainApi.exn_str e)
      ∧ e = OtherError (MainApi.exn_str e)
      ∧ w' = w
  end.
Proof.
  unfold MainApi.upload_cv, MainApi.extract_text_from_pdf.
  destruct (endswith _ _) eqn:Hpdf; cbn [negb].
  2: { split_and!; done. }
  destruct (open_error (MainApi.uploads w) filename) as [msg|] eqn:Hopen.
  { split_and!; done. }
  destruct (pdf_pages content) as [pages|e] eqn:Hread.
  2: { split_and!; done. }
  set (text := strip _).
  destruct (nonempty text) eqn:Htext; cbn [negb].
  2: { split_and!; try done. by destruct text. }
  cbn [MainApi.cv MainApi.cv_text MainApi.keywords MainApi.job_titles MainApi.job_title
       MainApi.location MainApi.uploads MainApi.requests MainApi.jobs_file].
  destruct (guess_job_titles_shape_aux (MainPy.extract_keywords text) text) as [Hlen _].
  split_and!; try done; try lia.
  - by exists pages.
  - by destruct text.
  - apply strip_idem.
  - revert Hlen. destruct (MainPy.guess_job_titles _ _); simpl; [lia|done].
Qed.

(** A name with a directory part in an uploads directory without
    subdirectory: the upload ends with the exception of [open], and nothing is
    stored. *)
Example upload_cv_unhandled :
  MainApi.upload_cv (pypdf := SampleApi.one_page) (disk := SampleApi.flat_dir)
    (py "sub/cv.pdf") [] SampleApi.world_empty
  = (Raised (OtherError (py "No such file or directory")), SampleApi.world_empty).
Proof. vm_compute. reflexivity. Qed.

Lemma upload_cv_stored {pypdf : PdfReader} {disk : UploadsDir} (filename : str)
    (content : list Byte.byte) (w w' : MainApi.world) (r : MainApi.CVResponse) :
  MainApi.upload_cv filename content w = (Returned (MainApi.Ok r), w') →
  nonempty (MainApi.cv_text (MainApi.cv w')) = true
  ∧ MainApi.cv_keywords (MainApi.cv w') = MainApi.keywords r
  ∧ MainApi.cv_job_title (MainApi.cv w') = MainApi.job_title r
  ∧ MainApi.cv_location (MainApi.cv w') = py "Istanbul"
  ∧ MainApi.requests w' = MainApi.requests w
  ∧ MainApi.jobs_file w' = MainApi.jobs_file w.
Proof.
  unfold MainApi.upload_cv, MainApi.extract_text_from_pdf.
  destruct (endswith _ _); cbn [negb]; [|done].
  destruct (open_error _ _); [done|].
  destruct (pdf_pages content) as [pages|e]; [|done].
  destruct (nonempty _) eqn:Htext; cbn [negb]; [|done].
  by intros [= <- <-].
Qed.

(** X19. After an upload that succeeded, a search runs the scraper for the
    given title and location, or for the job title of the upload's answer and
    for Istanbul when they are missing or empty, and is not answered 400.  When
    the scraper returns, the search answers with the jobs of the scraper, each
    scored with the keywords of the upload's answer and the title searched,
    reordered.  When the scraper raises, the search answers 500.  In both
    cases the CV stays the one of the upload. *)
Theorem search_after_upload {elem : Type} {parser : Soup elem} {session : Http elem}
    {urllib : UrlQuote} {errors : PageErrors} {pypdf : PdfReader} {disk : UploadsDir}
    (filename : str) (content : list Byte.byte)
    (w w' : MainApi.world) (r : MainApi.CVResponse)
    (job_title location platform : option str) :
  MainApi.upload_cv filename content w = (Returned (MainApi.Ok r), w') →
  ∃ res log',
    MainApi.run_bot platform
      (MainApi.or_else job_title (MainApi.job_title r))
      (MainApi.or_else location (py "Istanbul"))
      (MainApi.requests w) = (res, log')
    ∧ match res with
      | Returned raw =>
          ∃ resp w'',
            MainApi.search_jobs job_title location platform w' = (MainApi.Ok resp, w'')
            ∧ MainApi.jobs resp
              ≡ₚ map (MainApi.job_response (MainApi.keywords r)
                        (MainApi.or_else job_title (MainApi.job_title r)))
                     raw
            ∧ MainApi.cv w'' = MainApi.cv w'
            ∧ MainApi.requests w'' = log'
      | Raised e =>
          ∃ w'',
            MainApi.search_jobs job_title location platform w'
            = (MainApi.HTTPException 500 (py "Bot error: " ++ MainApi.exn_str e), w'')
            ∧ MainApi.cv w'' = MainApi.cv w'
            ∧ MainApi.requests w'' = log'
            ∧ MainApi.jobs_file w'' = MainApi.jobs_file w
      end.
Proof.
  intros Hup.
  destruct (upload_cv_stored filename content w w' r Hup)
    as (Hne & Hkw & Htitle & Hloc & Hreq & Hfile).
  destruct (MainApi.run_bot platform
              (MainApi.or_else job_title (MainApi.job_title r))
              (MainApi.or_else location (py "Istanbul"))
              (MainApi.requests w)) as [res log'] eqn:Hrun.
  exists res, log'. split; [done|].
  rewrite <- Htitle, <- Hloc, <- Hreq in Hrun.
  destruct res as [raw|e].
  - destruct (search_jobs_with_cv job_title location platform w' raw log' Hne Hrun)
      as (resp & Hresp & _ & Hjobs).
    eexists resp, _. split; [exact Hresp|]. split_and!; [|done..].
    rewrite Hjobs, sorted_desc_perm. by rewrite Hkw, Htitle.
  - eexists. split; [by apply search_jobs_bot_raised|].
    cbn [MainApi.cv MainApi.requests MainApi.jobs_file]. done.
Qed.

(** X19 on the upload of a one-page file, followed by a search on Kariyer on
    a page of two cards. *)
Lemma search_after_upload_witness :
  ∃ r w',
    MainApi.upload_cv (pypdf := SampleApi.one_page) (disk := SampleApi.flat_dir)
      (py "cv.PDF") [] SampleApi.world_empty
    = (Returned (MainApi.Ok r), w')
    ∧ MainApi.job_title r = py "Backend Developer"
    ∧ ∃ res log',
        MainApi.run_bot (session := Dom.serve SampleApi.two_cards)
          (urllib := Dom.plain_quote) (errors := SampleApi.no_errors)
          (Some (py "kariyer")) (MainApi.or_else None (MainApi.job_title r))
          (MainApi.or_else None (py "Istanbul")) (MainApi.requests SampleApi.world_empty)
        = (res, log')
        ∧ match res with
          | Returned raw =>
              ∃ resp w'',
                MainApi.search_jobs (session := Dom.serve SampleApi.two_cards)
                  (urllib := Dom.plain_quote) (errors := SampleApi.no_errors)
                  None None (Some (py "kariyer")) w' = (MainApi.Ok resp, w'')
                ∧ MainApi.jobs resp
                  ≡ₚ map (MainApi.job_response (MainApi.keywords r)
                            (MainApi.or_else None (MainApi.job_title r))) raw
                ∧ MainApi.cv w'' = MainApi.cv w'
                ∧ MainApi.requests w'' = log'
          | Raised e =>
              ∃ w'',
                MainApi.search_jobs (session := Dom.serve SampleApi.two_cards)
                  (urllib := Dom.plain_quote) (errors := SampleApi.no_errors)
                  None None (Some (py "kariyer")) w'
                = (MainApi.HTTPException 500 (py "Bot error: " ++ MainApi.exn_str e), w'')
                ∧ MainApi.cv w'' = MainApi.cv w'
                ∧ MainApi.requests w'' = log'
                ∧ MainApi.jobs_file w'' = MainApi.jobs_file SampleApi.world_empty
          end.
Proof.
  eexists _, _. split; [vm_compute; reflexivity|]. split; [vm_compute; reflexivity|].
  apply (search_after_upload (session := Dom.serve SampleApi.two_cards)
           (urllib := Dom.plain_quote) (errors := SampleApi.no_errors)
           (pypdf := SampleApi.one_page) (disk := SampleApi.flat_dir)
           (py "cv.PDF") [] SampleApi.world_empty).
  vm_compute. reflexivity.
Defined.

(** X20. What [get_cached_jobs] lists after a search: the jobs of the answer
    when there are some, and what it listed before the search when the answer
    has no job or is an error. *)
Theorem cached_jobs_after_search {elem : Type} {parser : Soup elem} {session : Http elem}
    {urllib : UrlQuote} {errors : PageErrors} (job_title location platform : option str)
    (w : MainApi.world) :
  MainApi.jobs (MainApi.get_cached_jobs (MainApi.search_jobs job_title location platform w).2)
  = match (MainApi.search_jobs job_title location platform w).1 with
    | MainApi.Ok resp =>
        match MainApi.jobs resp with
        | [] => MainApi.jobs (MainApi.get_cached_jobs w)
        | found => found
        end
    | MainApi.HTTPException _ _ => MainApi.jobs (MainApi.get_cached_jobs w)
    end.
Proof.
  destruct (nonempty (MainApi.cv_text (MainApi.cv w))) eqn:Hcv.
  2: { unfold MainApi.search_jobs. by rewrite Hcv. }
  destruct (MainApi.run_bot platform
              (MainApi.or_else job_title (MainApi.cv_job_title (MainApi.cv w)))
              (MainApi.or_else location (MainApi.cv_location (MainApi.cv w)))
              (MainApi.requests w)) as [[raw|e] log'] eqn:Hrun.
  2: { by rewrite (search_jobs_bot_raised _ _ _ _ e log' Hcv Hrun). }
  destruct (search_jobs_with_cv job_title location platform w raw log' Hcv Hrun)
    as (resp & Hresp & _ & _).
  rewrite Hresp. cbn [fst snd]. unfold MainApi.get_cached_jobs.
  cbn [MainApi.jobs MainApi.jobs_file].
  by destruct (MainApi.jobs resp).
Qed.
